(** * csv-i18n: the CSV-to-translation-table engine of [src/index.js]

    A shallow embedding of [convertCsvToTs], [nestObject],
    [generateTypeScriptFiles] and [generateI18nextFiles], and the properties
    of the aggregation, key derivation, nesting and emission steps.

    Conventions of the embedding.
    - A JavaScript string is the sequence of bytes of its UTF-8 encoding
      ([string]).  Every separator the program looks for is ASCII, so
      splitting, joining and replacing act on bytes as they act on code units.
    - A plain JavaScript object used as a dictionary is the list of its own
      properties in creation order ([JsObj.obj]); enumeration puts array
      indices first, as [Object.keys], [for ... in] and [JSON.stringify] do.
    - Every object inherits from [Object.prototype]: its functions
      ([builtin_function]) and the accessor [__proto__], which gives
      [Object.prototype] itself ([inherited_name]).  The test of line 103,
      [Object.keys] of line 152 and the reads and writes of [nestObject]
      follow that chain.  The reads of a cell and of a table entry (lines
      120, 130 and 133) are taken on own properties, which is what they find
      unless a header field or a fully qualified key is an inherited name.
      [Object.prototype] is taken as Node starts it, with no enumerable
      property: the embedding follows a run until it would write into
      [Object.prototype] and says nothing of what comes after such a write.
      [ordinary] describes the runs that stay clear of all that.
    - [console.warn] and [console.error] append to a list of diagnostics;
      [console.log] lines are not recorded.
    - The file system and PapaParse are inputs: a run receives the discovered
      files in discovery order, each with its path relative to the input root
      and either a read failure or the parse result, and for every file name
      whether [fs.writeFile] succeeds on it.  A run returns the files
      written. *)

From Stdlib Require Import List String Ascii Bool Arith NArith Lia.
From Stdlib Require Import Permutation Sorted.
Import ListNotations.
Open Scope string_scope.
Open Scope list_scope.

(* ================================================================== *)
(** ** Strings *)

Module JsString.

(** [s.split(sep)] for a one-character separator: never the empty list. *)
Fixpoint split (sep : ascii) (s : string) : list string :=
  match s with
  | EmptyString => [EmptyString]
  | String c s' =>
      if Ascii.eqb c sep then EmptyString :: split sep s'
      else match split sep s' with
           | [] => [String c EmptyString]
           | p :: ps => String c p :: ps
           end
  end.

(** [l.join(sep)]. *)
Fixpoint join (sep : string) (l : list string) : string :=
  match l with
  | [] => EmptyString
  | x :: rest =>
      match rest with
      | [] => x
      | _ :: _ => (x ++ sep ++ join sep rest)%string
      end
  end.

(** [s.replace(/c/g, d)] for single characters [c] and [d]. *)
Fixpoint replace_all (c d : ascii) (s : string) : string :=
  match s with
  | EmptyString => EmptyString
  | String a s' => String (if Ascii.eqb a c then d else a) (replace_all c d s')
  end.

Definition ascii_lower (a : ascii) : ascii :=
  let n := N_of_ascii a in
  if ((65 <=? n) && (n <=? 90))%N then ascii_of_N (n + 32) else a.

(** [s.toLowerCase()].  ASCII letters are folded, and so is the Kelvin sign
    U+212A (bytes E2 84 AA), the one non-ASCII character whose lower case
    is an ASCII letter; so a comparison of the result with an ASCII word
    such as [key] is the comparison JavaScript makes. *)
Fixpoint toLowerCase (s : string) : string :=
  match s with
  | EmptyString => EmptyString
  | String a s' =>
      match s' with
      | String b (String c s'') =>
          if ((N_of_ascii a =? 226) && (N_of_ascii b =? 132)
              && (N_of_ascii c =? 170))%N
          then String "k" (toLowerCase s'')
          else String (ascii_lower a) (toLowerCase s')
      | _ => String (ascii_lower a) (toLowerCase s')
      end
  end.

(** The match of [/\.csv$/i]: the whole of a four-character suffix. *)
Definition is_csv_ext (s : string) : bool :=
  match s with
  | String d (String c (String s1 (String v EmptyString))) =>
      Ascii.eqb d "." && Ascii.eqb (ascii_lower c) "c"
      && Ascii.eqb (ascii_lower s1) "s" && Ascii.eqb (ascii_lower v) "v"
  | _ => false
  end.

(** [s.replace(/\.csv$/i, '')]. *)
Fixpoint strip_csv (s : string) : string :=
  if is_csv_ext s then EmptyString
  else match s with
       | EmptyString => EmptyString
       | String a s' => String a (strip_csv s')
       end.

Definition ascii_white (a : ascii) : bool :=
  let n := N_of_ascii a in
  (((9 <=? n) && (n <=? 13)) || (n =? 32))%N.

(** Every character of [s] is white space or a line terminator of
    ECMAScript: TAB, LF, VT, FF, CR, SP, U+00A0, U+1680, U+2000..U+200A,
    U+2028, U+2029, U+202F, U+205F, U+3000, U+FEFF. *)
Fixpoint all_white (s : string) : bool :=
  match s with
  | EmptyString => true
  | String a r =>
      if ascii_white a then all_white r
      else
        let x := N_of_ascii a in
        match r with
        | String b r1 =>
            let y := N_of_ascii b in
            if ((x =? 194) && (y =? 160))%N then all_white r1
            else
              match r1 with
              | String c r2 =>
                  let z := N_of_ascii c in
                  if (((x =? 225) && (y =? 154) && (z =? 128))
                      || ((x =? 226) && (y =? 128)
                          && (((128 <=? z) && (z <=? 138))
                              || (z =? 168) || (z =? 169) || (z =? 175)))
                      || ((x =? 226) && (y =? 129) && (z =? 159))
                      || ((x =? 227) && (y =? 128) && (z =? 128))
                      || ((x =? 239) && (y =? 187) && (z =? 191)))%N
                  then all_white r2
                  else false
              | EmptyString => false
              end
        | EmptyString => false
        end
  end.

(** [s.trim() === '']: trimming leaves nothing exactly when every
    character is white space. *)
Definition trim_is_empty (s : string) : bool := all_white s.

(** The default comparison of [Array.prototype.sort]: strings by UTF-16
    code units.  On UTF-8 bytes that is the byte order, except that the
    lead bytes EE and EF (U+E000..U+FFFF) rank above the lead bytes
    F0..F4 of the characters encoded as surrogate pairs. *)
Definition unit_rank (a : ascii) : N :=
  let n := N_of_ascii a in
  if ((n =? 238) || (n =? 239))%N then (n + 16)%N else n.

Fixpoint leb (s t : string) : bool :=
  match s, t with
  | EmptyString, _ => true
  | String _ _, EmptyString => false
  | String a s', String b t' =>
      if (unit_rank a <? unit_rank b)%N then true
      else if (unit_rank b <? unit_rank a)%N then false
      else leb s' t'
  end.

Fixpoint insert_sorted (x : string) (l : list string) : list string :=
  match l with
  | [] => [x]
  | y :: l' => if leb x y then x :: l else y :: insert_sorted x l'
  end.

(** [l.sort()] on an array of strings.  The order is total, so the result
    is the one sorted arrangement whatever algorithm the engine runs. *)
Fixpoint sort (l : list string) : list string :=
  match l with
  | [] => []
  | x :: l' => insert_sorted x (sort l')
  end.

End JsString.

(* ================================================================== *)
(** ** Plain objects as dictionaries *)

Module JsObj.

Section Obj.
Context {V : Type}.

(** Own properties, in the order in which they were created. *)
Definition obj := list (string * V).

Definition empty : obj := [].

(** [o[k]]; [None] is [undefined]. *)
Fixpoint get (k : string) (o : obj) : option V :=
  match o with
  | [] => None
  | (k', v) :: o' => if String.eqb k k' then Some v else get k o'
  end.

(** [o[k] = v]: an existing property keeps its place, a new one goes
    last. *)
Fixpoint set (k : string) (v : V) (o : obj) : obj :=
  match o with
  | [] => [(k, v)]
  | (k', v') :: o' =>
      if String.eqb k k' then (k, v) :: o' else (k', v') :: set k v o'
  end.

Definition is_digit (a : ascii) : bool :=
  let n := N_of_ascii a in ((48 <=? n) && (n <=? 57))%N.

Fixpoint digits_value (s : string) (acc : N) : option N :=
  match s with
  | EmptyString => Some acc
  | String a s' =>
      if is_digit a
      then digits_value s' (acc * 10 + (N_of_ascii a - 48))%N
      else None
  end.

(** The array index a property name denotes, if any: a canonical decimal
    numeral below 2^32 - 1. *)
Definition array_index (k : string) : option N :=
  match k with
  | EmptyString => None
  | String a s' =>
      if Ascii.eqb a "0"
      then (if String.eqb s' EmptyString then Some 0%N else None)
      else match digits_value k 0 with
           | Some n => if (n <? 4294967295)%N then Some n else None
           | None => None
           end
  end.

Definition is_index (e : string * V) : bool :=
  match array_index (fst e) with Some _ => true | None => false end.

Definition index_of (e : string * V) : N :=
  match array_index (fst e) with Some n => n | None => 0%N end.

Fixpoint insert_by_index (e : string * V) (l : obj) : obj :=
  match l with
  | [] => [e]
  | e' :: l' =>
      if (index_of e <=? index_of e')%N then e :: l
      else e' :: insert_by_index e l'
  end.

Fixpoint sort_by_index (l : obj) : obj :=
  match l with
  | [] => []
  | e :: l' => insert_by_index e (sort_by_index l')
  end.

(** The order of [Object.keys], [for ... in] and [JSON.stringify]:
    array indices ascending, then the other names in creation order. *)
Definition own_entries (o : obj) : obj :=
  sort_by_index (filter is_index o)
  ++ filter (fun e => negb (is_index e)) o.

Definition keys (o : obj) : list string := map fst (own_entries o).

End Obj.

Arguments obj V : clear implicits.

End JsObj.


(* ================================================================== *)
(** ** What a run reads *)

(** A cell of a parsed row.  PapaParse yields strings ([dynamicTyping] is
    off); [null] is kept because the program tests for it.  A property the
    row does not have reads as [undefined], which is [None] of [JsObj.get]. *)
Inductive cell : Type :=
| CNull
| CStr (s : string).

Definition row : Type := JsObj.obj cell.

Record parse_error : Type := {
  err_type : string;
  err_message : string;
  err_row : option nat
}.

(** The result of [Papa.parse]: [fields] is [None] when [parsed.meta] or
    [parsed.meta.fields] is missing. *)
Record parse_result : Type := {
  errors : list parse_error;
  fields : option (list string);
  data : list row
}.

Inductive read_result : Type :=
| Throws
| Parsed (p : parse_result).

(** One discovered file: its path, [path.relative(inputDir, csvFile)], and
    what [fs.readFile] followed by [Papa.parse] gives. *)
Record csv_file : Type := {
  csvFile : string;
  relativePath : string;
  content : read_result
}.

(** ** What a run says *)

Inductive diag : Type :=
| NoCsvFilesFound
| ParseWarnings (file : string)
| ParseWarning (e : parse_error)
| NoHeaderFields (file : string)
| NoFilePrefix (file : string)
| SkippedRow (rowNo : nat) (file : string)
| DuplicateKey (fullKey lang file : string) (rowNo : nat) (old new : string)
| FileError (file : string)
| NoLanguageData
| NoKeysFound
| NodeOverwritten (part key value : string)
| ValueBlocksPath (part key : string)
| NonObjectBlocksPath (part key : string)
| KeyFileWriteError (file : string)
| WriteError (file : string).

(** ** The accumulator of [convertCsvToTs] *)

(** [translationsByLang] lists the own properties of the object of that
    name and, under the name of a function every object inherits, what lines
    130-139 wrote onto that function: for such a column
    [translationsByLang[lang]] is the inherited function, line 103 creates
    nothing, and [Object.keys] does not list it ([languages_of]). *)
Record state : Type := {
  translationsByLang : JsObj.obj (JsObj.obj string);
  allKeys : list string;
  log : list diag
}.

Definition initial_state : state :=
  {| translationsByLang := JsObj.empty; allKeys := []; log := [] |}.

Definition warn (ds : list diag) (st : state) : state :=
  {| translationsByLang := translationsByLang st;
     allKeys := allKeys st;
     log := log st ++ ds |}.

(** [allKeys.add(k)] on a [Set], which keeps insertion order. *)
Definition set_add (k : string) (s : list string) : list string :=
  if existsb (String.eqb k) s then s else s ++ [k].

(** Truthiness of a string. *)
Definition truthy (s : string) : bool := negb (String.eqb s EmptyString).

(** The functions every object inherits from [Object.prototype]. *)
Definition builtin_function (name : string) : bool :=
  existsb (String.eqb name)
    ["constructor"; "hasOwnProperty"; "isPrototypeOf";
     "propertyIsEnumerable"; "toLocaleString"; "toString"; "valueOf";
     "__defineGetter__"; "__defineSetter__"; "__lookupGetter__";
     "__lookupSetter__"].

(** The names [o[name]] finds on an object without own properties: the
    functions, and the accessor [__proto__] that gives [Object.prototype]. *)
Definition inherited_name (name : string) : bool :=
  String.eqb name "__proto__" || builtin_function name.

(** Line 99. *)
Definition languageColumns (fs : list string) : list string :=
  filter (fun field => negb (String.eqb (JsString.toLowerCase field) "key")) fs.

(** Lines 102-106.  [translationsByLang[lang]] is truthy for a language
    that has its table and for a name inherited from [Object.prototype]. *)
Definition init_languages (cols : list string)
    (t : JsObj.obj (JsObj.obj string)) : JsObj.obj (JsObj.obj string) :=
  fold_left
    (fun t lang =>
       match JsObj.get lang t with
       | Some _ => t
       | None =>
           if inherited_name lang then t else JsObj.set lang JsObj.empty t
       end)
    cols t.

(** Lines 108-113. *)
Definition baseKey (relativePath : string) : string :=
  JsString.join "."
    (JsString.split "/"
       (JsString.strip_csv (JsString.replace_all "\" "/" relativePath))).

(** Line 127. *)
Definition fullKey (base key : string) : string :=
  if truthy base then (base ++ "." ++ key)%string else key.

(** [translationsByLang[lang]] where the language was initialised (lines
    102-106 do so for every language column that is not an inherited name
    before the rows are read, see [init_languages_defined]); for an
    inherited function, what was written onto it. *)
Definition lang_table (lang : string)
    (t : JsObj.obj (JsObj.obj string)) : JsObj.obj string :=
  match JsObj.get lang t with
  | Some o => o
  | None => JsObj.empty
  end.

(** Lines 130-140: one language column of one row.  In a column named
    [__proto__] the cell read by line 130 is [Object.prototype] and line 139
    writes into it, and in a column named like an inherited function a row
    without that cell reads the function as the cell: such a run is not
    [ordinary], and not followed there. *)
Definition write_cell (file : string) (rowNo : nat) (fk : string) (r : row)
    (st : state) (lang : string) : state :=
  match JsObj.get lang r with
  | Some (CStr value) =>
      if String.eqb value EmptyString then st
      else
        let tl := lang_table lang (translationsByLang st) in
        let ws :=
          match JsObj.get fk tl with
          | Some old =>
              if truthy old
              then if String.eqb old value then []
                   else [DuplicateKey fk lang file rowNo old value]
              else []
          | None => []
          end in
        {| translationsByLang :=
             JsObj.set lang (JsObj.set fk value tl) (translationsByLang st);
           allKeys := allKeys st;
           log := log st ++ ws |}
  | Some CNull => st
  | None => st
  end.

(** The test of line 122 on [row.key]: the key of a row that survives. *)
Definition row_key (r : row) : option string :=
  match JsObj.get "key" r with
  | Some (CStr key) =>
      if negb (truthy key) || JsString.trim_is_empty key then None
      else Some key
  | Some CNull => None
  | None => None
  end.

(** Lines 119-144: the callback of [parsed.data.forEach]. *)
Definition process_row (file base : string) (cols : list string)
    (rowIndex : nat) (r : row) (st : state) : state :=
  match row_key r with
  | None => warn [SkippedRow (rowIndex + 2) file] st
  | Some key =>
      let fk := fullKey base key in
      let st' := fold_left (write_cell file (rowIndex + 2) fk r) cols st in
      {| translationsByLang := translationsByLang st';
         allKeys := set_add fk (allKeys st');
         log := log st' |}
  end.

Fixpoint process_rows (file base : string) (cols : list string)
    (rowIndex : nat) (rows : list row) (st : state) : state :=
  match rows with
  | [] => st
  | r :: rows' =>
      process_rows file base cols (S rowIndex) rows'
        (process_row file base cols rowIndex r st)
  end.

(** Lines 81-148: the body of the loop over the discovered files. *)
Definition process_file (st : state) (f : csv_file) : state :=
  match content f with
  | Throws => warn [FileError (csvFile f)] st
  | Parsed p =>
      let st1 :=
        match errors p with
        | [] => st
        | _ :: _ =>
            warn (ParseWarnings (csvFile f) :: map ParseWarning (errors p)) st
        end in
      match fields p with
      | None => warn [NoHeaderFields (csvFile f)] st1
      | Some fs =>
          let cols := languageColumns fs in
          let st2 :=
            {| translationsByLang :=
                 init_languages cols (translationsByLang st1);
               allKeys := allKeys st1;
               log := log st1 |} in
          let base := baseKey (relativePath f) in
          let st3 :=
            if negb (truthy base) && (0 <? List.length (data p))%nat
            then warn [NoFilePrefix (csvFile f)] st2
            else st2 in
          process_rows (csvFile f) base cols 0 (data p) st3
      end
  end.

(** Lines 77-149. *)
Definition aggregate (csvFiles : list csv_file) : state :=
  fold_left process_file csvFiles initial_state.

(* ================================================================== *)
(** ** The key tree *)

(** What [nestObject] builds: a string at a leaf, an object at a node. *)
#[local] Set Warnings "-register-all".
Inductive jsval : Type :=
| VStr (s : string)
| VObj (o : list (string * jsval)).

Definition tree : Type := JsObj.obj jsval.

(** What [current[part]] finds: an own property, or else what
    [Object.prototype] gives every object. *)
Inductive found : Type :=
| FUndefined
| FStr (s : string)
| FObj (o : list (string * jsval))
| FFunction
| FPrototype.

Definition read (current : tree) (part : string) : found :=
  match JsObj.get part current with
  | Some (VStr s) => FStr s
  | Some (VObj o) => FObj o
  | None =>
      if String.eqb part "__proto__" then FPrototype
      else if builtin_function part then FFunction
      else FUndefined
  end.

(** [current[part] = value]: an own property is created or replaced, except
    under the inherited accessor [__proto__], whose setter ignores a
    string. *)
Definition assign (part : string) (value : jsval) (current : tree) : tree :=
  match JsObj.get part current with
  | Some _ => JsObj.set part value current
  | None =>
      if String.eqb part "__proto__" then current
      else JsObj.set part value current
  end.

(** Lines 174-204: the loop over [parts] for one [key], started at
    [current].  With [part] the last one the value is assigned, after a
    warning when an object is there; before the last one a string stops the
    key (line 187), a missing property is created as [{}] (line 194), an
    inherited function stops the key (line 196), and the loop moves into
    the object.  Where that object is [Object.prototype] the rest of the key
    is written outside the tree, which stays as it is: [enters_prototype]
    tells when, and the embedding does not follow what those writes do. *)
Fixpoint nest_parts (key value : string) (parts : list string)
    (current : tree) : tree * list diag :=
  match parts with
  | [] => (current, [])
  | part :: rest =>
      match rest with
      | [] =>
          (assign part (VStr value) current,
           match read current part with
           | FObj _ | FPrototype => [NodeOverwritten part key value]
           | _ => []
           end)
      | _ :: _ =>
          match read current part with
          | FStr _ => (current, [ValueBlocksPath part key])
          | FObj o =>
              let (o', ws) := nest_parts key value rest o in
              (JsObj.set part (VObj o') current, ws)
          | FUndefined =>
              let (o', ws) := nest_parts key value rest JsObj.empty in
              (JsObj.set part (VObj o') current, ws)
          | FFunction => (current, [NonObjectBlocksPath part key])
          | FPrototype => (current, [])
          end
      end
  end.

(** Whether the loop of lines 174-204 reaches line 202 with
    [Object.prototype] as [current[part]]. *)
Fixpoint enters_prototype (parts : list string) (current : tree) : bool :=
  match parts with
  | [] => false
  | part :: rest =>
      match rest with
      | [] => false
      | _ :: _ =>
          match read current part with
          | FObj o => enters_prototype rest o
          | FUndefined => enters_prototype rest JsObj.empty
          | FPrototype => true
          | FStr _ | FFunction => false
          end
      end
  end.

(** Lines 171-173: one turn of [for (const key in flatObject)]; the entry
    carries [flatObject[key]]. *)
Definition nest_key (acc : tree * list diag) (e : string * string)
    : tree * list diag :=
  let (t', ws) :=
    nest_parts (fst e) (snd e) (JsString.split "." (fst e)) (fst acc) in
  (t', snd acc ++ ws).

(** Lines 169-207, called while [Object.prototype] has no enumerable
    property: [for ... in] then visits the own properties only. *)
Definition nestObject (flatObject : JsObj.obj string) : tree * list diag :=
  fold_left nest_key (JsObj.own_entries flatObject) (JsObj.empty, []).

(* ================================================================== *)
(** ** Emitters *)

Inductive format : Type :=
| typescript
| i18next.

(** The object handed to [JSON.stringify]. *)
Inductive file_body : Type :=
| TsModule (o : JsObj.obj string)
| JsonDocument (o : tree).

(** A file written by [fs.writeFile]: the file name joined to the output
    directory, and the body. *)
Definition written : Type := (string * file_body)%type.

(** Lines 217-221. *)
Definition keyObject (keys : list string) : JsObj.obj string :=
  fold_left (fun o key => JsObj.set key key o) (JsString.sort keys) JsObj.empty.

(** Lines 238-242.  A key whose value were [undefined] would not be
    printed by [JSON.stringify]. *)
Definition sortedLangData (flatLangData : JsObj.obj string) : JsObj.obj string :=
  fold_left
    (fun o key =>
       match JsObj.get key flatLangData with
       | Some v => JsObj.set key v o
       | None => o
       end)
    (JsString.sort (JsObj.keys flatLangData)) JsObj.empty.

(** Lines 223-228, 246-251 and 266-271: [fs.writeFile] inside [try]; a
    failure is reported by [err] and the run goes on. *)
Definition write_file (writable : string -> bool) (err : string -> diag)
    (name : string) (body : file_body) (acc : list written * list diag)
    : list written * list diag :=
  if writable name then (fst acc ++ [(name, body)], snd acc)
  else (fst acc, snd acc ++ [err name]).

(** Lines 211-253. *)
Definition generateTypeScriptFiles (writable : string -> bool)
    (languages : list string) (t : JsObj.obj (JsObj.obj string))
    (keys : list string) : list written * list diag :=
  let key_file :=
    match keys with
    | [] => ([], [NoKeysFound])
    | _ :: _ =>
        write_file writable KeyFileWriteError "key.ts"
          (TsModule (keyObject keys)) ([], [])
    end in
  fold_left
    (fun acc lang =>
       write_file writable WriteError (lang ++ ".ts")
         (TsModule (sortedLangData (lang_table lang t))) acc)
    languages key_file.

(** Lines 255-273.  Every call of [nestObject] is taken with
    [Object.prototype] as Node starts it, as it is in an [ordinary] run. *)
Definition generateI18nextFiles (writable : string -> bool)
    (languages : list string) (t : JsObj.obj (JsObj.obj string))
    : list written * list diag :=
  fold_left
    (fun acc lang =>
       let (nested, ws) := nestObject (lang_table lang t) in
       write_file writable WriteError (lang ++ ".json")
         (JsonDocument nested) (fst acc, snd acc ++ ws))
    languages ([], []).

(** Line 152: [Object.keys(translationsByLang)]. *)
Definition languages_of (t : JsObj.obj (JsObj.obj string)) : list string :=
  filter (fun lang => negb (inherited_name lang)) (JsObj.keys t).

(** Lines 67-165 of [convertCsvToTs], once the input directory is readable
    and the output directory exists: the files written and everything
    warned about. *)
Definition convertCsvToTs (writable : string -> bool) (fmt : format)
    (csvFiles : list csv_file) : list written * list diag :=
  match csvFiles with
  | [] => ([], [NoCsvFilesFound])
  | _ :: _ =>
      let st := aggregate csvFiles in
      let languages := languages_of (translationsByLang st) in
      match languages with
      | [] => ([], log st ++ [NoLanguageData])
      | _ :: _ =>
          let (files, ws) :=
            match fmt with
            | typescript =>
                generateTypeScriptFiles writable languages
                  (translationsByLang st) (allKeys st)
            | i18next =>
                generateI18nextFiles writable languages
                  (translationsByLang st)
            end in
          (files, log st ++ ws)
      end
  end.

(* ================================================================== *)
(** ** Notions of the specification *)

(** A leaf found below the property [k]. *)
Definition under (k : string) (ps : list string * string)
    : list string * string :=
  (k :: fst ps, snd ps).

(** The leaves of a tree, each with the names on the way to it. *)
Fixpoint leaves_val (v : jsval) : list (list string * string) :=
  match v with
  | VStr s => [([], s)]
  | VObj o =>
      (fix go (o : list (string * jsval)) : list (list string * string) :=
         match o with
         | [] => []
         | (k, c) :: o' => map (under k) (leaves_val c) ++ go o'
         end) o
  end.

Definition leaves (o : tree) : list (list string * string) :=
  leaves_val (VObj o).

(** Flattening a tree back to dotted keys: the names on the way to a leaf
    joined with a dot. *)
Definition flattenObject (o : tree) : JsObj.obj string :=
  map (fun ps => (JsString.join "." (fst ps), snd ps)) (leaves o).

(** What is found in a tree by following [path]. *)
Fixpoint tree_at (path : list string) (o : tree) : option jsval :=
  match path with
  | [] => None
  | part :: rest =>
      match rest with
      | [] => JsObj.get part o
      | _ :: _ =>
          match JsObj.get part o with
          | Some (VObj o') => tree_at rest o'
          | _ => None
          end
      end
  end.

(** The path of one key is an initial part of the path of another. *)
Fixpoint is_prefix (p q : list string) : bool :=
  match p, q with
  | [], _ => true
  | _ :: _, [] => false
  | a :: p', b :: q' => String.eqb a b && is_prefix p' q'
  end.

Definition key_path (k : string) : list string := JsString.split "." k.

(** Neither path is an initial part of the other. *)
Definition apart (p q : list string) : Prop :=
  is_prefix p q = false /\ is_prefix q p = false.

(** The base namespace in the words of the specification: separators
    normalised to [/], a trailing [.csv] removed, each [/] turned into a
    dot. *)
Definition base_namespace (relativePath : string) : string :=
  JsString.replace_all "/" "."
    (JsString.strip_csv (JsString.replace_all "\" "/" relativePath)).

Definition qualified_key (relativePath key : string) : string :=
  match base_namespace relativePath with
  | EmptyString => key
  | String _ _ as base => (base ++ "." ++ key)%string
  end.

(** [translationsByLang[lang][k]], [None] when either property is missing. *)
Definition translation (st : state) (lang k : string) : option string :=
  match JsObj.get lang (translationsByLang st) with
  | Some o => JsObj.get k o
  | None => None
  end.

(** The value a row carries in a column, when it is a non-empty string. *)
Definition cell_value (r : row) (lang : string) : option string :=
  match JsObj.get lang r with
  | Some (CStr v) => if String.eqb v EmptyString then None else Some v
  | Some CNull => None
  | None => None
  end.

(** A row defines a value for (lang, k) when it survives, its fully
    qualified key is [k], [lang] is a language column and the cell holds a
    non-empty string: listed with the row number of the diagnostics, once
    for each time the header names the column. *)
Definition row_defines (base lang k : string) (cols : list string)
    (rowIndex : nat) (r : row) : list (nat * string) :=
  match row_key r with
  | Some key =>
      if String.eqb (fullKey base key) k
      then flat_map
             (fun c =>
                if String.eqb c lang
                then match cell_value r lang with
                     | Some v => [(rowIndex + 2, v)]
                     | None => []
                     end
                else [])
             cols
      else []
  | None => []
  end.

Fixpoint rows_define (base lang k : string) (cols : list string)
    (rowIndex : nat) (rows : list row) : list (nat * string) :=
  match rows with
  | [] => []
  | r :: rows' =>
      row_defines base lang k cols rowIndex r
      ++ rows_define base lang k cols (S rowIndex) rows'
  end.

(** The values a discovered file defines for (lang, k), in row order. *)
Definition defines (f : csv_file) (lang k : string) : list (nat * string) :=
  match content f with
  | Parsed p =>
      match fields p with
      | Some fs =>
          rows_define (baseKey (relativePath f)) lang k (languageColumns fs)
            0 (data p)
      | None => []
      end
  | Throws => []
  end.

(** The duplicate-key warnings about (lang, k). *)
Definition is_duplicate_of (lang k : string) (d : diag) : bool :=
  match d with
  | DuplicateKey fk l _ _ _ _ => String.eqb fk k && String.eqb l lang
  | _ => false
  end.

Definition duplicates (lang k : string) (ds : list diag) : list diag :=
  filter (is_duplicate_of lang k) ds.

(** One definition of (lang, k) met by the aggregator: what it does to the
    value held and to the warnings about that pair. *)
Definition redefine (lang k file : string) (acc : option string * list diag)
    (d : nat * string) : option string * list diag :=
  (Some (snd d),
   snd acc
   ++ match fst acc with
      | Some old =>
          if truthy old
          then if String.eqb old (snd d) then []
               else [DuplicateKey k lang file (fst d) old (snd d)]
          else []
      | None => []
      end).

(** The keys and values a written file holds. *)
Definition body_entries (b : file_body) : list (string * string) :=
  match b with
  | TsModule o => o
  | JsonDocument o => flattenObject o
  end.

Definition extension (fmt : format) : string :=
  match fmt with
  | typescript => ".ts"
  | i18next => ".json"
  end.

(** The body written for one language. *)
Definition language_body (fmt : format) (t : JsObj.obj (JsObj.obj string))
    (lang : string) : file_body :=
  match fmt with
  | typescript => TsModule (sortedLangData (lang_table lang t))
  | i18next => JsonDocument (fst (nestObject (lang_table lang t)))
  end.

(** What the accumulator holds about one (lang, k): the value and the
    duplicate-key warnings logged so far. *)
Definition view (lang k : string) (st : state) : option string * list diag :=
  (translation st lang k, duplicates lang k (log st)).

(** The definitions of (lang, k) of all files, replayed in discovery
    order. *)
Definition replay (lang k : string) (acc : option string * list diag)
    (f : csv_file) : option string * list diag :=
  fold_left (redefine lang k (csvFile f)) (defines f lang k) acc.

(** Somewhere in the input a surviving row with fully qualified key [k]
    carries the non-empty string [v] in a language column [lang] of its
    file. *)
Definition has_value (csvFiles : list csv_file) (lang k v : string) : Prop :=
  exists f p fs r key,
    In f csvFiles /\ content f = Parsed p /\ fields p = Some fs
    /\ In lang (languageColumns fs)
    /\ In r (data p) /\ row_key r = Some key
    /\ fullKey (baseKey (relativePath f)) key = k
    /\ JsObj.get lang r = Some (CStr v) /\ v <> EmptyString.

(** The registry file of a run, when the run has one to write. *)
Definition registry_file (fmt : format) (st : state) : list written :=
  match fmt, allKeys st with
  | typescript, _ :: _ => [("key.ts", TsModule (keyObject (allKeys st)))]
  | _, _ => []
  end.

(** The file of one language. *)
Definition language_file (fmt : format) (st : state) (lang : string)
    : written :=
  ((lang ++ extension fmt)%string,
   language_body fmt (translationsByLang st) lang).

(** The body that holds no key. *)
Definition empty_body (fmt : format) : file_body :=
  match fmt with
  | typescript => TsModule JsObj.empty
  | i18next => JsonDocument JsObj.empty
  end.

(** ** Sample input *)

Definition str_row (cells : list (string * string)) : row :=
  map (fun c => (fst c, CStr (snd c))) cells.

(** A file that is read and parsed without complaint. *)
Definition parsed_file (relative : string) (header : list string)
    (rows : list row) : csv_file :=
  {| csvFile := ("/in/" ++ relative)%string;
     relativePath := relative;
     content := Parsed {| errors := []; fields := Some header; data := rows |} |}.

(** A file whose one key has the part [__proto__], with a value for [en] and
    an empty cell for [ja]. *)
Definition prototype_input : list csv_file :=
  [parsed_file "t.csv" ["key"; "en"; "ja"]
     [str_row [("key", "__proto__.y"); ("en", "v"); ("ja", "")]]].

(** ** Further notions *)

(** A tree in which every object, at any depth, has a leaf below it. *)
Inductive solid : tree -> Prop :=
| solid_nil : solid []
| solid_str (k s : string) (o : tree) :
    solid o -> solid ((k, VStr s) :: o)
| solid_obj (k : string) (c o : tree) :
    solid c -> leaves c <> [] -> solid o -> solid ((k, VObj c) :: o).


(** All the values the discovered files define for (lang, k), in the order
    in which the aggregator meets them. *)
Definition definitions (csvFiles : list csv_file) (lang k : string)
    : list (nat * string) :=
  flat_map (fun f => defines f lang k) csvFiles.

(** How often, in a sequence of values that starts after [cur], a value
    differs from the one before it. *)
Fixpoint changes_from (cur : option string) (l : list string) : nat :=
  match l with
  | [] => 0
  | v :: l' =>
      match cur with
      | Some old => if String.eqb old v then 0 else 1
      | None => 0
      end + changes_from (Some v) l'
  end.

(** The skipped-row warnings of a log. *)
Definition is_skip (d : diag) : bool :=
  match d with
  | SkippedRow _ _ => true
  | _ => false
  end.

(** The rows of a file that have no usable key, as line 123 reports them. *)
Fixpoint rows_skipped (file : string) (rowIndex : nat) (rows : list row)
    : list diag :=
  match rows with
  | [] => []
  | r :: rows' =>
      match row_key r with
      | Some _ => []
      | None => [SkippedRow (rowIndex + 2) file]
      end ++ rows_skipped file (S rowIndex) rows'
  end.

Definition file_skipped (f : csv_file) : list diag :=
  match content f with
  | Parsed p =>
      match fields p with
      | Some _ => rows_skipped (csvFile f) 0 (data p)
      | None => []
      end
  | Throws => []
  end.

(** The files a run hands to [fs.writeFile], from the accumulator at the
    end of the loop, and those of them that are written. *)
Definition attempts (fmt : format) (st : state) : list written :=
  match languages_of (translationsByLang st) with
  | [] => []
  | lang :: languages =>
      registry_file fmt st ++ map (language_file fmt st) (lang :: languages)
  end.

Definition outputs_of (writable : string -> bool) (fmt : format) (st : state)
    : list written :=
  filter (fun file => writable (fst file)) (attempts fmt st).

(** Every write succeeds. *)
Definition all_writable (name : string) : bool := true.

(** No part is an inherited name. *)
Definition plain_parts (parts : list string) : bool :=
  forallb (fun part => negb (inherited_name part)) parts.

Definition plain_key (k : string) : bool := plain_parts (key_path k).

(** No part is [__proto__]. *)
Definition proto_free_parts (parts : list string) : bool :=
  forallb (fun part => negb (String.eqb part "__proto__")) parts.

Definition proto_free (k : string) : bool := proto_free_parts (key_path k).

(** A file that leaves [Object.prototype] and its functions alone.  No
    field of its header is an inherited name: for the column [__proto__]
    line 130 would read [Object.prototype] as the cell and line 139 write
    into it, and for the name of an inherited function lines 133-139 would
    read and write the properties of that function.  No surviving row has a
    fully qualified key that is an inherited name (line 133 would find the
    inherited value) or that has a part [__proto__] (line 202 would move
    into [Object.prototype]). *)
Definition ordinary_file (f : csv_file) : bool :=
  match content f with
  | Throws => true
  | Parsed p =>
      match fields p with
      | None => true
      | Some fs =>
          forallb (fun field => negb (inherited_name field)) fs
          && forallb
               (fun r =>
                  match row_key r with
                  | Some key =>
                      negb (inherited_name
                              (fullKey (baseKey (relativePath f)) key))
                      && proto_free (fullKey (baseKey (relativePath f)) key)
                  | None => true
                  end)
               (data p)
      end
  end.

(** A run in which [Object.prototype] stays as Node starts it and no
    property read reaches it. *)
Definition ordinary (csvFiles : list csv_file) : bool :=
  forallb ordinary_file csvFiles.

(** A file that gives the aggregator nothing to read: it cannot be read or
    parsed, or it has no header fields. *)
Definition unusable (f : csv_file) : Prop :=
  content f = Throws
  \/ exists p, content f = Parsed p /\ fields p = None.

(** Two accumulators that differ at most in their log. *)
Definition same_data (st1 st2 : state) : Prop :=
  translationsByLang st1 = translationsByLang st2
  /\ allKeys st1 = allKeys st2.

(* ================================================================== *)
(** ** Discovery of the CSV files *)

(** What is tracked while [path.extname] of Node (POSIX flavour) scans a
    path from its end: the index of the last dot, where the last part
    starts, where it ends, whether only slashes were met so far, and what
    stands before the last dot (nothing yet, dots only, or something
    else). *)
Inductive pre_dot : Type :=
| NothingBefore
| DotsBefore
| NameBefore.

Record ext_scan : Type := {
  startDot : option nat;
  startPart : nat;
  endPart : option nat;
  matchedSlash : bool;
  preDotState : pre_dot
}.

(** The loop of [path.extname] over the characters at the indices below
    the length of [rs], the character of highest index first. *)
Fixpoint extname_loop (rs : list ascii) (st : ext_scan) : ext_scan :=
  match rs with
  | [] => st
  | c :: rs' =>
      let i := List.length rs' in
      if Ascii.eqb c "/"
      then if matchedSlash st then extname_loop rs' st
           else {| startDot := startDot st; startPart := S i;
                   endPart := endPart st; matchedSlash := matchedSlash st;
                   preDotState := preDotState st |}
      else
        let st1 :=
          match endPart st with
          | None => {| startDot := startDot st; startPart := startPart st;
                       endPart := Some (S i); matchedSlash := false;
                       preDotState := preDotState st |}
          | Some _ => st
          end in
        let st2 :=
          if Ascii.eqb c "."
          then match startDot st1 with
               | None => {| startDot := Some i; startPart := startPart st1;
                            endPart := endPart st1;
                            matchedSlash := matchedSlash st1;
                            preDotState := preDotState st1 |}
               | Some _ => {| startDot := startDot st1;
                              startPart := startPart st1;
                              endPart := endPart st1;
                              matchedSlash := matchedSlash st1;
                              preDotState := DotsBefore |}
               end
          else match startDot st1 with
               | Some _ => {| startDot := startDot st1;
                              startPart := startPart st1;
                              endPart := endPart st1;
                              matchedSlash := matchedSlash st1;
                              preDotState := NameBefore |}
               | None => st1
               end in
        extname_loop rs' st2
  end.

(** [path.extname(p)]. *)
Definition extname (p : string) : string :=
  let st := extname_loop (rev (list_ascii_of_string p))
              {| startDot := None; startPart := 0; endPart := None;
                 matchedSlash := true; preDotState := NothingBefore |} in
  match startDot st, endPart st with
  | Some d, Some e =>
      match preDotState st with
      | NothingBefore => EmptyString
      | DotsBefore =>
          if Nat.eqb d (e - 1) && Nat.eqb d (S (startPart st))
          then EmptyString else substring d (e - d) p
      | NameBefore => substring d (e - d) p
      end
  | _, _ => EmptyString
  end.

(** [path.join(dir, name)] for a directory path as [path.resolve] and
    [path.join] give it (absolute, normalised, so without a slash at its end
    unless it is the root) and a name as [fs.readdir] gives it. *)
Definition path_join (dir name : string) : string :=
  if String.eqb dir "/" then ("/" ++ name)%string
  else (dir ++ "/" ++ name)%string.

(** An entry of a directory, as [fs.readdir] reports it with
    [withFileTypes]: a regular file, a directory with what reading it gives
    ([None] when reading it throws), or anything else (a link, a socket). *)
Inductive dirent : Type :=
| DFile (name : string)
| DDirectory (name : string) (listing : option (list dirent))
| DOther (name : string).

(** Lines 32-39 for one entry of [dir]: the CSV files found, and the
    directories whose reading failed (line 41). *)
Fixpoint find_in_entry (dir : string) (d : dirent)
    : list string * list string :=
  match d with
  | DFile name =>
      if String.eqb (JsString.toLowerCase (extname name)) ".csv"
      then ([path_join dir name], [])
      else ([], [])
  | DDirectory name listing =>
      match listing with
      | None => ([], [path_join dir name])
      | Some dirents =>
          (fix go (ds : list dirent) : list string * list string :=
             match ds with
             | [] => ([], [])
             | d' :: ds' =>
                 let r := find_in_entry (path_join dir name) d' in
                 let rs := go ds' in
                 (fst r ++ fst rs, snd r ++ snd rs)
             end) dirents
      end
  | DOther _ => ([], [])
  end.

(** Lines 28-44: [findCsvFiles(dir)], given what reading [dir] gives. *)
Definition findCsvFiles (dir : string) (listing : option (list dirent))
    : list string * list string :=
  match listing with
  | None => ([], [dir])
  | Some dirents =>
      fold_right
        (fun d rs =>
           let r := find_in_entry dir d in
           (fst r ++ fst rs, snd r ++ snd rs))
        ([], []) dirents
  end.

(** What is left of [p] after the prefix [pre], if [p] starts with it. *)
Fixpoint strip_prefix (pre p : string) : option string :=
  match pre with
  | EmptyString => Some p
  | String a pre' =>
      match p with
      | EmptyString => None
      | String b p' => if Ascii.eqb a b then strip_prefix pre' p' else None
      end
  end.

(** The path of a directory with the slash that precedes its entries. *)
Definition dir_prefix (dir : string) : string :=
  if String.eqb dir "/" then "/" else (dir ++ "/")%string.

(** [path.relative(from, to)] for a normalised absolute path [to] below the
    directory [from]: the rest of [to].  (Other paths do not occur: line 108
    applies it to the paths that [findCsvFiles] found below [inputDir].) *)
Definition path_relative (from to : string) : string :=
  match strip_prefix (dir_prefix from) to with
  | Some rest => rest
  | None => to
  end.

(** Lines 67 and 80-108: the discovered files as the loop reads them, with
    [read] for [fs.readFile] followed by [Papa.parse]. *)
Definition discovered (inputDir : string) (listing : option (list dirent))
    (read : string -> read_result) : list csv_file :=
  map (fun p => {| csvFile := p;
                   relativePath := path_relative inputDir p;
                   content := read p |})
      (fst (findCsvFiles inputDir listing)).

(** The warning of lines 115-117. *)
Definition is_no_prefix (d : diag) : bool :=
  match d with
  | NoFilePrefix _ => true
  | _ => false
  end.

(* ================================================================== *)
(** ** Watch mode *)

(** [s.endsWith(suffix)]. *)
Definition endsWith (s suffix : string) : bool :=
  (String.length suffix <=? String.length s)%nat
  && String.eqb
       (substring (String.length s - String.length suffix)
          (String.length suffix) s)
       suffix.

(** What the watcher reacts to: a change reported by [fs.watch] (lines
    298-333), with the file name when there is one, and the [close] and
    [error] events of the conversion it spawned (lines 317-325). *)
Inductive watch_event : Type :=
| FileChanged (eventType : string) (filename : option string)
| ChildClosed
| ChildFailed.

(** Line 310: the arguments handed on to the spawned conversion. *)
Definition child_args (argv : list string) : list string :=
  filter (fun arg => negb (String.eqb arg "--watch")
                     && negb (String.eqb arg "-w"))
         (skipn 2 argv).

(** One event: the flag [isRunning] afterwards, and the arguments of the
    conversion spawned, if one is. *)
Definition on_watch_event (argv : list string) (isRunning : bool)
    (e : watch_event) : bool * option (list string) :=
  match e with
  | FileChanged _ filename =>
      if isRunning then (isRunning, None)
      else
        match filename with
        | Some name =>
            if truthy name && endsWith (JsString.toLowerCase name) ".csv"
            then (true, Some (child_args argv))
            else (isRunning, None)
        | None => (isRunning, None)
        end
  | ChildClosed => (false, None)
  | ChildFailed => (false, None)
  end.

(** The flag after a sequence of events, from the start of the watcher. *)
Definition watch_flag (argv : list string) (events : list watch_event) : bool :=
  fold_left (fun b e => fst (on_watch_event argv b e)) events false.

(** The event [e], coming after [earlier], spawns a conversion. *)
Definition spawns (argv : list string) (earlier : list watch_event)
    (e : watch_event) : Prop :=
  snd (on_watch_event argv (watch_flag argv earlier) e) <> None.

Definition is_end_of_child (e : watch_event) : Prop :=
  e = ChildClosed \/ e = ChildFailed.

(** The same file, had PapaParse reported no error for it. *)
Definition without_errors (f : csv_file) : csv_file :=
  {| csvFile := csvFile f;
     relativePath := relativePath f;
     content :=
       match content f with
       | Throws => Throws
       | Parsed p =>
           Parsed {| errors := []; fields := fields p; data := data p |}
       end |}.

(* ================================================================== *)
(** * Properties *)

(** ** Splitting and joining *)

Lemma split_not_nil (sep : ascii) (s : string) : JsString.split sep s <> [].
Proof.
  destruct s as [|c s]; simpl; [discriminate|].
  destruct (Ascii.eqb c sep); [discriminate|].
  destruct (JsString.split sep s); discriminate.
Qed.

Lemma join_cons_cons (sep x y : string) (l : list string) :
  JsString.join sep (x :: y :: l) = (x ++ sep ++ JsString.join sep (y :: l))%string.
Proof. reflexivity. Qed.

(** Splitting at [c] and joining with [d] replaces each [c] by [d]. *)
Lemma join_split_replace (c d : ascii) (s : string) :
  JsString.join (String d EmptyString) (JsString.split c s)
  = JsString.replace_all c d s.
Proof.
  induction s as [|a s IH]; [reflexivity|].
  simpl. destruct (Ascii.eqb a c) eqn:E.
  - pose proof (split_not_nil c s) as Hn.
    destruct (JsString.split c s) as [|p ps] eqn:Es; [contradiction|].
    rewrite join_cons_cons, IH. reflexivity.
  - pose proof (split_not_nil c s) as Hn.
    destruct (JsString.split c s) as [|p ps] eqn:Es; [contradiction|].
    rewrite <- IH. destruct ps as [|p' ps]; reflexivity.
Qed.

Lemma replace_all_same (c : ascii) (s : string) : JsString.replace_all c c s = s.
Proof.
  induction s as [|a s IH]; [reflexivity|].
  simpl. rewrite IH. destruct (Ascii.eqb a c) eqn:E; [|reflexivity].
  apply Ascii.eqb_eq in E. now subst.
Qed.

Lemma join_split (c : ascii) (s : string) :
  JsString.join (String c EmptyString) (JsString.split c s) = s.
Proof. rewrite join_split_replace. apply replace_all_same. Qed.

(** ** Reading and writing properties *)

Section ObjFacts.
Context {V : Type}.
Implicit Types (o : JsObj.obj V) (k : string) (v : V).

Lemma get_set_same k v o : JsObj.get k (JsObj.set k v o) = Some v.
Proof.
  induction o as [|[k' v'] o IH]; simpl.
  - now rewrite String.eqb_refl.
  - destruct (String.eqb k k') eqn:E; simpl.
    + now rewrite String.eqb_refl.
    + now rewrite E.
Qed.

Lemma get_set_other k k' v o :
  k <> k' -> JsObj.get k (JsObj.set k' v o) = JsObj.get k o.
Proof.
  intros Hne. induction o as [|[k0 v0] o IH]; simpl.
  - apply String.eqb_neq in Hne. now rewrite Hne.
  - destruct (String.eqb k' k0) eqn:E; simpl.
    + apply String.eqb_eq in E. subst k0.
      apply String.eqb_neq in Hne. now rewrite Hne.
    + destruct (String.eqb k k0); [reflexivity|exact IH].
Qed.

Lemma set_absent k v o : JsObj.get k o = None -> JsObj.set k v o = o ++ [(k, v)].
Proof.
  induction o as [|[k' v'] o IH]; simpl; [reflexivity|].
  destruct (String.eqb k k'); [discriminate|].
  intros H. now rewrite IH.
Qed.

Lemma set_present k v v0 o :
  JsObj.get k o = Some v0 ->
  exists l1 l2, o = l1 ++ (k, v0) :: l2
                /\ JsObj.set k v o = l1 ++ (k, v) :: l2.
Proof.
  induction o as [|[k' v'] o IH]; simpl; [discriminate|].
  destruct (String.eqb k k') eqn:E.
  - intros H. injection H as ->. apply String.eqb_eq in E. subst k'.
    now exists [], o.
  - intros H. destruct (IH H) as (l1 & l2 & -> & ->).
    now exists ((k', v') :: l1), l2.
Qed.

Lemma set_get_id k v o : JsObj.get k o = Some v -> JsObj.set k v o = o.
Proof.
  intros H. destruct (set_present k v v o H) as (l1 & l2 & Ho & Hs).
  now rewrite Hs.
Qed.

Lemma get_in k v o : JsObj.get k o = Some v -> In (k, v) o.
Proof.
  induction o as [|[k' v'] o IH]; simpl; [discriminate|].
  destruct (String.eqb k k') eqn:E.
  - intros H. injection H as ->. apply String.eqb_eq in E. subst. now left.
  - intros H. right. now apply IH.
Qed.

Lemma get_none_iff k o : JsObj.get k o = None <-> ~ In k (map fst o).
Proof.
  induction o as [|[k' v'] o IH]; simpl.
  - split; [tauto|reflexivity].
  - destruct (String.eqb k k') eqn:E.
    + apply String.eqb_eq in E. subst. split; [discriminate|]. intros H. exfalso. apply H. now left.
    + apply String.eqb_neq in E. rewrite IH. split.
      * intros H [Hk|Hk]; [now apply E|now apply H].
      * intros H Hk. apply H. now right.
Qed.

Lemma in_get_nodup k v o : NoDup (map fst o) -> In (k, v) o -> JsObj.get k o = Some v.
Proof.
  induction o as [|[k' v'] o IH]; simpl; [tauto|].
  intros Hnd [Hin|Hin].
  - injection Hin as -> ->. now rewrite String.eqb_refl.
  - inversion Hnd as [|? ? Hnotin Hnd']; subst.
    destruct (String.eqb k k') eqn:E.
    + apply String.eqb_eq in E. subst k'. exfalso. apply Hnotin.
      apply (in_map fst) in Hin. exact Hin.
    + now apply IH.
Qed.

Lemma keys_set k v o :
  forall k', In k' (map fst (JsObj.set k v o)) <-> k' = k \/ In k' (map fst o).
Proof.
  intros k'. induction o as [|[k0 v0] o IH]; simpl.
  - intuition congruence.
  - destruct (String.eqb k k0) eqn:E; simpl.
    + apply String.eqb_eq in E. subst k0. intuition congruence.
    + rewrite IH. intuition congruence.
Qed.

Lemma nodup_set k v o : NoDup (map fst o) -> NoDup (map fst (JsObj.set k v o)).
Proof.
  induction o as [|[k0 v0] o IH]; simpl; intros Hnd.
  - constructor; [intros []|constructor].
  - inversion Hnd as [|? ? Hnotin Hnd']; subst.
    destruct (String.eqb k k0) eqn:E; simpl.
    + apply String.eqb_eq in E. subst k0. now constructor.
    + constructor; [|now apply IH].
      rewrite keys_set. intros [H|H]; [|now apply Hnotin].
      subst k0. now rewrite String.eqb_refl in E.
Qed.

Lemma insert_by_index_perm (e : string * V) (l : JsObj.obj V) :
  Permutation (JsObj.insert_by_index e l) (e :: l).
Proof.
  induction l as [|e' l IH]; simpl; [reflexivity|].
  destruct (N.leb _ _); [reflexivity|].
  rewrite IH. apply perm_swap.
Qed.

Lemma sort_by_index_perm (l : JsObj.obj V) : Permutation (JsObj.sort_by_index l) l.
Proof.
  induction l as [|e l IH]; simpl; [reflexivity|].
  rewrite insert_by_index_perm. now constructor.
Qed.

Lemma filter_split_perm (f : string * V -> bool) (l : JsObj.obj V) :
  Permutation (filter f l ++ filter (fun e => negb (f e)) l) l.
Proof.
  induction l as [|e l IH]; simpl; [reflexivity|].
  destruct (f e); simpl.
  - now constructor.
  - rewrite <- Permutation_middle. now constructor.
Qed.

(** Enumeration visits every own property once. *)
Lemma own_entries_perm o : Permutation (JsObj.own_entries o) o.
Proof.
  unfold JsObj.own_entries.
  rewrite sort_by_index_perm. apply filter_split_perm.
Qed.

Lemma keys_perm o : Permutation (JsObj.keys o) (map fst o).
Proof. unfold JsObj.keys. apply Permutation_map, own_entries_perm. Qed.

Lemma get_perm k o o' :
  NoDup (map fst o) -> Permutation o o' -> JsObj.get k o = JsObj.get k o'.
Proof.
  intros Hnd Hp.
  assert (Hnd' : NoDup (map fst o')).
  { eapply Permutation_NoDup; [|exact Hnd]. now apply Permutation_map. }
  destruct (JsObj.get k o') as [v|] eqn:E.
  - apply in_get_nodup; [exact Hnd|].
    apply get_in in E. eapply Permutation_in; [symmetry; exact Hp|exact E].
  - apply get_none_iff. apply get_none_iff in E. intros H. apply E.
    eapply Permutation_in; [|exact H]. now apply Permutation_map.
Qed.

End ObjFacts.

(** ** The key tree *)

Lemma nest_parts_last key value part (current : tree) :
  nest_parts key value [part] current
  = (assign part (VStr value) current,
     match read current part with
     | FObj _ | FPrototype => [NodeOverwritten part key value]
     | _ => []
     end).
Proof. reflexivity. Qed.

Lemma nest_parts_inner key value part part' rest (current : tree) :
  nest_parts key value (part :: part' :: rest) current
  = match read current part with
    | FStr _ => (current, [ValueBlocksPath part key])
    | FObj o =>
        let (o', ws) := nest_parts key value (part' :: rest) o in
        (JsObj.set part (VObj o') current, ws)
    | FUndefined =>
        let (o', ws) := nest_parts key value (part' :: rest) JsObj.empty in
        (JsObj.set part (VObj o') current, ws)
    | FFunction => (current, [NonObjectBlocksPath part key])
    | FPrototype => (current, [])
    end.
Proof. reflexivity. Qed.

(** An own property is found before anything inherited. *)
Lemma read_own part (current : tree) v :
  JsObj.get part current = Some v ->
  read current part = match v with VStr s => FStr s | VObj o => FObj o end.
Proof. intros G. unfold read. rewrite G. now destruct v. Qed.

Lemma assign_own part value (current : tree) v :
  JsObj.get part current = Some v ->
  assign part value current = JsObj.set part value current.
Proof. intros G. unfold assign. now rewrite G. Qed.

Lemma inherited_name_false part :
  inherited_name part = false ->
  String.eqb part "__proto__" = false /\ builtin_function part = false.
Proof. unfold inherited_name. apply orb_false_elim. Qed.

Lemma read_plain part (current : tree) :
  inherited_name part = false ->
  JsObj.get part current = None ->
  read current part = FUndefined.
Proof.
  intros Hp G. destruct (inherited_name_false _ Hp) as [H1 H2].
  unfold read. now rewrite G, H1, H2.
Qed.

Lemma assign_set part value (current : tree) :
  String.eqb part "__proto__" = false ->
  assign part value current = JsObj.set part value current.
Proof.
  intros Hp. unfold assign. rewrite Hp. now destruct (JsObj.get part current).
Qed.

Lemma tree_at_inner part part' rest (o : tree) :
  tree_at (part :: part' :: rest) o
  = match JsObj.get part o with
    | Some (VObj o') => tree_at (part' :: rest) o'
    | _ => None
    end.
Proof. reflexivity. Qed.

Lemma leaves_cons k c (o : tree) :
  leaves ((k, c) :: o) = map (under k) (leaves_val c) ++ leaves o.
Proof. reflexivity. Qed.

Lemma leaves_app (o1 o2 : tree) : leaves (o1 ++ o2) = leaves o1 ++ leaves o2.
Proof.
  induction o1 as [|[k c] o1 IH]; [reflexivity|].
  rewrite <- app_comm_cons, !leaves_cons, IH. apply app_assoc.
Qed.

Lemma is_prefix_refl p : is_prefix p p = true.
Proof.
  induction p as [|a p IH]; [reflexivity|].
  simpl. now rewrite String.eqb_refl.
Qed.

(** A key that lands on an internal node replaces it and is reported. *)
Lemma nest_parts_on_node key value parts : forall (current : tree) node,
  tree_at parts current = Some (VObj node) ->
  tree_at parts (fst (nest_parts key value parts current)) = Some (VStr value)
  /\ snd (nest_parts key value parts current)
     = [NodeOverwritten (last parts EmptyString) key value].
Proof.
  induction parts as [|part rest IH]; intros current node H; [discriminate|].
  destruct rest as [|part' rest'].
  - simpl in H.
    rewrite nest_parts_last, (read_own _ _ _ H), (assign_own _ _ _ _ H).
    simpl. split; [|reflexivity].
    apply get_set_same.
  - rewrite tree_at_inner in H. rewrite nest_parts_inner.
    destruct (JsObj.get part current) as [[s|o]|] eqn:G; try discriminate.
    rewrite (read_own _ _ _ G).
    destruct (IH o node H) as [Hat Hws].
    destruct (nest_parts key value (part' :: rest') o) as [o' ws]. simpl in *.
    split; [|exact Hws].
    rewrite get_set_same. exact Hat.
Qed.

(** A key that has to pass through a string is dropped and reported; the
    tree stays as it was. *)
Lemma nest_parts_blocked key value pre : forall part rest (current : tree) s,
  rest <> [] ->
  tree_at (pre ++ [part]) current = Some (VStr s) ->
  nest_parts key value (pre ++ part :: rest) current
  = (current, [ValueBlocksPath part key]).
Proof.
  induction pre as [|a pre IH]; intros part rest current s Hrest H.
  - destruct rest as [|part' rest']; [contradiction|].
    simpl in H. simpl app. rewrite nest_parts_inner, (read_own _ _ _ H).
    reflexivity.
  - assert (Hs : exists b l, pre ++ [part] = b :: l).
    { destruct pre; simpl; eauto. }
    assert (Hr : exists b l, pre ++ part :: rest = b :: l).
    { destruct pre; simpl; eauto. }
    destruct Hs as (b & l & Hs). destruct Hr as (b' & l' & Hr).
    rewrite <- app_comm_cons in H |- *. rewrite Hs in H. rewrite Hr.
    rewrite tree_at_inner in H. rewrite nest_parts_inner.
    destruct (JsObj.get a current) as [[s0|o]|] eqn:G; try discriminate.
    rewrite (read_own _ _ _ G).
    rewrite <- Hs in H. rewrite <- Hr.
    rewrite (IH part rest o s Hrest H).
    now rewrite (set_get_id _ _ _ G).
Qed.

(** Inserting a path that is apart from every leaf adds one leaf and keeps
    the others. *)
Lemma leaves_nest_parts key value parts : forall current : tree,
  parts <> [] ->
  plain_parts parts = true ->
  (forall q w, In (q, w) (leaves current) -> apart q parts) ->
  Permutation (leaves (fst (nest_parts key value parts current)))
              (leaves current ++ [(parts, value)]).
Proof.
  induction parts as [|part rest IH]; intros current Hne Hpl Hap;
    [contradiction|].
  cbn [plain_parts forallb] in Hpl. apply andb_prop in Hpl.
  destruct Hpl as [Hpart Hpl]. apply negb_true_iff in Hpart.
  fold (plain_parts rest) in Hpl.
  destruct rest as [|part' rest'].
  - rewrite nest_parts_last. cbn [fst].
    rewrite (assign_set _ _ _ (proj1 (inherited_name_false _ Hpart))).
    destruct (JsObj.get part current) as [[s|o]|] eqn:G.
    + exfalso.
      destruct (set_present part (VStr value) _ _ G) as (l1 & l2 & Hc & _).
      destruct (Hap [part] s) as [H _].
      * rewrite Hc, leaves_app, leaves_cons. apply in_or_app. right. now left.
      * simpl in H. rewrite String.eqb_refl in H. discriminate.
    + destruct (set_present part (VStr value) _ _ G) as (l1 & l2 & Hc & Hs).
      rewrite Hs. rewrite Hc in Hap |- *. rewrite !leaves_app, !leaves_cons.
      assert (He : leaves_val (VObj o) = []).
      { destruct (leaves_val (VObj o)) as [|[q w] l] eqn:E; [reflexivity|].
        exfalso. destruct (Hap (part :: q) w) as [_ H].
        - rewrite leaves_app, leaves_cons, E. apply in_or_app. right. now left.
        - simpl in H. rewrite String.eqb_refl in H. discriminate. }
      rewrite He. cbn [map app leaves_val under fst snd].
      rewrite <- app_assoc. apply Permutation_app_head.
      apply Permutation_cons_append.
    + rewrite (set_absent _ _ _ G), leaves_app. reflexivity.
  - rewrite nest_parts_inner.
    destruct (JsObj.get part current) as [[s|o]|] eqn:G;
      [rewrite (read_own _ _ _ G)|rewrite (read_own _ _ _ G)
      |rewrite (read_plain _ _ Hpart G)].
    + exfalso.
      destruct (set_present part (VStr value) _ _ G) as (l1 & l2 & Hc & _).
      destruct (Hap [part] s) as [H _].
      * rewrite Hc, leaves_app, leaves_cons. apply in_or_app. right. now left.
      * simpl in H. rewrite String.eqb_refl in H. discriminate.
    + assert (Hsub : forall q w, In (q, w) (leaves o) -> apart q (part' :: rest')).
      { intros q w Hin.
        destruct (in_split _ _ (get_in _ _ _ G)) as (l1 & l2 & Hc).
        destruct (Hap (part :: q) w) as [H1 H2].
        - rewrite Hc, leaves_app, leaves_cons. apply in_or_app. right.
          apply in_or_app. left. apply (in_map (under part)) in Hin. exact Hin.
        - simpl in H1, H2. rewrite String.eqb_refl in H1, H2. now split. }
      specialize (IH o ltac:(discriminate) Hpl Hsub).
      destruct (nest_parts key value (part' :: rest') o) as [o' ws].
      cbn [fst] in *.
      destruct (set_present part (VObj o') _ _ G) as (l1 & l2 & Hc & Hs).
      rewrite Hs, Hc, !leaves_app, !leaves_cons.
      change (leaves_val (VObj o')) with (leaves o').
      change (leaves_val (VObj o)) with (leaves o).
      rewrite IH, map_app. cbn [map under fst snd].
      rewrite <- !app_assoc. apply Permutation_app_head.
      apply Permutation_app_head. cbn [app]. apply Permutation_cons_append.
    + specialize (IH JsObj.empty ltac:(discriminate) Hpl
                     ltac:(intros q w []) ).
      destruct (nest_parts key value (part' :: rest') JsObj.empty) as [o' ws].
      cbn [fst] in *.
      rewrite (set_absent _ _ _ G), leaves_app, leaves_cons.
      change (leaves_val (VObj o')) with (leaves o').
      rewrite IH. reflexivity.
Qed.

Lemma fst_nest_key (acc : tree * list diag) (e : string * string) :
  fst (nest_key acc e)
  = fst (nest_parts (fst e) (snd e) (key_path (fst e)) (fst acc)).
Proof.
  unfold nest_key, key_path.
  now destruct (nest_parts (fst e) (snd e) (JsString.split "." (fst e)) (fst acc)).
Qed.

Lemma snd_nest_key (acc : tree * list diag) (e : string * string) :
  snd (nest_key acc e)
  = snd acc ++ snd (nest_parts (fst e) (snd e) (key_path (fst e)) (fst acc)).
Proof.
  unfold nest_key, key_path.
  now destruct (nest_parts (fst e) (snd e) (JsString.split "." (fst e)) (fst acc)).
Qed.

(** Keys whose paths are pairwise apart all become leaves, whatever the
    order in which the loop meets them. *)
Lemma leaves_fold_nest_key (es : list (string * string)) :
  forall acc : tree * list diag,
  (forall e, In e es -> plain_key (fst e) = true) ->
  NoDup (map fst es) ->
  (forall k1 k2, In k1 (map fst es) -> In k2 (map fst es) -> k1 <> k2 ->
                 is_prefix (key_path k1) (key_path k2) = false) ->
  (forall e q w, In e es -> In (q, w) (leaves (fst acc)) ->
                 apart q (key_path (fst e))) ->
  Permutation (leaves (fst (fold_left nest_key es acc)))
              (leaves (fst acc) ++ map (fun e => (key_path (fst e), snd e)) es).
Proof.
  induction es as [|e es IH]; intros acc Hpl Hnd Hpre Hacc.
  - simpl. now rewrite app_nil_r.
  - cbn [fold_left].
    assert (Hstep : Permutation (leaves (fst (nest_key acc e)))
                      (leaves (fst acc) ++ [(key_path (fst e), snd e)])).
    { rewrite fst_nest_key. apply leaves_nest_parts.
      - apply split_not_nil.
      - apply Hpl. now left.
      - intros q w Hin. apply (Hacc e q w); [now left|exact Hin]. }
    inversion Hnd as [|? ? Hnotin Hnd']; subst.
    rewrite IH.
    + rewrite Hstep, <- app_assoc. reflexivity.
    + intros e' He'. apply Hpl. now right.
    + exact Hnd'.
    + intros k1 k2 H1 H2. apply Hpre; now right.
    + intros e' q w He' Hin.
      apply (Permutation_in _ Hstep) in Hin.
      apply in_app_or in Hin. destruct Hin as [Hin|[Hin|[]]].
      * apply (Hacc e' q w); [now right|exact Hin].
      * injection Hin as <- _.
        assert (Hne : fst e <> fst e').
        { intros Heq. apply Hnotin. rewrite Heq. now apply in_map. }
        split; apply Hpre; simpl; auto using in_map.
Qed.

(** C5.  Prefix collisions in [nestObject], for the turn of the loop that
    handles [key] in the tree [t] built so far: when the path of [key] ends
    on an internal node, that node is replaced by the string value of [key]
    and one warning is logged; when the path has to go through a property
    that already holds a string, the key is given up with one warning and
    the tree, the earlier string included, is left as it was. *)
Theorem nestObject_prefix_collisions (t : tree) (ws : list diag)
    (key value : string) :
  (forall node,
      tree_at (key_path key) t = Some (VObj node) ->
      tree_at (key_path key) (fst (nest_key (t, ws) (key, value)))
      = Some (VStr value)
      /\ snd (nest_key (t, ws) (key, value))
         = ws ++ [NodeOverwritten (last (key_path key) EmptyString) key value])
  /\ (forall pre part rest s,
         key_path key = pre ++ part :: rest ->
         rest <> [] ->
         tree_at (pre ++ [part]) t = Some (VStr s) ->
         nest_key (t, ws) (key, value) = (t, ws ++ [ValueBlocksPath part key])).
Proof.
  split.
  - intros node H. rewrite fst_nest_key, snd_nest_key. cbn [fst snd].
    destruct (nest_parts_on_node key value _ _ _ H) as [Hat Hws].
    now rewrite Hat, Hws.
  - intros pre part rest s Hp Hrest H.
    unfold nest_key. cbn [fst snd]. fold (key_path key). rewrite Hp.
    now rewrite (nest_parts_blocked key value pre part rest t s Hrest H).
Qed.

Lemma nestObject_prefix_collisions_witness :
  (tree_at ["a"; "b"]
     (fst (nest_key ([("a", VObj [("b", VObj [("c", VStr "1")])])], [])
             ("a.b", "2")))
   = Some (VStr "2")
   /\ snd (nest_key ([("a", VObj [("b", VObj [("c", VStr "1")])])], [])
             ("a.b", "2"))
      = [NodeOverwritten "b" "a.b" "2"])
  /\ nest_key ([("a", VObj [("b", VStr "1")])], []) ("a.b.c", "2")
     = ([("a", VObj [("b", VStr "1")])], [ValueBlocksPath "b" "a.b.c"])
  /\ nestObject [("a.b.c", "1"); ("a.b", "2")]
     = ([("a", VObj [("b", VStr "2")])], [NodeOverwritten "b" "a.b" "2"])
  /\ nestObject [("a.b", "1"); ("a.b.c", "2")]
     = ([("a", VObj [("b", VStr "1")])], [ValueBlocksPath "b" "a.b.c"]).
Proof.
  split; [|split; [|split; reflexivity]].
  - exact (proj1 (nestObject_prefix_collisions
                    [("a", VObj [("b", VObj [("c", VStr "1")])])] []
                    "a.b" "2")
                 [("c", VStr "1")] eq_refl).
  - refine (proj2 (nestObject_prefix_collisions
                     [("a", VObj [("b", VStr "1")])] [] "a.b.c" "2")
                  ["a"] "b" ["c"] "1" eq_refl _ eq_refl).
    discriminate.
Defined.

(** For a flat table whose keys have no inherited name among their parts
    and are pairwise such that the path of one is not an initial part of the
    path of another, flattening the tree that [nestObject] builds, with the
    levels joined by a dot, gives back the entries of the table. *)
Lemma flatten_nest_plain (flatObject : JsObj.obj string) :
  (forall k, In k (map fst flatObject) -> plain_key k = true) ->
  NoDup (map fst flatObject) ->
  (forall k1 k2,
      In k1 (map fst flatObject) -> In k2 (map fst flatObject) -> k1 <> k2 ->
      is_prefix (key_path k1) (key_path k2) = false) ->
  Permutation (flattenObject (fst (nestObject flatObject))) flatObject
  /\ forall k, JsObj.get k (flattenObject (fst (nestObject flatObject)))
               = JsObj.get k flatObject.
Proof.
  intros Hpl Hnd Hpre.
  assert (Hp : Permutation (flattenObject (fst (nestObject flatObject)))
                 flatObject).
  { unfold flattenObject, nestObject.
    pose proof (own_entries_perm flatObject) as Hown.
    assert (Hk : Permutation (map fst (JsObj.own_entries flatObject))
                   (map fst flatObject)) by now apply Permutation_map.
    rewrite leaves_fold_nest_key.
    - change (leaves (fst (JsObj.empty, @nil diag))) with (@nil (list string * string)).
      cbn [app]. rewrite map_map. cbn [fst snd].
      rewrite <- Hown at 2.
      rewrite <- (map_id (JsObj.own_entries flatObject)) at 2.
      apply Permutation_refl'. apply map_ext. intros [k v]. cbn [fst snd].
      unfold key_path. now rewrite join_split.
    - intros e He. apply Hpl. eapply Permutation_in; [exact Hk|].
      now apply in_map.
    - eapply Permutation_NoDup; [symmetry; exact Hk|exact Hnd].
    - intros k1 k2 H1 H2. apply Hpre; eapply Permutation_in; eauto.
    - intros e q w _ []. }
  split; [exact Hp|].
  intros k. symmetry. apply get_perm; [exact Hnd|now symmetry].
Qed.

(** C6.  The round trip is lost on a key with an inherited name among its
    parts.  The table that holds the single key [a.constructor.x] has no two
    keys of which one is an initial part of the other; at the part
    [constructor] line 187 finds no string, line 194 finds the function
    every object inherits, and line 196 gives the key up with a warning: the
    tree returned is the empty node [a], and flattening it gives no entry.
    A key with [__proto__] before its last part leaves the tree for
    [Object.prototype]. *)
Theorem inherited_part_breaks_the_roundtrip :
  NoDup (map fst [("a.constructor.x", "v")])
  /\ (forall k1 k2,
        In k1 (map fst [("a.constructor.x", "v")]) ->
        In k2 (map fst [("a.constructor.x", "v")]) -> k1 <> k2 ->
        is_prefix (key_path k1) (key_path k2) = false)
  /\ nestObject [("a.constructor.x", "v")]
     = ([("a", VObj [])], [NonObjectBlocksPath "constructor" "a.constructor.x"])
  /\ flattenObject (fst (nestObject [("a.constructor.x", "v")])) = []
  /\ JsObj.get "a.constructor.x"
       (flattenObject (fst (nestObject [("a.constructor.x", "v")]))) = None
  /\ enters_prototype (key_path "__proto__.polluted") JsObj.empty = true.
Proof.
  split; [repeat constructor; simpl; tauto|].
  split; [|repeat split; reflexivity].
  intros k1 k2 [<-|[]] [<-|[]] Hne. now elim Hne.
Qed.

(** ** The aggregator, seen from one (language, key) pair *)

Lemma get_lang_table lang k (t : JsObj.obj (JsObj.obj string)) :
  JsObj.get k (lang_table lang t)
  = match JsObj.get lang t with Some o => JsObj.get k o | None => None end.
Proof. unfold lang_table. now destruct (JsObj.get lang t). Qed.

Lemma translation_written (t : JsObj.obj (JsObj.obj string))
    lang fk value lang' k' :
  match JsObj.get lang'
          (JsObj.set lang (JsObj.set fk value (lang_table lang t)) t) with
  | Some o => JsObj.get k' o
  | None => None
  end
  = if String.eqb fk k' && String.eqb lang lang' then Some value
    else match JsObj.get lang' t with
         | Some o => JsObj.get k' o
         | None => None
         end.
Proof.
  destruct (String.eqb lang lang') eqn:El.
  - apply String.eqb_eq in El. subst lang'. rewrite get_set_same.
    destruct (String.eqb fk k') eqn:Ek; cbn [andb].
    + apply String.eqb_eq in Ek. subst k'. apply get_set_same.
    + apply String.eqb_neq in Ek.
      rewrite get_set_other by congruence. apply get_lang_table.
  - rewrite andb_false_r. apply String.eqb_neq in El.
    now rewrite get_set_other by congruence.
Qed.

Lemma duplicates_app lang k ds ds' :
  duplicates lang k (ds ++ ds') = duplicates lang k ds ++ duplicates lang k ds'.
Proof. apply filter_app. Qed.

Lemma view_warn_other lang k ds st :
  duplicates lang k ds = [] -> view lang k (warn ds st) = view lang k st.
Proof.
  intros H. unfold view, warn, translation. cbn [translationsByLang log].
  now rewrite duplicates_app, H, app_nil_r.
Qed.

Lemma view_write_cell lang k file n fk r st c :
  view lang k (write_cell file n fk r st c)
  = if String.eqb fk k && String.eqb c lang
    then match cell_value r lang with
         | Some v => redefine lang k file (view lang k st) (n, v)
         | None => view lang k st
         end
    else view lang k st.
Proof.
  unfold write_cell, cell_value.
  destruct (String.eqb fk k && String.eqb c lang) eqn:Ec.
  - apply andb_true_iff in Ec. destruct Ec as [Ek El].
    apply String.eqb_eq in Ek, El. subst fk c.
    destruct (JsObj.get lang r) as [[|value]|]; try reflexivity.
    destruct (String.eqb value EmptyString); [reflexivity|].
    unfold view, redefine, translation.
    cbn [translationsByLang log fst snd].
    rewrite translation_written, !String.eqb_refl. cbn [andb].
    rewrite duplicates_app, get_lang_table. f_equal. f_equal.
    destruct (match JsObj.get lang (translationsByLang st) with
              | Some o => JsObj.get k o
              | None => None
              end) as [old|]; [|reflexivity].
    destruct (truthy old); [|reflexivity].
    destruct (String.eqb old value); [reflexivity|].
    unfold duplicates. cbn. now rewrite !String.eqb_refl.
  - destruct (JsObj.get c r) as [[|value]|]; try reflexivity.
    destruct (String.eqb value EmptyString); [reflexivity|].
    unfold view, translation. cbn [translationsByLang log].
    rewrite translation_written, Ec, duplicates_app. f_equal.
    rewrite <- app_nil_r. f_equal.
    destruct (JsObj.get fk _) as [old|]; [|reflexivity].
    destruct (truthy old); [|reflexivity].
    destruct (String.eqb old value); [reflexivity|].
    unfold duplicates. cbn. now rewrite Ec.
Qed.

Lemma view_write_cells lang k file n fk r cols : forall st,
  view lang k (fold_left (write_cell file n fk r) cols st)
  = fold_left (redefine lang k file)
      (if String.eqb fk k
       then flat_map
              (fun c =>
                 if String.eqb c lang
                 then match cell_value r lang with
                      | Some v => [(n, v)]
                      | None => []
                      end
                 else [])
              cols
       else [])
      (view lang k st).
Proof.
  induction cols as [|c cols IH]; intros st.
  - now destruct (String.eqb fk k).
  - cbn [fold_left flat_map]. rewrite IH, view_write_cell.
    destruct (String.eqb fk k); [|reflexivity]. cbn [andb].
    rewrite fold_left_app.
    destruct (String.eqb c lang); [|reflexivity].
    now destruct (cell_value r lang).
Qed.

Lemma view_process_row lang k file base cols i r st :
  view lang k (process_row file base cols i r st)
  = fold_left (redefine lang k file) (row_defines base lang k cols i r)
      (view lang k st).
Proof.
  unfold process_row, row_defines.
  destruct (row_key r) as [key|].
  - rewrite <- view_write_cells. reflexivity.
  - now apply view_warn_other.
Qed.

Lemma view_process_rows lang k file base cols rows : forall i st,
  view lang k (process_rows file base cols i rows st)
  = fold_left (redefine lang k file) (rows_define base lang k cols i rows)
      (view lang k st).
Proof.
  induction rows as [|r rows IH]; intros i st; [reflexivity|].
  cbn [process_rows rows_define].
  now rewrite IH, view_process_row, fold_left_app.
Qed.

Lemma get_init_languages cols : forall (t : JsObj.obj (JsObj.obj string)) lang k,
  match JsObj.get lang (init_languages cols t) with
  | Some o => JsObj.get k o
  | None => None
  end
  = match JsObj.get lang t with Some o => JsObj.get k o | None => None end.
Proof.
  unfold init_languages.
  induction cols as [|c cols IH]; intros t lang k; [reflexivity|].
  cbn [fold_left]. rewrite IH.
  destruct (JsObj.get c t) eqn:G; [reflexivity|].
  destruct (inherited_name c); [reflexivity|].
  destruct (String.eqb lang c) eqn:E.
  - apply String.eqb_eq in E. subst c. now rewrite get_set_same, G.
  - apply String.eqb_neq in E. now rewrite get_set_other.
Qed.

Lemma view_process_file lang k st f :
  view lang k (process_file st f) = replay lang k (view lang k st) f.
Proof.
  unfold process_file, replay, defines.
  destruct (content f) as [|p].
  - now apply view_warn_other.
  - assert (H1 : view lang k
                   match errors p with
                   | [] => st
                   | _ :: _ =>
                       warn (ParseWarnings (csvFile f)
                             :: map ParseWarning (errors p)) st
                   end = view lang k st).
    { destruct (errors p) as [|e es]; [reflexivity|].
      apply view_warn_other. unfold duplicates. cbn [filter is_duplicate_of].
      induction (e :: es) as [|e' es' IHe]; [reflexivity|exact IHe]. }
    destruct (fields p) as [fs|].
    + rewrite view_process_rows. f_equal. rewrite <- H1.
      match goal with
      | |- view _ _ (if ?b then warn ?ds ?s else ?s) = _ =>
          transitivity (view lang k s);
          [destruct b; [now apply view_warn_other|reflexivity]|]
      end.
      unfold view, translation. cbn [translationsByLang log].
      now rewrite get_init_languages.
    + rewrite view_warn_other by reflexivity. exact H1.
Qed.

Lemma view_aggregate lang k files : forall st,
  view lang k (fold_left process_file files st)
  = fold_left (replay lang k) files (view lang k st).
Proof.
  induction files as [|f files IH]; intros st; [reflexivity|].
  cbn [fold_left]. now rewrite IH, view_process_file.
Qed.

Lemma cell_value_some r lang v :
  cell_value r lang = Some v ->
  JsObj.get lang r = Some (CStr v) /\ v <> EmptyString.
Proof.
  unfold cell_value. destruct (JsObj.get lang r) as [[|s]|]; try discriminate.
  destruct (String.eqb s EmptyString) eqn:E; [discriminate|].
  intros H. injection H as ->. apply String.eqb_neq in E. now split.
Qed.

Lemma rows_define_inv base lang k cols rows : forall i n v,
  In (n, v) (rows_define base lang k cols i rows) ->
  exists r key,
    In r rows /\ row_key r = Some key /\ fullKey base key = k
    /\ In lang cols /\ cell_value r lang = Some v.
Proof.
  induction rows as [|r rows IH]; intros i n v Hin; [destruct Hin|].
  cbn [rows_define] in Hin. apply in_app_or in Hin. destruct Hin as [Hin|Hin].
  - unfold row_defines in Hin.
    destruct (row_key r) as [key|] eqn:Hk; [|destruct Hin].
    destruct (String.eqb (fullKey base key) k) eqn:Ek; [|destruct Hin].
    apply String.eqb_eq in Ek. apply in_flat_map in Hin.
    destruct Hin as (c & Hc & Hin).
    destruct (String.eqb c lang) eqn:El; [|destruct Hin].
    apply String.eqb_eq in El. subst c.
    destruct (cell_value r lang) as [v'|] eqn:Hv; [|destruct Hin].
    destruct Hin as [Hin|[]]. injection Hin as _ ->.
    exists r, key. repeat split; auto. now left.
  - destruct (IH _ _ _ Hin) as (r' & key & Hr & H).
    exists r', key. split; [now right|exact H].
Qed.

Lemma defines_has_value files f lang k n v :
  In f files -> In (n, v) (defines f lang k) -> has_value files lang k v.
Proof.
  intros Hf Hin. unfold defines in Hin.
  destruct (content f) as [|p] eqn:Hc; [destruct Hin|].
  destruct (fields p) as [fs|] eqn:Hfs; [|destruct Hin].
  destruct (rows_define_inv _ _ _ _ _ _ _ _ Hin)
    as (r & key & Hr & Hk & Hfk & Hl & Hv).
  destruct (cell_value_some _ _ _ Hv) as [Hg Hne].
  exists f, p, fs, r, key. repeat split; auto.
Qed.

Lemma fst_redefine_fold lang k file ds : forall acc v,
  fst (fold_left (redefine lang k file) ds acc) = Some v ->
  fst acc = Some v \/ exists n, In (n, v) ds.
Proof.
  induction ds as [|[n' v'] ds IH]; intros acc v H; [now left|].
  cbn [fold_left] in H. destruct (IH _ _ H) as [Hacc|[n Hn]].
  - cbn in Hacc. injection Hacc as ->. right. exists n'. now left.
  - right. exists n. now right.
Qed.

Lemma fst_replay_fold lang k files : forall acc v,
  fst (fold_left (replay lang k) files acc) = Some v ->
  fst acc = Some v \/ exists f n, In f files /\ In (n, v) (defines f lang k).
Proof.
  induction files as [|f files IH]; intros acc v H; [now left|].
  cbn [fold_left] in H. destruct (IH _ _ H) as [Hacc|(f' & n & Hf & Hn)].
  - unfold replay in Hacc. destruct (fst_redefine_fold _ _ _ _ _ _ Hacc)
      as [H0|[n Hn]].
    + now left.
    + right. exists f, n. split; [now left|exact Hn].
  - right. exists f', n. split; [now right|exact Hn].
Qed.

(** Whatever the table holds was supplied by a row. *)
Lemma translation_has_value files lang k v :
  translation (aggregate files) lang k = Some v -> has_value files lang k v.
Proof.
  intros H. unfold aggregate in H.
  pose proof (view_aggregate lang k files initial_state) as Hv.
  apply (f_equal fst) in Hv. unfold view at 1 in Hv. cbn [fst] in Hv.
  rewrite H in Hv. symmetry in Hv. destruct (fst_replay_fold _ _ _ _ _ Hv) as [H0|(f & n & Hf & Hn)].
  - discriminate.
  - eapply defines_has_value; eauto.
Qed.


Lemma defines_truthy f lang k n v :
  In (n, v) (defines f lang k) -> truthy v = true.
Proof.
  intros H. destruct (defines_has_value [f] f lang k n v (or_introl eq_refl) H)
    as (_ & _ & _ & _ & _ & _ & _ & _ & _ & _ & _ & _ & _ & Hne).
  unfold truthy. apply String.eqb_neq in Hne. now rewrite Hne.
Qed.

(** What the emitters add to the log: warnings of [nestObject], write
    errors and the missing key set.  A kind of message that is none of these
    is found in the log of a run as often as the aggregator left it there. *)
Section EmitterLog.

Variable P : diag -> bool.
Hypothesis P_overwritten : forall part key value,
  P (NodeOverwritten part key value) = false.
Hypothesis P_blocked : forall part key, P (ValueBlocksPath part key) = false.
Hypothesis P_non_object : forall part key,
  P (NonObjectBlocksPath part key) = false.
Hypothesis P_key_file : forall name, P (KeyFileWriteError name) = false.
Hypothesis P_write : forall name, P (WriteError name) = false.
Hypothesis P_no_keys : P NoKeysFound = false.
Hypothesis P_no_language : P NoLanguageData = false.

Lemma filter_nest_parts key value parts : forall current : tree,
  filter P (snd (nest_parts key value parts current)) = [].
Proof.
  induction parts as [|part rest IH]; intros current; [reflexivity|].
  destruct rest as [|part' rest'].
  - rewrite nest_parts_last. cbn [snd].
    destruct (read current part); cbn [filter];
      now rewrite ?P_overwritten.
  - rewrite nest_parts_inner.
    destruct (read current part) as [|s|o| |].
    + specialize (IH JsObj.empty).
      now destruct (nest_parts key value (part' :: rest') JsObj.empty).
    + cbn [snd filter]. now rewrite P_blocked.
    + specialize (IH o).
      now destruct (nest_parts key value (part' :: rest') o).
    + cbn [snd filter]. now rewrite P_non_object.
    + reflexivity.
Qed.

Lemma filter_nest_fold es : forall acc : tree * list diag,
  filter P (snd (fold_left nest_key es acc)) = filter P (snd acc).
Proof.
  induction es as [|e es IH]; intros acc; [reflexivity|].
  cbn [fold_left]. rewrite IH, snd_nest_key, filter_app.
  now rewrite filter_nest_parts, app_nil_r.
Qed.

Lemma filter_nestObject flat : filter P (snd (nestObject flat)) = [].
Proof. unfold nestObject. now rewrite filter_nest_fold. Qed.

Lemma filter_write_file writable err name body acc :
  P (err name) = false ->
  filter P (snd (write_file writable err name body acc)) = filter P (snd acc).
Proof.
  intros He. unfold write_file. destruct (writable name); [reflexivity|].
  cbn [snd]. rewrite filter_app. cbn [filter]. rewrite He. apply app_nil_r.
Qed.

Lemma filter_typescript_fold writable t languages : forall acc,
  filter P
    (snd (fold_left
            (fun acc lang =>
               write_file writable WriteError (lang ++ ".ts")
                 (TsModule (sortedLangData (lang_table lang t))) acc)
            languages acc))
  = filter P (snd acc).
Proof.
  induction languages as [|l languages IH]; intros acc; [reflexivity|].
  cbn [fold_left]. rewrite IH. apply filter_write_file, P_write.
Qed.

Lemma filter_i18next_fold writable t languages : forall acc,
  filter P
    (snd (fold_left
            (fun acc lang =>
               let (nested, ws) := nestObject (lang_table lang t) in
               write_file writable WriteError (lang ++ ".json")
                 (JsonDocument nested) (fst acc, snd acc ++ ws))
            languages acc))
  = filter P (snd acc).
Proof.
  induction languages as [|l languages IH]; intros acc; [reflexivity|].
  cbn [fold_left]. rewrite IH.
  pose proof (filter_nestObject (lang_table l t)) as H.
  destruct (nestObject (lang_table l t)) as [nested ws]. cbn [snd] in H.
  rewrite filter_write_file by apply P_write.
  cbn [snd]. now rewrite filter_app, H, app_nil_r.
Qed.

Lemma filter_run writable fmt files :
  files <> [] ->
  filter P (snd (convertCsvToTs writable fmt files))
  = filter P (log (aggregate files)).
Proof.
  intros Hne. unfold convertCsvToTs.
  destruct files as [|f files']; [contradiction|].
  set (st := aggregate (f :: files')).
  destruct (languages_of (translationsByLang st)) as [|l ls].
  - cbn [snd]. rewrite filter_app. cbn [filter].
    now rewrite P_no_language, app_nil_r.
  - destruct fmt.
    + pose proof (fun acc =>
                    filter_typescript_fold writable (translationsByLang st)
                      (l :: ls) acc) as H.
      unfold generateTypeScriptFiles.
      match goal with
      | |- context [fold_left ?f (l :: ls) ?acc] =>
          specialize (H acc); destruct (fold_left f (l :: ls) acc)
            as [files ws] eqn:E
      end.
      cbn [snd] in *. rewrite filter_app, H.
      destruct (allKeys st).
      * cbn [snd filter]. now rewrite P_no_keys, app_nil_r.
      * rewrite filter_write_file by apply P_key_file. apply app_nil_r.
    + pose proof (filter_i18next_fold writable (translationsByLang st)
                    (l :: ls) ([], [])) as H.
      unfold generateI18nextFiles.
      destruct (fold_left _ (l :: ls) ([], [])) as [files ws].
      cbn [snd] in *. now rewrite filter_app, H, app_nil_r.
Qed.

End EmitterLog.

(** The emitters log no duplicate-key warning. *)
Lemma duplicates_run lang k writable fmt files :
  files <> [] ->
  duplicates lang k (snd (convertCsvToTs writable fmt files))
  = duplicates lang k (log (aggregate files)).
Proof. now apply filter_run. Qed.





(** ** The key set *)

Lemma set_add_in k s : In k (set_add k s).
Proof.
  unfold set_add. destruct (existsb (String.eqb k) s) eqn:E.
  - apply existsb_exists in E. destruct E as (x & Hx & Heq).
    apply String.eqb_eq in Heq. now subst.
  - apply in_or_app. right. now left.
Qed.

Lemma set_add_keeps k k' s : In k' s -> In k' (set_add k s).
Proof.
  unfold set_add. destruct (existsb (String.eqb k) s); [easy|].
  intros H. apply in_or_app. now left.
Qed.

Lemma allKeys_write_cells file n fk r cols : forall st,
  allKeys (fold_left (write_cell file n fk r) cols st) = allKeys st.
Proof.
  induction cols as [|c cols IH]; intros st; [reflexivity|].
  cbn [fold_left]. rewrite IH. unfold write_cell.
  destruct (JsObj.get c r) as [[|value]|]; try reflexivity.
  now destruct (String.eqb value EmptyString).
Qed.

Lemma allKeys_process_row file base cols i r st :
  allKeys (process_row file base cols i r st)
  = match row_key r with
    | Some key => set_add (fullKey base key) (allKeys st)
    | None => allKeys st
    end.
Proof.
  unfold process_row. destruct (row_key r); [|reflexivity].
  cbn [allKeys]. now rewrite allKeys_write_cells.
Qed.

Lemma allKeys_process_rows_keeps file base cols rows : forall i st k,
  In k (allKeys st) -> In k (allKeys (process_rows file base cols i rows st)).
Proof.
  induction rows as [|r rows IH]; intros i st k H; [exact H|].
  cbn [process_rows]. apply IH. rewrite allKeys_process_row.
  destruct (row_key r); [now apply set_add_keeps|exact H].
Qed.

Lemma allKeys_process_rows_adds file base cols rows : forall i st r key,
  In r rows -> row_key r = Some key ->
  In (fullKey base key) (allKeys (process_rows file base cols i rows st)).
Proof.
  induction rows as [|r0 rows IH]; intros i st r key Hin Hk; [destruct Hin|].
  cbn [process_rows]. destruct Hin as [->|Hin].
  - apply allKeys_process_rows_keeps. rewrite allKeys_process_row, Hk.
    apply set_add_in.
  - now apply (IH _ _ r key).
Qed.

Lemma allKeys_process_file_keeps st f k :
  In k (allKeys st) -> In k (allKeys (process_file st f)).
Proof.
  intros H. unfold process_file.
  destruct (content f) as [|p]; [exact H|].
  assert (H1 : In k (allKeys
                       match errors p with
                       | [] => st
                       | _ :: _ =>
                           warn (ParseWarnings (csvFile f)
                                 :: map ParseWarning (errors p)) st
                       end)) by now destruct (errors p).
  destruct (fields p) as [fs|]; [|exact H1].
  apply allKeys_process_rows_keeps.
  now destruct (negb (truthy (baseKey (relativePath f))) && _).
Qed.

Lemma allKeys_aggregate_keeps files : forall st k,
  In k (allKeys st) -> In k (allKeys (fold_left process_file files st)).
Proof.
  induction files as [|f files IH]; intros st k H; [exact H|].
  cbn [fold_left]. now apply IH, allKeys_process_file_keeps.
Qed.

(** The key of every surviving row is in the key set. *)
Lemma allKeys_aggregate_adds files f p fs r key :
  In f files -> content f = Parsed p -> fields p = Some fs ->
  In r (data p) -> row_key r = Some key ->
  In (fullKey (baseKey (relativePath f)) key) (allKeys (aggregate files)).
Proof.
  unfold aggregate. generalize initial_state.
  induction files as [|f0 files IH]; intros st Hf Hc Hfs Hr Hk; [destruct Hf|].
  cbn [fold_left]. destruct Hf as [->|Hf]; [|now apply IH].
  apply allKeys_aggregate_keeps. unfold process_file. rewrite Hc, Hfs.
  now apply (allKeys_process_rows_adds _ _ _ _ _ _ r key).
Qed.

Lemma baseKey_is_base_namespace rel : baseKey rel = base_namespace rel.
Proof. unfold baseKey, base_namespace. apply join_split_replace. Qed.

Lemma fullKey_is_qualified_key rel key :
  fullKey (baseKey rel) key = qualified_key rel key.
Proof.
  unfold fullKey, qualified_key. rewrite baseKey_is_base_namespace.
  now destruct (base_namespace rel).
Qed.

(** A pair some row defines has a value in the table at the end. *)
Lemma rows_define_intro base lang k cols rows : forall i r key v,
  In r rows -> row_key r = Some key -> fullKey base key = k ->
  In lang cols -> cell_value r lang = Some v ->
  exists n, In (n, v) (rows_define base lang k cols i rows).
Proof.
  induction rows as [|r0 rows IH]; intros i r key v Hr Hk Hfk Hl Hv;
    [destruct Hr|].
  cbn [rows_define]. destruct Hr as [->|Hr].
  - exists (i + 2). apply in_or_app. left. unfold row_defines.
    rewrite Hk, Hfk, String.eqb_refl. apply in_flat_map.
    exists lang. split; [exact Hl|]. rewrite String.eqb_refl, Hv. now left.
  - destruct (IH (S i) r key v Hr Hk Hfk Hl Hv) as [n Hn].
    exists n. apply in_or_app. now right.
Qed.

Lemma fst_redefine_fold_defined lang k file ds : forall acc,
  fst acc <> None \/ ds <> [] ->
  fst (fold_left (redefine lang k file) ds acc) <> None.
Proof.
  induction ds as [|d ds IH]; intros acc H.
  - destruct H as [H|H]; [exact H|contradiction].
  - cbn [fold_left]. apply IH. left. discriminate.
Qed.

Lemma fst_replay_fold_defined lang k files : forall acc,
  fst acc <> None \/ (exists f, In f files /\ defines f lang k <> []) ->
  fst (fold_left (replay lang k) files acc) <> None.
Proof.
  induction files as [|f files IH]; intros acc H.
  - destruct H as [H|(f & [] & _)]. exact H.
  - cbn [fold_left]. apply IH.
    destruct H as [H|(f' & [->|Hf] & Hd)].
    + left. apply fst_redefine_fold_defined. now left.
    + left. apply fst_redefine_fold_defined. now right.
    + right. now exists f'.
Qed.

Lemma has_value_translation files lang k v :
  has_value files lang k v ->
  exists v', translation (aggregate files) lang k = Some v'.
Proof.
  intros (f & p & fs & r & key & Hf & Hc & Hfs & Hl & Hr & Hk & Hfk & Hg & Hne).
  assert (Hv : cell_value r lang = Some v).
  { unfold cell_value. rewrite Hg. apply String.eqb_neq in Hne. now rewrite Hne. }
  assert (Hd : defines f lang k <> []).
  { unfold defines. rewrite Hc, Hfs.
    destruct (rows_define_intro _ lang k _ _ 0 r key v Hr Hk Hfk Hl Hv) as [n Hn].
    intros E. now rewrite E in Hn. }
  pose proof (view_aggregate lang k files initial_state) as Hview.
  apply (f_equal fst) in Hview. unfold view at 1 in Hview. cbn [fst] in Hview.
  fold (aggregate files) in Hview.
  destruct (translation (aggregate files) lang k) as [v'|] eqn:E; [now exists v'|].
  exfalso. symmetry in Hview. revert Hview.
  apply fst_replay_fold_defined. right. now exists f.
Qed.

(** C2.  The file [auth/login.csv] with a row whose key is [submit] gives
    the key [auth.login.submit]; and for every discovered file and every
    surviving row of it, the key the program builds is the base namespace
    of the file (separators normalised to [/], a trailing [.csv] removed
    whatever its case, each [/] turned into a dot) joined by a dot with the
    key cell of the row, or the key cell alone when the base namespace is
    empty; that key is in the key set, and the table is keyed by it for
    every language column in which the row has a non-empty value. *)
Theorem fully_qualified_key_of_row (csvFiles : list csv_file) (f : csv_file)
    (p : parse_result) (fs : list string) (r : row) (key : string) :
  In f csvFiles -> content f = Parsed p -> fields p = Some fs ->
  In r (data p) -> row_key r = Some key ->
  fullKey (baseKey "auth/login.csv") "submit" = "auth.login.submit"
  /\ fullKey (baseKey (relativePath f)) key
     = qualified_key (relativePath f) key
  /\ In (qualified_key (relativePath f) key) (allKeys (aggregate csvFiles))
  /\ forall lang v,
      In lang (languageColumns fs) ->
      JsObj.get lang r = Some (CStr v) -> v <> EmptyString ->
      exists v',
        translation (aggregate csvFiles) lang
          (qualified_key (relativePath f) key) = Some v'.
Proof.
  intros Hf Hc Hfs Hr Hk.
  split; [reflexivity|]. split; [apply fullKey_is_qualified_key|].
  rewrite <- fullKey_is_qualified_key. split.
  - eapply allKeys_aggregate_adds; eauto.
  - intros lang v Hl Hg Hne. apply (has_value_translation _ _ _ v).
    exists f, p, fs, r, key. repeat split; auto.
Qed.

Lemma fully_qualified_key_of_row_witness :
  allKeys
    (aggregate
       [parsed_file "auth/login.csv" ["key"; "en"]
          [str_row [("key", "submit"); ("en", "Submit")]]])
  = ["auth.login.submit"]
  /\ In (qualified_key "auth/login.csv" "submit")
        (allKeys
           (aggregate
              [parsed_file "auth/login.csv" ["key"; "en"]
                 [str_row [("key", "submit"); ("en", "Submit")]]])).
Proof.
  split; [reflexivity|].
  exact (proj1 (proj2 (proj2
    (fully_qualified_key_of_row
       [parsed_file "auth/login.csv" ["key"; "en"]
          [str_row [("key", "submit"); ("en", "Submit")]]]
       (parsed_file "auth/login.csv" ["key"; "en"]
          [str_row [("key", "submit"); ("en", "Submit")]])
       {| errors := []; fields := Some ["key"; "en"];
          data := [str_row [("key", "submit"); ("en", "Submit")]] |}
       ["key"; "en"]
       (str_row [("key", "submit"); ("en", "Submit")])
       "submit"
       (or_introl eq_refl) eq_refl eq_refl (or_introl eq_refl) eq_refl)))).
Defined.

(** ** Sorting *)

Lemma leb_total s : forall t, JsString.leb s t = true \/ JsString.leb t s = true.
Proof.
  induction s as [|a s IH]; intros t; [now left|].
  destruct t as [|b t]; [now right|]. simpl.
  destruct (N.ltb_spec (JsString.unit_rank a) (JsString.unit_rank b)) as [H|H];
    [now left|].
  destruct (N.ltb_spec (JsString.unit_rank b) (JsString.unit_rank a)) as [H'|H'];
    [now right|].
  apply IH.
Qed.

Lemma insert_sorted_perm x l : Permutation (JsString.insert_sorted x l) (x :: l).
Proof.
  induction l as [|y l IH]; simpl; [reflexivity|].
  destruct (JsString.leb x y); [reflexivity|].
  rewrite IH. apply perm_swap.
Qed.

Lemma sort_perm l : Permutation (JsString.sort l) l.
Proof.
  induction l as [|x l IH]; simpl; [reflexivity|].
  rewrite insert_sorted_perm. now constructor.
Qed.

Lemma insert_sorted_sorted x l :
  Sorted (fun a b => JsString.leb a b = true) l ->
  Sorted (fun a b => JsString.leb a b = true) (JsString.insert_sorted x l).
Proof.
  induction l as [|y l IH]; intros Hs; simpl.
  - repeat constructor.
  - destruct (JsString.leb x y) eqn:E.
    + constructor; [exact Hs|]. now constructor.
    + inversion Hs as [|? ? Hs' Hhd]; subst.
      constructor; [now apply IH|].
      destruct l as [|z l]; simpl.
      * constructor. destruct (leb_total x y) as [H|H]; congruence.
      * destruct (JsString.leb x z).
        -- constructor. destruct (leb_total x y) as [H|H]; congruence.
        -- inversion Hhd; subst. now constructor.
Qed.

Lemma sort_sorted l : Sorted (fun a b => JsString.leb a b = true) (JsString.sort l).
Proof.
  induction l as [|x l IH]; simpl; [constructor|].
  now apply insert_sorted_sorted.
Qed.

(** ** What the emitters write *)

Lemma in_set {V : Type} k (v : V) k' v' (o : JsObj.obj V) :
  In (k, v) (JsObj.set k' v' o) -> (k, v) = (k', v') \/ In (k, v) o.
Proof.
  induction o as [|[k0 v0] o IH]; simpl.
  - intros [H|[]]. left. now symmetry.
  - destruct (String.eqb k' k0); simpl.
    + intros [H|H]; [left; now symmetry|right; now right].
    + intros [H|H]; [right; now left|].
      destruct (IH H) as [H'|H']; [now left|right; now right].
Qed.

Lemma keyObject_fold_get k l : forall o : JsObj.obj string,
  JsObj.get k (fold_left (fun o key => JsObj.set key key o) l o)
  = if in_dec string_dec k l then Some k else JsObj.get k o.
Proof.
  induction l as [|a l IH]; intros o; [reflexivity|].
  cbn [fold_left]. rewrite IH.
  destruct (in_dec string_dec k l) as [Hl|Hl];
    destruct (in_dec string_dec k (a :: l)) as [Hal|Hal];
    try reflexivity.
  - exfalso. apply Hal. now right.
  - destruct Hal as [->|Hal]; [|contradiction]. apply get_set_same.
  - apply get_set_other. intros ->. apply Hal. now left.
Qed.

Lemma keyObject_fold_in k v l : forall o : JsObj.obj string,
  In (k, v) (fold_left (fun o key => JsObj.set key key o) l o) ->
  In (k, v) o \/ (v = k /\ In k l).
Proof.
  induction l as [|a l IH]; intros o H; [now left|].
  cbn [fold_left] in H. destruct (IH _ H) as [H'|[Hv Hl]].
  - destruct (in_set _ _ _ _ _ H') as [E|H'']; [|now left].
    injection E as -> ->. right. split; [reflexivity|now left].
  - right. split; [exact Hv|now right].
Qed.

(** The registry maps each member of the key set to itself. *)
Lemma keyObject_get k keys : In k keys -> JsObj.get k (keyObject keys) = Some k.
Proof.
  intros H. unfold keyObject. rewrite keyObject_fold_get.
  destruct (in_dec string_dec k (JsString.sort keys)) as [_|Hn]; [reflexivity|].
  exfalso. apply Hn. eapply Permutation_in; [symmetry; apply sort_perm|exact H].
Qed.

Lemma keyObject_in k v keys : In (k, v) (keyObject keys) -> v = k /\ In k keys.
Proof.
  intros H. destruct (keyObject_fold_in _ _ _ _ H) as [[]|[Hv Hl]].
  split; [exact Hv|]. eapply Permutation_in; [apply sort_perm|exact Hl].
Qed.

Lemma sortedLangData_fold_in (flat : JsObj.obj string) k v l :
  forall o : JsObj.obj string,
  In (k, v)
     (fold_left
        (fun o key =>
           match JsObj.get key flat with
           | Some v => JsObj.set key v o
           | None => o
           end) l o) ->
  In (k, v) o \/ JsObj.get k flat = Some v.
Proof.
  induction l as [|a l IH]; intros o H; [now left|].
  cbn [fold_left] in H. destruct (IH _ H) as [H'|H']; [|now right].
  destruct (JsObj.get a flat) as [va|] eqn:G; [|now left].
  destruct (in_set _ _ _ _ _ H') as [E|H'']; [|now left].
  injection E as -> ->. now right.
Qed.

(** A language module holds values of the table only. *)
Lemma sortedLangData_in flat k v :
  In (k, v) (sortedLangData flat) -> JsObj.get k flat = Some v.
Proof.
  intros H. now destruct (sortedLangData_fold_in _ _ _ _ _ H) as [[]|H'].
Qed.

(** What the emitters write: of the files handed to [fs.writeFile], those
    on which it succeeds, in the same order. *)
Lemma fst_write_file writable err name body acc :
  fst (write_file writable err name body acc)
  = fst acc ++ filter (fun file : written => writable (fst file)) [(name, body)].
Proof.
  unfold write_file. cbn [filter fst].
  destruct (writable name); [reflexivity|]. cbn [fst]. now rewrite app_nil_r.
Qed.

Lemma typescript_fold_fst writable t languages :
  forall acc : list written * list diag,
  fst (fold_left
         (fun acc lang =>
            write_file writable WriteError (lang ++ ".ts")
              (TsModule (sortedLangData (lang_table lang t))) acc)
         languages acc)
  = fst acc
    ++ filter (fun file : written => writable (fst file))
         (map (fun lang =>
                 ((lang ++ ".ts")%string,
                  TsModule (sortedLangData (lang_table lang t))))
            languages).
Proof.
  induction languages as [|l languages IH]; intros acc.
  - simpl. now rewrite app_nil_r.
  - cbn [fold_left map]. rewrite IH, fst_write_file, <- app_assoc.
    f_equal. cbn [filter fst]. now destruct (writable (l ++ ".ts")%string).
Qed.

Lemma i18next_fold_fst writable t languages :
  forall acc : list written * list diag,
  fst (fold_left
         (fun acc lang =>
            let (nested, ws) := nestObject (lang_table lang t) in
            write_file writable WriteError (lang ++ ".json")
              (JsonDocument nested) (fst acc, snd acc ++ ws))
         languages acc)
  = fst acc
    ++ filter (fun file : written => writable (fst file))
         (map (fun lang =>
                 ((lang ++ ".json")%string,
                  JsonDocument (fst (nestObject (lang_table lang t)))))
            languages).
Proof.
  induction languages as [|l languages IH]; intros acc.
  - simpl. now rewrite app_nil_r.
  - cbn [fold_left map]. rewrite IH.
    destruct (nestObject (lang_table l t)) as [nested ws].
    rewrite fst_write_file, <- app_assoc. cbn [fst].
    f_equal. cbn [filter fst]. now destruct (writable (l ++ ".json")%string).
Qed.

(** The files of a run: nothing without a language, else the registry, if
    any, and one file for each language, each when its write succeeds. *)
Lemma run_outputs writable fmt f files :
  fst (convertCsvToTs writable fmt (f :: files))
  = outputs_of writable fmt (aggregate (f :: files)).
Proof.
  unfold convertCsvToTs, outputs_of, attempts.
  set (st := aggregate (f :: files)).
  destruct (languages_of (translationsByLang st)) as [|l ls]; [reflexivity|].
  rewrite filter_app.
  destruct fmt.
  - unfold generateTypeScriptFiles, registry_file.
    pose proof (fun acc =>
                  typescript_fold_fst writable (translationsByLang st)
                    (l :: ls) acc) as H.
    match goal with
    | |- context [fold_left ?f (l :: ls) ?acc] =>
        specialize (H acc); destruct (fold_left f (l :: ls) acc)
          as [out ws] eqn:E
    end.
    cbn [fst] in *. rewrite H. f_equal.
    destruct (allKeys st); [reflexivity|].
    now rewrite fst_write_file.
  - unfold generateI18nextFiles, registry_file.
    pose proof (i18next_fold_fst writable (translationsByLang st)
                  (l :: ls) ([], [])) as H.
    destruct (fold_left _ (l :: ls) ([], [])) as [out ws].
    cbn [fst] in *. rewrite H. now destruct (allKeys st).
Qed.

(** A failed write is reported. *)
Lemma snd_write_file_keeps writable err name body acc d :
  In d (snd acc) -> In d (snd (write_file writable err name body acc)).
Proof.
  intros H. unfold write_file. destruct (writable name); [exact H|].
  cbn [snd]. apply in_or_app. now left.
Qed.

Lemma snd_write_file_fails writable err name body acc :
  writable name = false ->
  In (err name) (snd (write_file writable err name body acc)).
Proof.
  intros H. unfold write_file. rewrite H. cbn [snd].
  apply in_or_app. right. now left.
Qed.

Lemma typescript_fold_errors writable t languages :
  forall (acc : list written * list diag) d,
  In d (snd acc)
  \/ (exists lang, In lang languages /\ writable (lang ++ ".ts")%string = false
                    /\ d = WriteError (lang ++ ".ts")) ->
  In d (snd (fold_left
               (fun acc lang =>
                  write_file writable WriteError (lang ++ ".ts")
                    (TsModule (sortedLangData (lang_table lang t))) acc)
               languages acc)).
Proof.
  induction languages as [|l languages IH]; intros acc d H.
  - destruct H as [H|(lang & [] & _)]. exact H.
  - cbn [fold_left]. apply IH.
    destruct H as [H|(lang & [<-|Hl] & Hw & ->)].
    + left. now apply snd_write_file_keeps.
    + left. now apply snd_write_file_fails.
    + right. now exists lang.
Qed.

Lemma i18next_fold_errors writable t languages :
  forall (acc : list written * list diag) d,
  In d (snd acc)
  \/ (exists lang, In lang languages /\ writable (lang ++ ".json")%string = false
                    /\ d = WriteError (lang ++ ".json")) ->
  In d (snd (fold_left
               (fun acc lang =>
                  let (nested, ws) := nestObject (lang_table lang t) in
                  write_file writable WriteError (lang ++ ".json")
                    (JsonDocument nested) (fst acc, snd acc ++ ws))
               languages acc)).
Proof.
  induction languages as [|l languages IH]; intros acc d H.
  - destruct H as [H|(lang & [] & _)]. exact H.
  - cbn [fold_left]. apply IH.
    destruct (nestObject (lang_table l t)) as [nested ws].
    destruct H as [H|(lang & [<-|Hl] & Hw & ->)].
    + left. apply snd_write_file_keeps. cbn [snd]. apply in_or_app. now left.
    + left. now apply snd_write_file_fails.
    + right. now exists lang.
Qed.

Lemma run_write_errors writable fmt files lang :
  In lang (languages_of (translationsByLang (aggregate files))) ->
  writable (lang ++ extension fmt)%string = false ->
  In (WriteError (lang ++ extension fmt))
     (snd (convertCsvToTs writable fmt files)).
Proof.
  intros Hl Hw. unfold convertCsvToTs.
  destruct files as [|f files].
  { destruct Hl. }
  set (st := aggregate (f :: files)) in *.
  destruct (languages_of (translationsByLang st)) as [|l ls] eqn:E;
    [destruct Hl|].
  destruct fmt; cbn [extension] in *.
  - unfold generateTypeScriptFiles.
    match goal with
    | |- context [fold_left ?f (l :: ls) ?acc] =>
        pose proof (typescript_fold_errors writable (translationsByLang st)
                      (l :: ls) acc (WriteError (lang ++ ".ts"))) as H;
        destruct (fold_left f (l :: ls) acc) as [out ws] eqn:E'
    end.
    cbn [snd] in *. apply in_or_app. right. apply H. right. now exists lang.
  - unfold generateI18nextFiles.
    pose proof (i18next_fold_errors writable (translationsByLang st)
                  (l :: ls) ([], []) (WriteError (lang ++ ".json"))) as H.
    destruct (fold_left _ (l :: ls) ([], [])) as [out ws].
    cbn [snd] in *. apply in_or_app. right. apply H. right. now exists lang.
Qed.

(** ** Invariants of the table *)

Section TableInvariant.

Variable P : JsObj.obj (JsObj.obj string) -> Prop.

Hypothesis P_init : forall t lang,
  JsObj.get lang t = None -> P t -> P (JsObj.set lang JsObj.empty t).

Hypothesis P_write : forall t lang fk value,
  P t -> P (JsObj.set lang (JsObj.set fk value (lang_table lang t)) t).

Lemma inv_init_languages cols : forall t, P t -> P (init_languages cols t).
Proof.
  unfold init_languages.
  induction cols as [|c cols IH]; intros t H; [exact H|].
  cbn [fold_left]. apply IH.
  destruct (JsObj.get c t) eqn:G; [exact H|].
  destruct (inherited_name c); [exact H|now apply P_init].
Qed.

Lemma inv_write_cells file n fk r cols : forall st,
  P (translationsByLang st) ->
  P (translationsByLang (fold_left (write_cell file n fk r) cols st)).
Proof.
  induction cols as [|c cols IH]; intros st H; [exact H|].
  cbn [fold_left]. apply IH. unfold write_cell.
  destruct (JsObj.get c r) as [[|value]|]; try exact H.
  destruct (String.eqb value EmptyString); [exact H|].
  cbn [translationsByLang]. now apply P_write.
Qed.

Lemma inv_process_rows file base cols rows : forall i st,
  P (translationsByLang st) ->
  P (translationsByLang (process_rows file base cols i rows st)).
Proof.
  induction rows as [|r rows IH]; intros i st H; [exact H|].
  cbn [process_rows]. apply IH. unfold process_row.
  destruct (row_key r); [|exact H].
  cbn [translationsByLang]. now apply inv_write_cells.
Qed.

Lemma translationsByLang_after_errors f p st :
  translationsByLang
    match errors p with
    | [] => st
    | _ :: _ =>
        warn (ParseWarnings (csvFile f) :: map ParseWarning (errors p)) st
    end
  = translationsByLang st.
Proof. now destruct (errors p). Qed.

Lemma inv_process_file st f :
  P (translationsByLang st) -> P (translationsByLang (process_file st f)).
Proof.
  intros H. unfold process_file.
  destruct (content f) as [|p]; [exact H|].
  destruct (fields p) as [fs|].
  - apply inv_process_rows.
    match goal with
    | |- P (translationsByLang (if ?b then _ else _)) => destruct b
    end; cbn [warn translationsByLang];
      apply inv_init_languages; now rewrite translationsByLang_after_errors.
  - cbn [warn translationsByLang]. now rewrite translationsByLang_after_errors.
Qed.

Lemma inv_aggregate files : forall st,
  P (translationsByLang st) ->
  P (translationsByLang (fold_left process_file files st)).
Proof.
  induction files as [|f files IH]; intros st H; [exact H|].
  cbn [fold_left]. now apply IH, inv_process_file.
Qed.

End TableInvariant.

(** A language, once in the table, stays. *)
Lemma language_stays lang files st :
  JsObj.get lang (translationsByLang st) <> None ->
  JsObj.get lang (translationsByLang (fold_left process_file files st)) <> None.
Proof.
  apply (inv_aggregate (fun t => JsObj.get lang t <> None)).
  - intros t l G H. destruct (string_dec lang l) as [->|Hne].
    + now rewrite get_set_same.
    + now rewrite get_set_other.
  - intros t l fk value H. destruct (string_dec lang l) as [->|Hne].
    + now rewrite get_set_same.
    + now rewrite get_set_other.
Qed.

(** Lines 102-106 leave every language column of the file that is not an
    inherited name with an object, so [translationsByLang[lang]] is that
    object when the rows are read. *)
Lemma init_languages_defined cols : forall (t : JsObj.obj (JsObj.obj string)) lang,
  inherited_name lang = false ->
  In lang cols \/ JsObj.get lang t <> None ->
  JsObj.get lang (init_languages cols t) <> None.
Proof.
  unfold init_languages.
  induction cols as [|c cols IH]; intros t lang Hn H.
  - destruct H as [[]|H]. exact H.
  - cbn [fold_left]. apply (IH _ _ Hn).
    destruct H as [[->|H]|H]; [right|now left|right].
    + destruct (JsObj.get lang t) eqn:G; [now rewrite G|].
      rewrite Hn. now rewrite get_set_same.
    + destruct (JsObj.get c t) eqn:G; [exact H|].
      destruct (inherited_name c); [exact H|].
      destruct (string_dec lang c) as [->|Hne].
      * now rewrite get_set_same.
      * now rewrite get_set_other.
Qed.

Lemma in_languages_of lang (t : JsObj.obj (JsObj.obj string)) :
  In lang (languages_of t)
  <-> In lang (JsObj.keys t) /\ inherited_name lang = false.
Proof.
  unfold languages_of. rewrite filter_In. now rewrite negb_true_iff.
Qed.

Lemma in_keys_iff {V : Type} k (o : JsObj.obj V) :
  In k (JsObj.keys o) <-> JsObj.get k o <> None.
Proof.
  rewrite get_none_iff. split.
  - intros H Hn. apply Hn. eapply Permutation_in; [apply keys_perm|exact H].
  - intros H. destruct (in_dec string_dec k (map fst o)) as [Hin|Hn].
    + eapply Permutation_in; [symmetry; apply keys_perm|exact Hin].
    + contradiction.
Qed.

(** Every language column of a parsed file that is not an inherited name is
    a language of the run. *)
Lemma language_of_header files f p fs lang :
  In f files -> content f = Parsed p -> fields p = Some fs ->
  In lang (languageColumns fs) ->
  inherited_name lang = false ->
  In lang (languages_of (translationsByLang (aggregate files))).
Proof.
  intros Hf Hc Hfs Hl Hn. apply in_languages_of. split; [|exact Hn].
  apply in_keys_iff. unfold aggregate.
  generalize initial_state.
  induction files as [|f0 files IH]; intros st; [destruct Hf|].
  cbn [fold_left]. destruct Hf as [->|Hf]; [|now apply IH].
  apply language_stays. unfold process_file. rewrite Hc, Hfs.
  apply (inv_process_rows (fun t => JsObj.get lang t <> None)).
  - intros t l fk value H. destruct (string_dec lang l) as [->|Hne].
    + now rewrite get_set_same.
    + now rewrite get_set_other.
  - match goal with
    | |- JsObj.get _ (translationsByLang (if ?b then _ else _)) <> None =>
        destruct b
    end; cbn [warn translationsByLang];
      apply (init_languages_defined _ _ _ Hn); now left.
Qed.

Lemma init_languages_new cols : forall (t : JsObj.obj (JsObj.obj string)) l,
  JsObj.get l (init_languages cols t) <> None ->
  JsObj.get l t <> None \/ In l cols.
Proof.
  unfold init_languages.
  induction cols as [|c cols IH]; intros t l H; [now left|].
  cbn [fold_left] in H. destruct (IH _ _ H) as [H'|H']; [|right; now right].
  destruct (JsObj.get c t) eqn:G; [now left|].
  destruct (inherited_name c); [now left|].
  destruct (string_dec l c) as [->|Hne]; [right; now left|].
  left. now rewrite get_set_other in H'.
Qed.

Lemma write_cells_new file n fk r cols : forall st l,
  JsObj.get l (translationsByLang (fold_left (write_cell file n fk r) cols st))
  <> None ->
  JsObj.get l (translationsByLang st) <> None \/ In l cols.
Proof.
  induction cols as [|c cols IH]; intros st l H; [now left|].
  cbn [fold_left] in H. destruct (IH _ _ H) as [H'|H']; [|right; now right].
  unfold write_cell in H'.
  destruct (JsObj.get c r) as [[|value]|]; try now left.
  destruct (String.eqb value EmptyString); [now left|].
  cbn [translationsByLang] in H'.
  destruct (string_dec l c) as [->|Hne]; [right; now left|].
  left. now rewrite get_set_other in H'.
Qed.

Lemma process_rows_new file base cols rows : forall i st l,
  JsObj.get l (translationsByLang (process_rows file base cols i rows st))
  <> None ->
  JsObj.get l (translationsByLang st) <> None \/ In l cols.
Proof.
  induction rows as [|r rows IH]; intros i st l H; [now left|].
  cbn [process_rows] in H. destruct (IH _ _ _ H) as [H'|H']; [|now right].
  unfold process_row in H'. destruct (row_key r); [|now left].
  cbn [translationsByLang] in H'. now apply write_cells_new in H'.
Qed.

Lemma process_file_new st f l :
  JsObj.get l (translationsByLang (process_file st f)) <> None ->
  JsObj.get l (translationsByLang st) <> None
  \/ exists p fs, content f = Parsed p /\ fields p = Some fs
                  /\ In l (languageColumns fs).
Proof.
  unfold process_file. destruct (content f) as [|p]; [now left|].
  destruct (fields p) as [fs|] eqn:Hfs.
  - intros H. apply process_rows_new in H.
    destruct H as [H|H]; [|right; exists p, fs; repeat split; auto].
    assert (H' : JsObj.get l
                   (init_languages (languageColumns fs) (translationsByLang st))
                 <> None).
    { revert H.
      match goal with
      | |- JsObj.get _ (translationsByLang (if ?b then _ else _)) <> None -> _ =>
          destruct b
      end; cbn [warn translationsByLang];
        now rewrite translationsByLang_after_errors. }
    apply init_languages_new in H'.
    destruct H' as [H'|H']; [now left|right; exists p, fs; repeat split; auto].
  - cbn [warn translationsByLang]. rewrite translationsByLang_after_errors.
    now left.
Qed.

(** Every language of a run is a language column of a parsed file. *)
Lemma language_is_a_column files lang :
  In lang (languages_of (translationsByLang (aggregate files))) ->
  exists f p fs,
    In f files /\ content f = Parsed p /\ fields p = Some fs
    /\ In lang (languageColumns fs).
Proof.
  intros H. apply in_languages_of in H. destruct H as [H _].
  apply in_keys_iff in H. unfold aggregate in H.
  assert (Hgen : forall files st,
             JsObj.get lang (translationsByLang (fold_left process_file files st))
             <> None ->
             JsObj.get lang (translationsByLang st) <> None
             \/ exists f p fs,
                 In f files /\ content f = Parsed p /\ fields p = Some fs
                 /\ In lang (languageColumns fs)).
  { clear. induction files as [|f files IH]; intros st Hst; [now left|].
    cbn [fold_left] in Hst.
    destruct (IH _ Hst) as [H'|(f' & p & fs & Hf & Hc & Hfs & Hl)].
    - destruct (process_file_new _ _ _ H') as [H''|(p & fs & Hc & Hfs & Hl)].
      + now left.
      + right. exists f, p, fs. repeat split; auto. now left.
    - right. exists f', p, fs. repeat split; auto. now right. }
  destruct (Hgen _ _ H) as [H'|H']; [now elim H'|exact H'].
Qed.

(** The objects of the table have no property twice. *)
Lemma table_nodup files lang :
  NoDup (map fst (lang_table lang (translationsByLang (aggregate files)))).
Proof.
  assert (H : forall l o,
             JsObj.get l (translationsByLang (aggregate files)) = Some o ->
             NoDup (map fst o)).
  { unfold aggregate.
    apply (inv_aggregate
             (fun t => forall l o, JsObj.get l t = Some o -> NoDup (map fst o))).
    - intros t l G H l' o. destruct (string_dec l' l) as [->|Hne].
      + rewrite get_set_same. intros E. injection E as <-. constructor.
      + rewrite get_set_other by exact Hne. apply H.
    - intros t l fk value H l' o. destruct (string_dec l' l) as [->|Hne].
      + rewrite get_set_same. intros E. injection E as <-.
        apply nodup_set. unfold lang_table.
        destruct (JsObj.get l t) eqn:G; [now apply (H l)|constructor].
      + rewrite get_set_other by exact Hne. apply H.
    - intros l o G. discriminate. }
  unfold lang_table.
  destruct (JsObj.get lang _) eqn:G; [now apply (H lang)|constructor].
Qed.

(** A file without language columns, or not parsed, leaves the table as it
    is. *)
Lemma process_rows_no_columns file base rows : forall i st,
  translationsByLang (process_rows file base [] i rows st)
  = translationsByLang st.
Proof.
  induction rows as [|r rows IH]; intros i st; [reflexivity|].
  cbn [process_rows]. rewrite IH. unfold process_row.
  now destruct (row_key r).
Qed.

Lemma process_file_no_columns st f :
  (forall p fs, content f = Parsed p -> fields p = Some fs ->
                languageColumns fs = []) ->
  translationsByLang (process_file st f) = translationsByLang st.
Proof.
  intros H. unfold process_file.
  destruct (content f) as [|p]; [reflexivity|].
  destruct (fields p) as [fs|] eqn:Hfs.
  - rewrite (H p fs eq_refl Hfs), process_rows_no_columns.
    match goal with
    | |- translationsByLang (if ?b then _ else _) = _ => destruct b
    end; cbn [warn translationsByLang init_languages fold_left];
      apply translationsByLang_after_errors.
  - cbn [warn translationsByLang]. apply translationsByLang_after_errors.
Qed.

Lemma aggregate_no_columns files : forall st,
  (forall f p fs, In f files -> content f = Parsed p -> fields p = Some fs ->
                  languageColumns fs = []) ->
  translationsByLang (fold_left process_file files st) = translationsByLang st.
Proof.
  induction files as [|f files IH]; intros st H; [reflexivity|].
  cbn [fold_left]. rewrite IH.
  - apply process_file_no_columns. intros p fs. apply H. now left.
  - intros f' p fs Hf. apply H. now right.
Qed.

(** ** Where the leaves of the tree come from *)

Lemma leaves_nest_parts_incl key value parts : forall (current : tree) q w,
  In (q, w) (leaves (fst (nest_parts key value parts current))) ->
  In (q, w) (leaves current) \/ (q, w) = (parts, value).
Proof.
  induction parts as [|part rest IH]; intros current q w H; [now left|].
  destruct rest as [|part' rest'].
  - rewrite nest_parts_last in H. cbn [fst] in H.
    destruct (JsObj.get part current) as [x|] eqn:G.
    + rewrite (assign_own _ _ _ _ G) in H.
      destruct (set_present part (VStr value) _ _ G) as (l1 & l2 & Hc & Hs).
      rewrite Hs, leaves_app, leaves_cons in H. rewrite Hc, leaves_app, leaves_cons.
      apply in_app_or in H. destruct H as [H|H].
      * left. apply in_or_app. now left.
      * apply in_app_or in H. destruct H as [[H|[]]|H].
        -- right. now symmetry.
        -- left. apply in_or_app. right. apply in_or_app. now right.
    + unfold assign in H. rewrite G in H.
      destruct (String.eqb part "__proto__"); [now left|].
      rewrite (set_absent _ _ _ G), leaves_app in H.
      apply in_app_or in H. destruct H as [H|[H|[]]]; [now left|].
      right. now symmetry.
  - rewrite nest_parts_inner in H. unfold read in H.
    destruct (JsObj.get part current) as [[s|o]|] eqn:G;
      [| |destruct (String.eqb part "__proto__"); [now left|];
          destruct (builtin_function part); [now left|]].
    + now left.
    + specialize (IH o).
      destruct (nest_parts key value (part' :: rest') o) as [o' ws].
      cbn [fst] in *.
      destruct (set_present part (VObj o') _ _ G) as (l1 & l2 & Hc & Hs).
      rewrite Hs, leaves_app, leaves_cons in H. rewrite Hc, leaves_app, leaves_cons.
      apply in_app_or in H. destruct H as [H|H].
      * left. apply in_or_app. now left.
      * apply in_app_or in H. destruct H as [H|H].
        -- apply in_map_iff in H. destruct H as ([q' w'] & E & H).
           unfold under in E. cbn [fst snd] in E. injection E as <- <-.
           destruct (IH q' w' H) as [H'|H'].
           ++ left. apply in_or_app. right. apply in_or_app. left.
              apply (in_map (under part)) in H'. exact H'.
           ++ right. now injection H' as -> ->.
        -- left. apply in_or_app. right. apply in_or_app. now right.
    + specialize (IH JsObj.empty).
      destruct (nest_parts key value (part' :: rest') JsObj.empty) as [o' ws].
      cbn [fst] in *.
      rewrite (set_absent _ _ _ G), leaves_app, leaves_cons in H.
      apply in_app_or in H. destruct H as [H|H]; [now left|].
      rewrite app_nil_r in H.
      apply in_map_iff in H. destruct H as ([q' w'] & E & H).
      unfold under in E. cbn [fst snd] in E. injection E as <- <-.
      destruct (IH q' w' H) as [[]|H'].
      right. now injection H' as -> ->.
Qed.

Lemma leaves_nest_fold_incl es : forall (acc : tree * list diag) q w,
  In (q, w) (leaves (fst (fold_left nest_key es acc))) ->
  In (q, w) (leaves (fst acc))
  \/ exists e, In e es /\ (q, w) = (key_path (fst e), snd e).
Proof.
  induction es as [|e es IH]; intros acc q w H; [now left|].
  cbn [fold_left] in H. destruct (IH _ _ _ H) as [H'|(e' & He' & E)].
  - rewrite fst_nest_key in H'.
    destruct (leaves_nest_parts_incl _ _ _ _ _ _ H') as [H''|E].
    + now left.
    + right. exists e. split; [now left|exact E].
  - right. exists e'. split; [now right|exact E].
Qed.

(** Every leaf of the tree is a key of the flat table, with its value. *)
Lemma nestObject_leaf flat q w :
  In (q, w) (leaves (fst (nestObject flat))) ->
  exists k, In (k, w) flat /\ q = key_path k.
Proof.
  intros H. unfold nestObject in H.
  destruct (leaves_nest_fold_incl _ _ _ _ H) as [[]|([k v] & He & E)].
  cbn [fst snd] in E. injection E as -> ->.
  exists k. split; [|reflexivity].
  eapply Permutation_in; [apply own_entries_perm|exact He].
Qed.

(** What a language file holds is held by the table of that language. *)
Lemma language_body_entries fmt (t : JsObj.obj (JsObj.obj string)) lang k v :
  NoDup (map fst (lang_table lang t)) ->
  In (k, v) (body_entries (language_body fmt t lang)) ->
  JsObj.get k (lang_table lang t) = Some v.
Proof.
  intros Hnd H. destruct fmt; cbn [language_body body_entries] in H.
  - now apply sortedLangData_in.
  - unfold flattenObject in H. apply in_map_iff in H.
    destruct H as ([q w] & E & H). cbn [fst snd] in E. injection E as <- <-.
    destruct (nestObject_leaf _ _ _ H) as (k & Hk & ->).
    unfold key_path. rewrite join_split. now apply in_get_nodup.
Qed.

Lemma output_cases writable fmt files name body :
  In (name, body) (fst (convertCsvToTs writable fmt files)) ->
  writable name = true
  /\ (In (name, body) (registry_file fmt (aggregate files))
      \/ exists lang,
          In lang (languages_of (translationsByLang (aggregate files)))
          /\ (name, body) = language_file fmt (aggregate files) lang).
Proof.
  destruct files as [|f files]; [intros []|].
  rewrite run_outputs. unfold outputs_of, attempts.
  intros H. apply filter_In in H. destruct H as [H Hw].
  split; [exact Hw|].
  destruct (languages_of (translationsByLang (aggregate (f :: files))))
    as [|l ls]; [destruct H|].
  apply in_app_or in H. destruct H as [H|H]; [now left|].
  right. apply in_map_iff in H. destruct H as (lang & E & Hl). now exists lang.
Qed.

Lemma table_entry_has_value files lang k v :
  JsObj.get k (lang_table lang (translationsByLang (aggregate files))) = Some v ->
  has_value files lang k v.
Proof.
  intros H. apply translation_has_value. unfold translation.
  now rewrite <- get_lang_table.
Qed.

(** A language no row gives a value to has an empty table. *)
Lemma lang_table_empty files lang :
  (forall k v, ~ has_value files lang k v) ->
  lang_table lang (translationsByLang (aggregate files)) = [].
Proof.
  intros H.
  destruct (lang_table lang (translationsByLang (aggregate files)))
    as [|[k v] o] eqn:E; [reflexivity|].
  exfalso. apply (H k v). apply table_entry_has_value.
  rewrite E. simpl. now rewrite String.eqb_refl.
Qed.

Lemma language_body_empty fmt (t : JsObj.obj (JsObj.obj string)) lang :
  lang_table lang t = [] -> language_body fmt t lang = empty_body fmt.
Proof. intros E. unfold language_body. rewrite E. now destruct fmt. Qed.

Lemma has_value_in_allKeys files lang k v :
  has_value files lang k v -> In k (allKeys (aggregate files)).
Proof.
  intros (f & p & fs & r & key & Hf & Hc & Hfs & _ & Hr & Hk & <- & _).
  eapply allKeys_aggregate_adds; eauto.
Qed.

(** ** Runs that leave [Object.prototype] alone *)

(** In such a run no key of the table has a part [__proto__]. *)
Lemma ordinary_has_value files lang k v :
  ordinary files = true -> has_value files lang k v -> proto_free k = true.
Proof.
  intros Ho (f & p & fs & r & key & Hf & Hc & Hfs & _ & Hr & Hk & <- & _).
  unfold ordinary in Ho. rewrite forallb_forall in Ho.
  specialize (Ho f Hf). unfold ordinary_file in Ho. rewrite Hc, Hfs in Ho.
  apply andb_prop in Ho. destruct Ho as [_ Ho].
  rewrite forallb_forall in Ho. specialize (Ho r Hr). rewrite Hk in Ho.
  now apply andb_prop in Ho.
Qed.

(** In such a run no field of a header is an inherited name. *)
Lemma ordinary_header files f p fs field :
  ordinary files = true ->
  In f files -> content f = Parsed p -> fields p = Some fs -> In field fs ->
  inherited_name field = false.
Proof.
  intros Ho Hf Hc Hfs Hin.
  unfold ordinary in Ho. rewrite forallb_forall in Ho.
  specialize (Ho f Hf). unfold ordinary_file in Ho. rewrite Hc, Hfs in Ho.
  apply andb_prop in Ho. destruct Ho as [Ho _].
  rewrite forallb_forall in Ho. specialize (Ho field Hin).
  now apply negb_true_iff in Ho.
Qed.

Lemma ordinary_table_keys files lang k :
  ordinary files = true ->
  In k (map fst (lang_table lang (translationsByLang (aggregate files)))) ->
  proto_free k = true.
Proof.
  intros Ho Hin. apply in_map_iff in Hin. destruct Hin as ([k' v] & <- & Hin).
  apply (ordinary_has_value files lang k' v Ho), table_entry_has_value.
  apply in_get_nodup; [apply table_nodup|exact Hin].
Qed.

Lemma translation_in_table (st : state) lang k v :
  translation st lang k = Some v ->
  In (k, v) (lang_table lang (translationsByLang st)).
Proof.
  unfold translation. rewrite <- get_lang_table. apply get_in.
Qed.

Lemma table_in_translation files lang k v :
  In (k, v) (lang_table lang (translationsByLang (aggregate files))) ->
  translation (aggregate files) lang k = Some v.
Proof.
  intros H. unfold translation. rewrite <- get_lang_table.
  apply in_get_nodup; [apply table_nodup|exact H].
Qed.

(** ** The claims about the table, the key set and the files written *)

(** In a column that is no inherited name, a cell that is [undefined],
    [null] or the empty string changes nothing: no entry, no warning. *)
Lemma empty_cell_writes_nothing file n fk (r : row) st lang :
  inherited_name lang = false ->
  JsObj.get lang r = None \/ JsObj.get lang r = Some CNull
  \/ JsObj.get lang r = Some (CStr EmptyString) ->
  write_cell file n fk r st lang = st.
Proof. intros _ [H|[H|H]]; unfold write_cell; now rewrite H. Qed.

(** In a run that leaves [Object.prototype] alone, every file written is the
    registry or the file of a language, and all the keys of that file have a
    non-empty value for that language somewhere in the input. *)
Lemma written_entries_have_values writable fmt csvFiles name body :
  ordinary csvFiles = true ->
  In (name, body) (fst (convertCsvToTs writable fmt csvFiles)) ->
  In (name, body) (registry_file fmt (aggregate csvFiles))
  \/ exists lang,
      name = (lang ++ extension fmt)%string
      /\ forall k v, In (k, v) (body_entries body) ->
                     has_value csvFiles lang k v.
Proof.
  intros _ H.
  destruct (output_cases _ _ _ _ _ H) as [_ [Hr|(lang & Hl & E)]]; [now left|].
  right. exists lang. unfold language_file in E. injection E as -> ->.
  split; [reflexivity|]. intros k v Hin.
  apply table_entry_has_value.
  apply (language_body_entries fmt); [apply table_nodup|exact Hin].
Qed.

(** C3.  The guard of line 132 keeps an empty cell out of the table, and
    still a language can get a key it has no value for.  In the file
    [t.csv] with the header [key,en,ja] and the one row [__proto__.y,v,]
    the cell of [ja] is empty: no row gives [ja] a value and its table is
    empty.  The table of [en] holds [t.__proto__.y]; nesting it, the loop of
    lines 174-204 reaches line 202 with [Object.prototype] as
    [current[part]], so that line 184 sets the property [y] of
    [Object.prototype], which every object then inherits: the run is not
    one that leaves [Object.prototype] alone. *)
Theorem empty_cell_language_inherits_a_key :
  (forall k v, ~ has_value prototype_input "ja" k v)
  /\ languages_of (translationsByLang (aggregate prototype_input))
     = ["en"; "ja"]
  /\ lang_table "ja" (translationsByLang (aggregate prototype_input)) = []
  /\ lang_table "en" (translationsByLang (aggregate prototype_input))
     = [("t.__proto__.y", "v")]
  /\ enters_prototype (key_path "t.__proto__.y") JsObj.empty = true
  /\ ordinary prototype_input = false.
Proof.
  split; [|repeat split; reflexivity].
  intros k v (f & p & fs & r & key & Hf & Hc & Hfs & Hl & Hr & Hk & Hfk & Hg & Hne).
  destruct Hf as [<-|[]]. cbn in Hc. injection Hc as <-.
  cbn in Hr. destruct Hr as [<-|[]]. cbn in Hg. injection Hg as <-.
  now apply Hne.
Qed.

(** C4.  The key of every surviving row is in the key set, whether or not a
    language has a value for it; every key of the table of any language is
    in the key set; and in the TypeScript mode every key of every file
    written is a key of the registry [key.ts], which is then written too
    when its own write succeeds, and reported when it fails. *)
Theorem registry_covers_every_language (csvFiles : list csv_file) :
  (forall f p fs r key,
      In f csvFiles -> content f = Parsed p -> fields p = Some fs ->
      In r (data p) -> row_key r = Some key ->
      In (fullKey (baseKey (relativePath f)) key)
         (allKeys (aggregate csvFiles)))
  /\ (forall lang k v,
         translation (aggregate csvFiles) lang k = Some v ->
         In k (allKeys (aggregate csvFiles)))
  /\ (forall writable name body k v,
         In (name, body) (fst (convertCsvToTs writable typescript csvFiles)) ->
         In (k, v) (body_entries body) ->
         In k (allKeys (aggregate csvFiles))
         /\ (writable "key.ts" = true ->
             In ("key.ts", TsModule (keyObject (allKeys (aggregate csvFiles))))
                (fst (convertCsvToTs writable typescript csvFiles)))
         /\ (writable "key.ts" = false ->
             In (KeyFileWriteError "key.ts")
                (snd (convertCsvToTs writable typescript csvFiles)))
         /\ JsObj.get k (keyObject (allKeys (aggregate csvFiles))) = Some k).
Proof.
  split; [|split].
  - intros f p fs r key. apply allKeys_aggregate_adds.
  - intros lang k v H.
    apply (has_value_in_allKeys _ lang k v), translation_has_value, H.
  - intros writable name body k v Hout Hin.
    assert (Hk : In k (allKeys (aggregate csvFiles))).
    { destruct (output_cases _ _ _ _ _ Hout) as [_ [Hr|(lang & Hl & E)]].
      - unfold registry_file in Hr.
        destruct (allKeys (aggregate csvFiles)) as [|a l] eqn:Ea; [destruct Hr|].
        destruct Hr as [Hr|[]]. injection Hr as <- <-.
        cbn [body_entries] in Hin. now apply keyObject_in in Hin.
      - unfold language_file in E. injection E as -> ->.
        apply (has_value_in_allKeys _ lang k v), table_entry_has_value.
        apply (language_body_entries typescript); [apply table_nodup|exact Hin]. }
    split; [exact Hk|]. split; [|split; [|now apply keyObject_get]].
    + intros Hw.
      destruct csvFiles as [|f files]; [destruct Hout|].
      rewrite run_outputs in Hout |- *. unfold outputs_of, attempts in *.
      destruct (languages_of (translationsByLang (aggregate (f :: files))))
        as [|l ls]; [destruct Hout|].
      apply filter_In. split; [|exact Hw].
      apply in_or_app. left. unfold registry_file.
      destruct (allKeys (aggregate (f :: files))); [destruct Hk|now left].
    + intros Hw.
      destruct csvFiles as [|f files]; [destruct Hout|].
      rewrite run_outputs in Hout. unfold outputs_of, attempts in Hout.
      unfold convertCsvToTs.
      destruct (languages_of (translationsByLang (aggregate (f :: files))))
        as [|l ls]; [destruct Hout|].
      unfold generateTypeScriptFiles.
      destruct (allKeys (aggregate (f :: files))) as [|a ks] eqn:Ea;
        [destruct Hk|].
      match goal with
      | |- context [fold_left ?g (l :: ls) ?acc] =>
          pose proof (typescript_fold_errors writable
                        (translationsByLang (aggregate (f :: files)))
                        (l :: ls) acc (KeyFileWriteError "key.ts")) as H;
          destruct (fold_left g (l :: ls) acc) as [out ws] eqn:E
      end.
      cbn [snd] in *. apply in_or_app. right. apply H. left.
      now apply snd_write_file_fails.
Qed.

Lemma registry_covers_every_language_witness :
  In "common.bye"
     (allKeys
        (aggregate
           [parsed_file "common.csv" ["key"; "en"]
              [str_row [("key", "greeting"); ("en", "Hello")];
               str_row [("key", "bye"); ("en", "")]]]))
  /\ JsObj.get "common.greeting"
       (keyObject
          (allKeys
             (aggregate
                [parsed_file "common.csv" ["key"; "en"]
                   [str_row [("key", "greeting"); ("en", "Hello")];
                    str_row [("key", "bye"); ("en", "")]]])))
     = Some "common.greeting".
Proof.
  split.
  - apply (proj1 (registry_covers_every_language _)
             (parsed_file "common.csv" ["key"; "en"]
                [str_row [("key", "greeting"); ("en", "Hello")];
                 str_row [("key", "bye"); ("en", "")]])
             {| errors := []; fields := Some ["key"; "en"];
                data := [str_row [("key", "greeting"); ("en", "Hello")];
                         str_row [("key", "bye"); ("en", "")]] |}
             ["key"; "en"] (str_row [("key", "bye"); ("en", "")]) "bye").
    + now left.
    + reflexivity.
    + reflexivity.
    + right. now left.
    + reflexivity.
  - apply (proj2 (proj2 (registry_covers_every_language _))
             all_writable
             "en.ts" (TsModule [("common.greeting", "Hello")])
             "common.greeting" "Hello").
    + right. now left.
    + now left.
Defined.

(** C10 as stated fails when a write fails: with the column [en/US] the
    file [en/US.ts] is to be written in a directory that does not exist,
    [fs.writeFile] throws, line 250 reports it, and no file is there for
    the language. *)
Lemma failed_write_leaves_no_language_file :
  ~ (forall writable fmt csvFiles f p fs lang,
        In f csvFiles -> content f = Parsed p -> fields p = Some fs ->
        In lang (languageColumns fs) ->
        exists body,
          In ((lang ++ extension fmt)%string, body)
             (fst (convertCsvToTs writable fmt csvFiles))).
Proof.
  intros H.
  destruct (H (fun name => negb (String.eqb name "en/US.ts")) typescript
              [parsed_file "common.csv" ["key"; "en/US"]
                 [str_row [("key", "greeting"); ("en/US", "Hello")]]]
              (parsed_file "common.csv" ["key"; "en/US"]
                 [str_row [("key", "greeting"); ("en/US", "Hello")]])
              {| errors := []; fields := Some ["key"; "en/US"];
                 data := [str_row [("key", "greeting"); ("en/US", "Hello")]] |}
              ["key"; "en/US"] "en/US"
              (or_introl eq_refl) eq_refl eq_refl
              (or_introl eq_refl)) as [body Hin].
  vm_compute in Hin. destruct Hin as [E|[]]. discriminate E.
Qed.

(** C10, as amended.  In a run whose headers and keys leave
    [Object.prototype] alone, a language column of the header of any parsed
    file has its file handed to [fs.writeFile] in the selected mode: the
    file is written when the write succeeds, and when it fails nothing is
    written under that name and the failure is reported; when no row gives
    that language a non-empty value the file holds the empty mapping. *)
Theorem every_language_gets_a_file (writable : string -> bool) (fmt : format)
    (csvFiles : list csv_file) (f : csv_file) (p : parse_result)
    (fs : list string) (lang : string) :
  ordinary csvFiles = true ->
  In f csvFiles -> content f = Parsed p -> fields p = Some fs ->
  In lang (languageColumns fs) ->
  (writable (lang ++ extension fmt)%string = true ->
   In (language_file fmt (aggregate csvFiles) lang)
      (fst (convertCsvToTs writable fmt csvFiles)))
  /\ (writable (lang ++ extension fmt)%string = false ->
      In (WriteError (lang ++ extension fmt))
         (snd (convertCsvToTs writable fmt csvFiles))
      /\ forall body,
          ~ In ((lang ++ extension fmt)%string, body)
               (fst (convertCsvToTs writable fmt csvFiles)))
  /\ ((forall k v, ~ has_value csvFiles lang k v) ->
      language_file fmt (aggregate csvFiles) lang
      = ((lang ++ extension fmt)%string, empty_body fmt)).
Proof.
  intros Ho Hf Hc Hfs Hl.
  assert (Hn : inherited_name lang = false).
  { apply (ordinary_header csvFiles f p fs lang Ho Hf Hc Hfs).
    unfold languageColumns in Hl. now apply filter_In in Hl. }
  pose proof (language_of_header _ _ _ _ _ Hf Hc Hfs Hl Hn) as Hk.
  split; [|split].
  - intros Hw.
    destruct csvFiles as [|f0 files]; [destruct Hf|].
    rewrite run_outputs. unfold outputs_of, attempts.
    destruct (languages_of (translationsByLang (aggregate (f0 :: files))))
      as [|l ls]; [destruct Hk|].
    apply filter_In. split; [|exact Hw].
    apply in_or_app. right. now apply in_map.
  - intros Hw. split; [now apply run_write_errors|].
    intros body Hin.
    destruct (output_cases _ _ _ _ _ Hin) as [Hw' _].
    rewrite Hw in Hw'. discriminate.
  - intros Hnone. unfold language_file. f_equal.
    now apply language_body_empty, lang_table_empty.
Qed.

Lemma every_language_gets_a_file_witness :
  In ("ja.json", JsonDocument [])
     (fst (convertCsvToTs all_writable i18next
             [parsed_file "common.csv" ["key"; "en"; "ja"]
                [str_row [("key", "greeting"); ("en", "Hello"); ("ja", "")]]]))
  /\ language_file i18next
       (aggregate
          [parsed_file "common.csv" ["key"; "en"; "ja"]
             [str_row [("key", "greeting"); ("en", "Hello"); ("ja", "")]]])
       "ja"
     = ("ja.json", empty_body i18next)
  /\ In (WriteError "en/US.ts")
       (snd (convertCsvToTs (fun name => negb (String.eqb name "en/US.ts"))
               typescript
               [parsed_file "common.csv" ["key"; "en/US"]
                  [str_row [("key", "greeting"); ("en/US", "Hello")]]])).
Proof.
  destruct (every_language_gets_a_file all_writable i18next
              [parsed_file "common.csv" ["key"; "en"; "ja"]
                 [str_row [("key", "greeting"); ("en", "Hello"); ("ja", "")]]]
              (parsed_file "common.csv" ["key"; "en"; "ja"]
                 [str_row [("key", "greeting"); ("en", "Hello"); ("ja", "")]])
              {| errors := []; fields := Some ["key"; "en"; "ja"];
                 data := [str_row [("key", "greeting"); ("en", "Hello");
                                   ("ja", "")]] |}
              ["key"; "en"; "ja"] "ja"
              eq_refl (or_introl eq_refl) eq_refl eq_refl
              (or_intror (or_introl eq_refl)))
    as (Hin & _ & Hempty).
  split; [exact (Hin eq_refl)|]. split.
  - apply Hempty.
    intros k v (f & p & fs & r & key & Hf & Hc & Hfs & Hl & Hr & Hk & Hfk & Hg & Hne).
    destruct Hf as [<-|[]]. cbn in Hc. injection Hc as <-.
    cbn in Hr. destruct Hr as [<-|[]]. cbn in Hg. injection Hg as <-.
    now apply Hne.
  - exact (proj1
             (proj1 (proj2
                (every_language_gets_a_file
                   (fun name => negb (String.eqb name "en/US.ts")) typescript
                   [parsed_file "common.csv" ["key"; "en/US"]
                      [str_row [("key", "greeting"); ("en/US", "Hello")]]]
                   (parsed_file "common.csv" ["key"; "en/US"]
                      [str_row [("key", "greeting"); ("en/US", "Hello")]])
                   {| errors := []; fields := Some ["key"; "en/US"];
                      data := [str_row [("key", "greeting");
                                        ("en/US", "Hello")]] |}
                   ["key"; "en/US"] "en/US"
                   eq_refl (or_introl eq_refl) eq_refl eq_refl
                   (or_introl eq_refl)))
                eq_refl)).
Defined.

(** C8 as stated fails: a header with a language column and no row gives no
    key at all, and yet a file is written for the language. *)
Lemma language_file_written_without_keys :
  ~ (forall writable fmt csvFiles,
        allKeys (aggregate csvFiles) = [] ->
        fst (convertCsvToTs writable fmt csvFiles) = []).
Proof.
  intros H.
  specialize (H all_writable typescript
                [parsed_file "common.csv" ["key"; "en"] []] eq_refl).
  discriminate H.
Qed.

Lemma filter_map_fst {A B : Type} (P : B -> bool) (g : A -> B) (l : list A) :
  filter P (map g l) = map g (filter (fun a => P (g a)) l).
Proof.
  induction l as [|a l IH]; [reflexivity|].
  cbn [map filter]. rewrite IH. now destruct (P (g a)).
Qed.

(** C8, as amended.  In a run that finds no key the registry is not written
    (the TypeScript mode says so), and the files handed to [fs.writeFile]
    are one per language of the run, each holding the empty mapping: each is
    written when its write succeeds and reported when it fails; so nothing
    is handed over only when the run has no language.  The languages of a
    run are language columns of its parsed files, and every language column
    that is no inherited name is one of them.  In a run whose files give no
    language column at all nothing is written and the run says so. *)
Theorem nothing_written_without_languages (writable : string -> bool)
    (fmt : format) (csvFiles : list csv_file) :
  (allKeys (aggregate csvFiles) = [] ->
   fst (convertCsvToTs writable fmt csvFiles)
   = map (fun lang => ((lang ++ extension fmt)%string, empty_body fmt))
       (filter (fun lang => writable (lang ++ extension fmt)%string)
          (languages_of (translationsByLang (aggregate csvFiles))))
   /\ (forall lang,
          In lang (languages_of (translationsByLang (aggregate csvFiles))) ->
          writable (lang ++ extension fmt)%string = false ->
          In (WriteError (lang ++ extension fmt))
             (snd (convertCsvToTs writable fmt csvFiles)))
   /\ (fmt = typescript ->
       languages_of (translationsByLang (aggregate csvFiles)) <> [] ->
       In NoKeysFound (snd (convertCsvToTs writable fmt csvFiles))))
  /\ (forall lang,
         In lang (languages_of (translationsByLang (aggregate csvFiles))) ->
         exists f p fs,
           In f csvFiles /\ content f = Parsed p /\ fields p = Some fs
           /\ In lang (languageColumns fs))
  /\ (forall f p fs lang,
         In f csvFiles -> content f = Parsed p -> fields p = Some fs ->
         In lang (languageColumns fs) -> inherited_name lang = false ->
         In lang (languages_of (translationsByLang (aggregate csvFiles))))
  /\ ((forall f p fs,
          In f csvFiles -> content f = Parsed p -> fields p = Some fs ->
          languageColumns fs = []) ->
      fst (convertCsvToTs writable fmt csvFiles) = []
      /\ (In NoLanguageData (snd (convertCsvToTs writable fmt csvFiles))
          \/ In NoCsvFilesFound (snd (convertCsvToTs writable fmt csvFiles)))).
Proof.
  split; [|split; [apply language_is_a_column|split;
    [intros f p fs lang; apply language_of_header|]]].
  - intros Hkeys.
    assert (Hempty : forall lang,
               language_file fmt (aggregate csvFiles) lang
               = ((lang ++ extension fmt)%string, empty_body fmt)).
    { intros lang. unfold language_file. f_equal.
      apply language_body_empty, lang_table_empty. intros k v Hv.
      apply has_value_in_allKeys in Hv. rewrite Hkeys in Hv. destruct Hv. }
    split; [|split].
    + destruct csvFiles as [|f files]; [reflexivity|].
      rewrite run_outputs. unfold outputs_of, attempts, registry_file.
      rewrite Hkeys.
      destruct (languages_of (translationsByLang (aggregate (f :: files))))
        as [|l ls] eqn:El; [reflexivity|].
      assert (Hr : match fmt with
                   | typescript => @nil written
                   | i18next => []
                   end = []) by now destruct fmt.
      rewrite Hr. cbn [app].
      rewrite (map_ext _ _ Hempty), filter_map_fst. reflexivity.
    + intros lang. apply run_write_errors.
    + intros -> Hl. unfold convertCsvToTs.
      destruct csvFiles as [|f files]; [now elim Hl|].
      destruct (languages_of (translationsByLang (aggregate (f :: files))))
        as [|l ls]; [now elim Hl|].
      unfold generateTypeScriptFiles. rewrite Hkeys.
      match goal with
      | |- context [fold_left ?g (l :: ls) ?acc] =>
          pose proof (typescript_fold_errors writable
                        (translationsByLang (aggregate (f :: files)))
                        (l :: ls) acc NoKeysFound) as H;
          destruct (fold_left g (l :: ls) acc) as [out ws] eqn:E
      end.
      cbn [snd] in *. apply in_or_app. right. apply H. left. now left.
  - intros Hcols.
    destruct csvFiles as [|f files]; [split; [reflexivity|right; now left]|].
    assert (Ht : translationsByLang (aggregate (f :: files)) = []).
    { unfold aggregate. now rewrite aggregate_no_columns. }
    unfold convertCsvToTs. rewrite Ht. cbn. split; [reflexivity|].
    left. apply in_or_app. right. now left.
Qed.

Lemma nothing_written_without_languages_witness :
  fst (convertCsvToTs all_writable typescript
         [parsed_file "common.csv" ["key"; "en"]
            [str_row [("key", ""); ("en", "Hello")]]])
  = [("en.ts", TsModule [])]
  /\ In NoKeysFound
        (snd (convertCsvToTs all_writable typescript
                [parsed_file "common.csv" ["key"; "en"]
                   [str_row [("key", ""); ("en", "Hello")]]]))
  /\ fst (convertCsvToTs all_writable i18next
            [parsed_file "common.csv" ["Key"]
               [str_row [("Key", "greeting")]]])
     = []
  /\ (In NoLanguageData
         (snd (convertCsvToTs all_writable i18next
                 [parsed_file "common.csv" ["Key"]
                    [str_row [("Key", "greeting")]]]))
      \/ In NoCsvFilesFound
           (snd (convertCsvToTs all_writable i18next
                   [parsed_file "common.csv" ["Key"]
                      [str_row [("Key", "greeting")]]]))).
Proof.
  destruct (proj1 (nothing_written_without_languages all_writable typescript
                     [parsed_file "common.csv" ["key"; "en"]
                        [str_row [("key", ""); ("en", "Hello")]]]) eq_refl)
    as (Hout & _ & Hlog).
  split; [exact Hout|]. split; [apply Hlog; [reflexivity|discriminate]|].
  apply (proj2 (proj2 (proj2
                  (nothing_written_without_languages all_writable i18next
                     [parsed_file "common.csv" ["Key"]
                        [str_row [("Key", "greeting")]]])))).
  intros f p fs [<-|[]] Hc Hfs. cbn in Hc. injection Hc as <-.
  cbn in Hfs. injection Hfs as <-. reflexivity.
Defined.

(** ** Order of the keys written *)

Lemma sortedLangData_fold_keys (flat : JsObj.obj string) l :
  forall o : JsObj.obj string,
  NoDup l ->
  (forall k, In k l -> JsObj.get k o = None) ->
  (forall k, In k l -> JsObj.get k flat <> None) ->
  map fst
    (fold_left
       (fun o key =>
          match JsObj.get key flat with
          | Some v => JsObj.set key v o
          | None => o
          end) l o)
  = map fst o ++ l.
Proof.
  induction l as [|a l IH]; intros o Hnd Ho Hflat.
  - simpl. now rewrite app_nil_r.
  - cbn [fold_left]. inversion Hnd as [|? ? Hnotin Hnd']; subst.
    destruct (JsObj.get a flat) as [v|] eqn:G;
      [|exfalso; apply (Hflat a); [now left|exact G]].
    rewrite IH.
    + rewrite (set_absent a v o) by (apply Ho; now left).
      rewrite map_app, <- app_assoc. reflexivity.
    + exact Hnd'.
    + intros k Hk. rewrite get_set_other.
      * apply Ho. now right.
      * intros ->. contradiction.
    + intros k Hk. apply Hflat. now right.
Qed.

(** The TypeScript emitter creates the properties of a language module in
    sorted order of the keys of the table. *)
Lemma sortedLangData_keys (flat : JsObj.obj string) :
  NoDup (map fst flat) ->
  map fst (sortedLangData flat) = JsString.sort (JsObj.keys flat)
  /\ Sorted (fun a b => JsString.leb a b = true) (map fst (sortedLangData flat)).
Proof.
  intros Hnd.
  assert (E : map fst (sortedLangData flat) = JsString.sort (JsObj.keys flat)).
  { unfold sortedLangData. rewrite sortedLangData_fold_keys; [reflexivity| | |].
    - eapply Permutation_NoDup; [symmetry; apply sort_perm|].
      eapply Permutation_NoDup; [symmetry; apply keys_perm|exact Hnd].
    - reflexivity.
    - intros k Hk. apply in_keys_iff.
      eapply Permutation_in; [apply sort_perm|exact Hk]. }
  split; [exact E|]. rewrite E. apply sort_sorted.
Qed.

(** C7.  The TypeScript emitter sorts, the i18next emitter does not: from
    [m.csv] with the rows [z] and [a] the module [en.ts] has [m.a] before
    [m.z], but [en.json] has [z] before [a], as in the file; and from the
    files [z.csv] and [a.csv], found in that order, [en.json] has [z] before
    [a] at the top, which is not the tree of the sorted table. *)
Theorem i18next_keys_are_not_sorted :
  fst (convertCsvToTs all_writable typescript
         [parsed_file "m.csv" ["key"; "en"]
            [str_row [("key", "z"); ("en", "Z")];
             str_row [("key", "a"); ("en", "A")]]])
  = [("key.ts", TsModule [("m.a", "m.a"); ("m.z", "m.z")]);
     ("en.ts", TsModule [("m.a", "A"); ("m.z", "Z")])]
  /\ fst (convertCsvToTs all_writable i18next
            [parsed_file "m.csv" ["key"; "en"]
               [str_row [("key", "z"); ("en", "Z")];
                str_row [("key", "a"); ("en", "A")]]])
     = [("en.json",
         JsonDocument [("m", VObj [("z", VStr "Z"); ("a", VStr "A")])])]
  /\ fst (convertCsvToTs all_writable i18next
            [parsed_file "z.csv" ["key"; "en"]
               [str_row [("key", "k"); ("en", "Z")]];
             parsed_file "a.csv" ["key"; "en"]
               [str_row [("key", "k"); ("en", "A")]]])
     = [("en.json",
         JsonDocument [("z", VObj [("k", VStr "Z")]);
                       ("a", VObj [("k", VStr "A")])])]
  /\ JsObj.keys [("z", VObj [("k", VStr "Z")]); ("a", VObj [("k", VStr "A")])]
     = ["z"; "a"]
  /\ fst (nestObject (sortedLangData [("z.k", "Z"); ("a.k", "A")]))
     = [("a", VObj [("k", VStr "A")]); ("z", VObj [("k", VStr "Z")])].
Proof. repeat split. Qed.

(** The key column, whatever its case, is no language column. *)
Lemma key_column_is_no_language (fs : list string) (field : string) :
  JsString.toLowerCase field = "key" -> ~ In field (languageColumns fs).
Proof.
  intros H Hin. unfold languageColumns in Hin.
  apply filter_In in Hin. destruct Hin as [_ Hin].
  rewrite H in Hin. discriminate.
Qed.

(** C9.  With the header [Key,en] the column [Key] is kept out of the
    language columns, but the key of a row is read from the property [key]
    alone: the row [greeting,Hello] has no key, is skipped, and nothing of
    it reaches the key set or the output. *)
Theorem key_column_is_read_as_key_only :
  languageColumns ["Key"; "en"] = ["en"]
  /\ row_key (str_row [("Key", "greeting"); ("en", "Hello")]) = None
  /\ row_key (str_row [("key", "greeting"); ("en", "Hello")]) = Some "greeting"
  /\ convertCsvToTs all_writable typescript
       [parsed_file "common.csv" ["Key"; "en"]
          [str_row [("Key", "greeting"); ("en", "Hello")]]]
     = ([("en.ts", TsModule [])],
        [SkippedRow 2 "/in/common.csv"; NoKeysFound])
  /\ convertCsvToTs all_writable typescript
       [parsed_file "common.csv" ["key"; "en"]
          [str_row [("key", "greeting"); ("en", "Hello")]]]
     = ([("key.ts", TsModule [("common.greeting", "common.greeting")]);
         ("en.ts", TsModule [("common.greeting", "Hello")])],
        []).
Proof. repeat split. Qed.

(* ================================================================== *)
(** * Further properties of the code *)

(** ** [nestObject] *)

Lemma key_path_inj k1 k2 : key_path k1 = key_path k2 -> k1 = k2.
Proof.
  intros H. rewrite <- (join_split "." k1), <- (join_split "." k2).
  unfold key_path in H. now rewrite H.
Qed.

(** X1.  In a run that leaves [Object.prototype] alone the i18next emitter
    invents nothing: every key and value found by flattening a JSON document
    it writes is an entry of the table of the language the document is named
    after. *)
Theorem nestObject_invents_nothing (writable : string -> bool)
    (csvFiles : list csv_file) (name : string) (body : file_body)
    (k v : string) :
  ordinary csvFiles = true ->
  In (name, body) (fst (convertCsvToTs writable i18next csvFiles)) ->
  In (k, v) (body_entries body) ->
  exists lang,
    name = (lang ++ ".json")%string
    /\ translation (aggregate csvFiles) lang k = Some v.
Proof.
  intros _ Hout Hin.
  destruct (output_cases _ _ _ _ _ Hout) as [_ [Hr|(lang & Hl & E)]].
  - unfold registry_file in Hr. destruct Hr.
  - exists lang. unfold language_file in E. injection E as -> ->.
    split; [reflexivity|]. unfold translation. rewrite <- get_lang_table.
    apply (language_body_entries i18next); [apply table_nodup|exact Hin].
Qed.

Lemma nestObject_invents_nothing_witness :
  exists lang,
    "en.json" = (lang ++ ".json")%string
    /\ translation
         (aggregate
            [parsed_file "c.csv" ["key"; "en"]
               [str_row [("key", "a.b"); ("en", "1")];
                str_row [("key", "a.b.c"); ("en", "2")]]])
         lang "c.a.b"
       = Some "1".
Proof.
  apply (nestObject_invents_nothing all_writable
           [parsed_file "c.csv" ["key"; "en"]
              [str_row [("key", "a.b"); ("en", "1")];
               str_row [("key", "a.b.c"); ("en", "2")]]]
           "en.json"
           (JsonDocument [("c", VObj [("a", VObj [("b", VStr "1")])])])
           "c.a.b" "1").
  - reflexivity.
  - vm_compute. now left.
  - vm_compute. now left.
Defined.







Lemma leaves_nest_parts_silent key value parts : forall current : tree,
  parts <> [] ->
  proto_free_parts parts = true ->
  snd (nest_parts key value parts current) = [] ->
  (forall w, ~ In (parts, w) (leaves current)) ->
  Permutation (leaves (fst (nest_parts key value parts current)))
              (leaves current ++ [(parts, value)]).
Proof.
  induction parts as [|part rest IH]; intros current Hne Hpf Hs Hnew;
    [contradiction|].
  cbn [proto_free_parts forallb] in Hpf. apply andb_prop in Hpf.
  destruct Hpf as [Hpart Hpf]. apply negb_true_iff in Hpart.
  fold (proto_free_parts rest) in Hpf.
  destruct rest as [|part' rest'].
  - rewrite nest_parts_last in Hs |- *. cbn [fst snd] in *.
    rewrite (assign_set _ _ _ Hpart).
    unfold read in Hs.
    destruct (JsObj.get part current) as [[s|o]|] eqn:G; [|discriminate|].
    + exfalso. apply (Hnew s).
      destruct (set_present part (VStr value) _ _ G) as (l1 & l2 & Hc & _).
      rewrite Hc, leaves_app, leaves_cons. apply in_or_app. right. now left.
    + rewrite (set_absent _ _ _ G), leaves_app. reflexivity.
  - rewrite nest_parts_inner in Hs |- *. unfold read in *.
    destruct (JsObj.get part current) as [[s|o]|] eqn:G; [discriminate| |].
    + assert (Hsub : forall w, ~ In (part' :: rest', w) (leaves o)).
      { intros w Hin. apply (Hnew w).
        destruct (in_split _ _ (get_in _ _ _ G)) as (l1 & l2 & Hc).
        rewrite Hc, leaves_app, leaves_cons. apply in_or_app. right.
        apply in_or_app. left. apply (in_map (under part)) in Hin. exact Hin. }
      specialize (IH o ltac:(discriminate) Hpf).
      destruct (nest_parts key value (part' :: rest') o) as [o' ws].
      cbn [fst snd] in *. specialize (IH Hs Hsub).
      destruct (set_present part (VObj o') _ _ G) as (l1 & l2 & Hc & Hset).
      rewrite Hset, Hc, !leaves_app, !leaves_cons.
      change (leaves_val (VObj o')) with (leaves o').
      change (leaves_val (VObj o)) with (leaves o).
      rewrite IH, map_app. cbn [map under fst snd].
      rewrite <- !app_assoc. apply Permutation_app_head.
      apply Permutation_app_head. cbn [app]. apply Permutation_cons_append.
    + rewrite Hpart in *.
      destruct (builtin_function part); [discriminate|].
      specialize (IH JsObj.empty ltac:(discriminate) Hpf).
      destruct (nest_parts key value (part' :: rest') JsObj.empty) as [o' ws].
      cbn [fst snd] in *. specialize (IH Hs ltac:(intros w [])).
      rewrite (set_absent _ _ _ G), leaves_app, leaves_cons.
      change (leaves_val (VObj o')) with (leaves o').
      rewrite IH. reflexivity.
Qed.

Lemma nest_fold_log es : forall acc : tree * list diag,
  exists ws, snd (fold_left nest_key es acc) = snd acc ++ ws.
Proof.
  induction es as [|e es IH]; intros acc.
  - exists []. simpl. now rewrite app_nil_r.
  - cbn [fold_left]. destruct (IH (nest_key acc e)) as [ws Hws].
    rewrite Hws, snd_nest_key, <- app_assoc. eauto.
Qed.

Lemma leaves_nest_fold_silent es : forall acc : tree * list diag,
  (forall e, In e es -> proto_free (fst e) = true) ->
  NoDup (map fst es) ->
  snd (fold_left nest_key es acc) = [] ->
  (forall e w, In e es -> ~ In (key_path (fst e), w) (leaves (fst acc))) ->
  Permutation (leaves (fst (fold_left nest_key es acc)))
              (leaves (fst acc) ++ map (fun e => (key_path (fst e), snd e)) es).
Proof.
  induction es as [|e es IH]; intros acc Hpf Hnd Hs Hnew.
  - simpl. now rewrite app_nil_r.
  - cbn [fold_left] in *.
    destruct (nest_fold_log es (nest_key acc e)) as [ws Hws].
    rewrite Hs in Hws. symmetry in Hws. apply app_eq_nil in Hws.
    destruct Hws as [Hstep _]. rewrite snd_nest_key in Hstep.
    apply app_eq_nil in Hstep. destruct Hstep as [_ Hstep].
    assert (Hperm : Permutation (leaves (fst (nest_key acc e)))
                      (leaves (fst acc) ++ [(key_path (fst e), snd e)])).
    { rewrite fst_nest_key. apply leaves_nest_parts_silent.
      - apply split_not_nil.
      - apply Hpf. now left.
      - exact Hstep.
      - intros w. apply Hnew. now left. }
    inversion Hnd as [|? ? Hnotin Hnd']; subst.
    rewrite IH.
    + rewrite Hperm, <- app_assoc. reflexivity.
    + intros e' He'. apply Hpf. now right.
    + exact Hnd'.
    + exact Hs.
    + intros e' w He' Hin.
      apply (Permutation_in _ Hperm) in Hin.
      apply in_app_or in Hin. destruct Hin as [Hin|[Hin|[]]].
      * apply (Hnew e' w); [now right|exact Hin].
      * injection Hin as Hp _. apply key_path_inj in Hp.
        apply Hnotin. rewrite Hp. now apply in_map.
Qed.

Lemma flatten_nest_silent (flatObject : JsObj.obj string) :
  (forall k, In k (map fst flatObject) -> proto_free k = true) ->
  NoDup (map fst flatObject) ->
  snd (nestObject flatObject) = [] ->
  Permutation (flattenObject (fst (nestObject flatObject))) flatObject.
Proof.
  intros Hpf Hnd Hs. unfold flattenObject, nestObject in *.
  pose proof (own_entries_perm flatObject) as Hown.
  rewrite leaves_nest_fold_silent.
  - change (leaves (fst (JsObj.empty, @nil diag)))
      with (@nil (list string * string)).
    cbn [app]. rewrite map_map. cbn [fst snd].
    rewrite <- Hown at 2.
    rewrite <- (map_id (JsObj.own_entries flatObject)) at 2.
    apply Permutation_refl'. apply map_ext. intros [k v]. cbn [fst snd].
    unfold key_path. now rewrite join_split.
  - intros e He. apply Hpf. apply in_map.
    eapply Permutation_in; [exact Hown|exact He].
  - eapply Permutation_NoDup; [|exact Hnd].
    symmetry. now apply Permutation_map.
  - exact Hs.
  - intros e w _ [].
Qed.

(** X3.  In a run that leaves [Object.prototype] alone, [nestObject] drops
    or replaces an entry only with a warning: when it logs nothing for the
    table of a language, flattening the tree gives back the entries of that
    table, all of them and no other. *)
Theorem silent_nestObject_loses_nothing (csvFiles : list csv_file)
    (lang : string) :
  ordinary csvFiles = true ->
  snd (nestObject (lang_table lang (translationsByLang (aggregate csvFiles))))
  = [] ->
  Permutation
    (flattenObject
       (fst (nestObject
               (lang_table lang (translationsByLang (aggregate csvFiles))))))
    (lang_table lang (translationsByLang (aggregate csvFiles))).
Proof.
  intros Ho Hs. apply flatten_nest_silent.
  - intros k. now apply ordinary_table_keys.
  - apply table_nodup.
  - exact Hs.
Qed.

Lemma silent_nestObject_loses_nothing_witness :
  Permutation
    (flattenObject
       (fst (nestObject
               (lang_table "en"
                  (translationsByLang
                     (aggregate
                        [parsed_file "c.csv" ["key"; "en"]
                           [str_row [("key", "b.y"); ("en", "1")];
                            str_row [("key", "a"); ("en", "2")];
                            str_row [("key", "b.x"); ("en", "3")]]]))))))
    (lang_table "en"
       (translationsByLang
          (aggregate
             [parsed_file "c.csv" ["key"; "en"]
                [str_row [("key", "b.y"); ("en", "1")];
                 str_row [("key", "a"); ("en", "2")];
                 str_row [("key", "b.x"); ("en", "3")]]]))).
Proof.
  apply (silent_nestObject_loses_nothing
           [parsed_file "c.csv" ["key"; "en"]
              [str_row [("key", "b.y"); ("en", "1")];
               str_row [("key", "a"); ("en", "2")];
               str_row [("key", "b.x"); ("en", "3")]]]
           "en").
  - reflexivity.
  - reflexivity.
Defined.

Lemma solid_app (o1 o2 : tree) : solid (o1 ++ o2) <-> solid o1 /\ solid o2.
Proof.
  induction o1 as [|[k c] o1 IH]; simpl.
  - split; [intros H; split; [constructor|exact H]|now intros [_ H]].
  - split.
    + intros H. inversion H as [|? ? ? Ho|? ? ? Hc Hl Ho]; subst;
        apply IH in Ho; destruct Ho as [H1 H2]; split; auto;
        now constructor.
    + intros [H1 H2].
      inversion H1 as [|? ? ? Ho|? ? ? Hc Hl Ho]; subst; constructor; auto;
        apply IH; now split.
Qed.

Lemma nest_parts_apart_silent key value parts : forall current : tree,
  parts <> [] ->
  plain_parts parts = true ->
  solid current ->
  (forall q w, In (q, w) (leaves current) -> apart q parts) ->
  snd (nest_parts key value parts current) = []
  /\ solid (fst (nest_parts key value parts current)).
Proof.
  induction parts as [|part rest IH]; intros current Hne Hpl Hsolid Hap;
    [contradiction|].
  pose proof (leaves_nest_parts key value (part :: rest) current Hne Hpl Hap)
    as Hperm.
  cbn [plain_parts forallb] in Hpl. apply andb_prop in Hpl.
  destruct Hpl as [Hpart Hpl]. apply negb_true_iff in Hpart.
  fold (plain_parts rest) in Hpl.
  destruct rest as [|part' rest'].
  - rewrite nest_parts_last. cbn [fst snd].
    rewrite (assign_set _ _ _ (proj1 (inherited_name_false _ Hpart))).
    destruct (JsObj.get part current) as [[s|o]|] eqn:G;
      [rewrite (read_own _ _ _ G)|rewrite (read_own _ _ _ G)
      |rewrite (read_plain _ _ Hpart G)].
    + exfalso.
      destruct (set_present part (VStr value) _ _ G) as (l1 & l2 & Hc & _).
      destruct (Hap [part] s) as [H _].
      * rewrite Hc, leaves_app, leaves_cons. apply in_or_app. right. now left.
      * simpl in H. rewrite String.eqb_refl in H. discriminate.
    + exfalso.
      destruct (set_present part (VStr value) _ _ G) as (l1 & l2 & Hc & _).
      rewrite Hc in Hsolid, Hap. apply solid_app in Hsolid.
      destruct Hsolid as [_ Hsolid].
      inversion Hsolid as [| |? ? ? Hc' Hl Ho]; subst.
      destruct (leaves o) as [|[q w] l] eqn:E; [now apply Hl|].
      destruct (Hap (part :: q) w) as [_ H].
      * rewrite leaves_app, leaves_cons. apply in_or_app. right.
        change (leaves_val (VObj o)) with (leaves o). rewrite E. now left.
      * simpl in H. rewrite String.eqb_refl in H. discriminate.
    + split; [reflexivity|]. rewrite (set_absent _ _ _ G).
      apply solid_app. split; [exact Hsolid|]. repeat constructor.
  - rewrite nest_parts_inner in Hperm |- *.
    destruct (JsObj.get part current) as [[s|o]|] eqn:G;
      [rewrite (read_own _ _ _ G) in *|rewrite (read_own _ _ _ G) in *
      |rewrite (read_plain _ _ Hpart G) in *].
    + exfalso.
      destruct (set_present part (VStr value) _ _ G) as (l1 & l2 & Hc & _).
      destruct (Hap [part] s) as [H _].
      * rewrite Hc, leaves_app, leaves_cons. apply in_or_app. right. now left.
      * simpl in H. rewrite String.eqb_refl in H. discriminate.
    + destruct (in_split _ _ (get_in _ _ _ G)) as (l1 & l2 & Hc).
      assert (Hsub : forall q w, In (q, w) (leaves o) ->
                                 apart q (part' :: rest')).
      { intros q w Hin. destruct (Hap (part :: q) w) as [H1 H2].
        - rewrite Hc, leaves_app, leaves_cons. apply in_or_app. right.
          apply in_or_app. left. apply (in_map (under part)) in Hin. exact Hin.
        - simpl in H1, H2. rewrite String.eqb_refl in H1, H2. now split. }
      assert (Hso : solid o).
      { rewrite Hc in Hsolid. apply solid_app in Hsolid.
        destruct Hsolid as [_ Hsolid]. now inversion Hsolid. }
      pose proof (leaves_nest_parts key value (part' :: rest') o
                    ltac:(discriminate) Hpl Hsub) as Hp.
      destruct (IH o ltac:(discriminate) Hpl Hso Hsub) as [Hws Hso'].
      destruct (nest_parts key value (part' :: rest') o) as [o' ws].
      cbn [fst snd] in *. split; [exact Hws|].
      destruct (set_present part (VObj o') _ _ G) as (l1' & l2' & Hc' & Hset).
      rewrite Hset. rewrite Hc' in Hsolid. apply solid_app in Hsolid.
      destruct Hsolid as [Hs1 Hs2]. apply solid_app. split; [exact Hs1|].
      inversion Hs2; subst. constructor; auto.
      intros E. rewrite E in Hp. apply Permutation_nil in Hp.
      now destruct (leaves o).
    + pose proof (leaves_nest_parts key value (part' :: rest') JsObj.empty
                    ltac:(discriminate) Hpl ltac:(intros q w [])) as Hp.
      destruct (IH JsObj.empty ltac:(discriminate) Hpl solid_nil
                  ltac:(intros q w [])) as [Hws Hso'].
      destruct (nest_parts key value (part' :: rest') JsObj.empty) as [o' ws].
      cbn [fst snd] in *. split; [exact Hws|].
      rewrite (set_absent _ _ _ G). apply solid_app. split; [exact Hsolid|].
      constructor; [exact Hso'| |constructor].
      intros E. rewrite E in Hp. now apply Permutation_nil in Hp.
Qed.

Lemma nest_fold_apart_silent es : forall acc : tree * list diag,
  (forall e, In e es -> plain_key (fst e) = true) ->
  NoDup (map fst es) ->
  (forall k1 k2, In k1 (map fst es) -> In k2 (map fst es) -> k1 <> k2 ->
                 is_prefix (key_path k1) (key_path k2) = false) ->
  (forall e q w, In e es -> In (q, w) (leaves (fst acc)) ->
                 apart q (key_path (fst e))) ->
  solid (fst acc) ->
  snd (fold_left nest_key es acc) = snd acc.
Proof.
  induction es as [|e es IH]; intros acc Hpl Hnd Hpre Hacc Hsolid;
    [reflexivity|].
  cbn [fold_left].
  assert (Hap : forall q w, In (q, w) (leaves (fst acc)) ->
                            apart q (key_path (fst e))).
  { intros q w. apply Hacc. now left. }
  assert (Hple : plain_parts (key_path (fst e)) = true)
    by (apply Hpl; now left).
  destruct (nest_parts_apart_silent (fst e) (snd e) (key_path (fst e))
              (fst acc) (split_not_nil _ _) Hple Hsolid Hap) as [Hws Hso].
  pose proof (leaves_nest_parts (fst e) (snd e) (key_path (fst e)) (fst acc)
                (split_not_nil _ _) Hple Hap) as Hperm.
  inversion Hnd as [|? ? Hnotin Hnd']; subst.
  rewrite IH.
  - now rewrite snd_nest_key, Hws, app_nil_r.
  - intros e' He'. apply Hpl. now right.
  - exact Hnd'.
  - intros k1 k2 H1 H2. apply Hpre; now right.
  - intros e' q w He' Hin. rewrite fst_nest_key in Hin.
    apply (Permutation_in _ Hperm) in Hin.
    apply in_app_or in Hin. destruct Hin as [Hin|[Hin|[]]].
    + apply (Hacc e' q w); [now right|exact Hin].
    + injection Hin as <- _.
      assert (Hne : fst e <> fst e').
      { intros Heq. apply Hnotin. rewrite Heq. now apply in_map. }
      split; apply Hpre; simpl; auto using in_map.
  - now rewrite fst_nest_key.
Qed.

Lemma nestObject_plain_silent (flatObject : JsObj.obj string) :
  (forall k, In k (map fst flatObject) -> plain_key k = true) ->
  NoDup (map fst flatObject) ->
  (forall k1 k2,
      In k1 (map fst flatObject) -> In k2 (map fst flatObject) -> k1 <> k2 ->
      is_prefix (key_path k1) (key_path k2) = false) ->
  snd (nestObject flatObject) = [].
Proof.
  intros Hpl Hnd Hpre. unfold nestObject.
  assert (Hk : Permutation (map fst (JsObj.own_entries flatObject))
                 (map fst flatObject))
    by apply Permutation_map, own_entries_perm.
  rewrite nest_fold_apart_silent; [reflexivity| | | | |constructor].
  - intros e He. apply Hpl. eapply Permutation_in; [exact Hk|].
    now apply in_map.
  - eapply Permutation_NoDup; [symmetry; exact Hk|exact Hnd].
  - intros k1 k2 H1 H2. apply Hpre; eapply Permutation_in; eauto.
  - intros e q w _ [].
Qed.

(** X4.  In a run that leaves [Object.prototype] alone, for a language
    whose keys have no inherited name among their parts and are such that
    the path of no key is an initial part of the path of another,
    [nestObject] logs no warning, and flattening the tree it returns gives
    back the entries of the table of that language. *)
Theorem nestObject_silent_without_collisions (csvFiles : list csv_file)
    (lang : string) :
  ordinary csvFiles = true ->
  (forall k v, translation (aggregate csvFiles) lang k = Some v ->
               plain_key k = true) ->
  (forall k1 v1 k2 v2,
      translation (aggregate csvFiles) lang k1 = Some v1 ->
      translation (aggregate csvFiles) lang k2 = Some v2 ->
      k1 <> k2 ->
      is_prefix (key_path k1) (key_path k2) = false) ->
  snd (nestObject (lang_table lang (translationsByLang (aggregate csvFiles))))
  = []
  /\ Permutation
       (flattenObject
          (fst (nestObject
                  (lang_table lang (translationsByLang (aggregate csvFiles))))))
       (lang_table lang (translationsByLang (aggregate csvFiles))).
Proof.
  intros _ Hpl Hpre.
  assert (Hkeys : forall k,
             In k (map fst (lang_table lang
                              (translationsByLang (aggregate csvFiles)))) ->
             exists v, translation (aggregate csvFiles) lang k = Some v).
  { intros k Hin. apply in_map_iff in Hin. destruct Hin as ([k' v] & <- & Hin).
    exists v. now apply table_in_translation. }
  assert (Hpl' : forall k,
             In k (map fst (lang_table lang
                              (translationsByLang (aggregate csvFiles)))) ->
             plain_key k = true).
  { intros k Hin. destruct (Hkeys k Hin) as [v Hv]. exact (Hpl k v Hv). }
  assert (Hpre' : forall k1 k2,
             In k1 (map fst (lang_table lang
                               (translationsByLang (aggregate csvFiles)))) ->
             In k2 (map fst (lang_table lang
                               (translationsByLang (aggregate csvFiles)))) ->
             k1 <> k2 -> is_prefix (key_path k1) (key_path k2) = false).
  { intros k1 k2 H1 H2. destruct (Hkeys k1 H1) as [v1 Hv1].
    destruct (Hkeys k2 H2) as [v2 Hv2]. exact (Hpre k1 v1 k2 v2 Hv1 Hv2). }
  split.
  - apply nestObject_plain_silent; [exact Hpl'|apply table_nodup|exact Hpre'].
  - apply flatten_nest_plain; [exact Hpl'|apply table_nodup|exact Hpre'].
Qed.

Lemma nestObject_silent_without_collisions_witness :
  snd (nestObject
         (lang_table "en"
            (translationsByLang
               (aggregate
                  [parsed_file "m.csv" ["key"; "en"]
                     [str_row [("key", "z"); ("en", "Z")];
                      str_row [("key", "b.c"); ("en", "C")]]]))))
  = []
  /\ Permutation
       (flattenObject
          (fst (nestObject
                  (lang_table "en"
                     (translationsByLang
                        (aggregate
                           [parsed_file "m.csv" ["key"; "en"]
                              [str_row [("key", "z"); ("en", "Z")];
                               str_row [("key", "b.c"); ("en", "C")]]]))))))
       (lang_table "en"
          (translationsByLang
             (aggregate
                [parsed_file "m.csv" ["key"; "en"]
                   [str_row [("key", "z"); ("en", "Z")];
                    str_row [("key", "b.c"); ("en", "C")]]]))).
Proof.
  assert (Hk : forall k v,
             translation
               (aggregate
                  [parsed_file "m.csv" ["key"; "en"]
                     [str_row [("key", "z"); ("en", "Z")];
                      str_row [("key", "b.c"); ("en", "C")]]])
               "en" k = Some v ->
             k = "m.z" \/ k = "m.b.c").
  { intros k v H. apply translation_in_table in H. vm_compute in H.
    destruct H as [H|[H|[]]]; injection H as <- _; [now left|now right]. }
  apply (nestObject_silent_without_collisions
           [parsed_file "m.csv" ["key"; "en"]
              [str_row [("key", "z"); ("en", "Z")];
               str_row [("key", "b.c"); ("en", "C")]]]
           "en").
  - reflexivity.
  - intros k v H. destruct (Hk k v H) as [->| ->]; reflexivity.
  - intros k1 v1 k2 v2 H1 H2 Hne.
    destruct (Hk k1 v1 H1) as [->| ->]; destruct (Hk k2 v2 H2) as [->| ->];
      try reflexivity; now elim Hne.
Defined.

(** ** The emitters *)

Lemma sortedLangData_fold_get (flat : JsObj.obj string) k l :
  forall o : JsObj.obj string,
  JsObj.get k
    (fold_left
       (fun o key =>
          match JsObj.get key flat with
          | Some v => JsObj.set key v o
          | None => o
          end) l o)
  = if in_dec string_dec k l
    then match JsObj.get k flat with
         | Some v => Some v
         | None => JsObj.get k o
         end
    else JsObj.get k o.
Proof.
  induction l as [|a l IH]; intros o; [reflexivity|].
  cbn [fold_left]. rewrite IH.
  assert (Hstep : k <> a ->
            JsObj.get k match JsObj.get a flat with
                        | Some v => JsObj.set a v o
                        | None => o
                        end = JsObj.get k o).
  { intros Hne. destruct (JsObj.get a flat); [|reflexivity].
    now apply get_set_other. }
  destruct (in_dec string_dec k l) as [Hl|Hl];
    destruct (in_dec string_dec k (a :: l)) as [Hal|Hal].
  - destruct (JsObj.get k flat) eqn:G; [reflexivity|].
    destruct (string_dec k a) as [->|Hne]; [now rewrite G|now apply Hstep].
  - exfalso. apply Hal. now right.
  - destruct Hal as [->|Hal]; [|contradiction].
    destruct (JsObj.get k flat) as [v|]; [apply get_set_same|reflexivity].
  - apply Hstep. intros ->. apply Hal. now left.
Qed.

Lemma sortedLangData_get (flat : JsObj.obj string) k :
  JsObj.get k (sortedLangData flat) = JsObj.get k flat.
Proof.
  unfold sortedLangData. rewrite sortedLangData_fold_get.
  destruct (in_dec string_dec k (JsString.sort (JsObj.keys flat))) as [Hin|Hin].
  - now destruct (JsObj.get k flat).
  - destruct (JsObj.get k flat) eqn:G; [|reflexivity].
    exfalso. apply Hin.
    eapply Permutation_in; [symmetry; apply sort_perm|].
    apply in_keys_iff. now rewrite G.
Qed.

(** X5.  The body of a language module (lines 238-242) maps every key to
    what the table of the language maps it to, and its properties are
    created in the sorted order of the keys of the table. *)
Theorem language_module_is_the_sorted_table (flatLangData : JsObj.obj string) :
  NoDup (map fst flatLangData) ->
  (forall k, JsObj.get k (sortedLangData flatLangData)
             = JsObj.get k flatLangData)
  /\ map fst (sortedLangData flatLangData)
     = JsString.sort (JsObj.keys flatLangData)
  /\ Sorted (fun a b => JsString.leb a b = true)
       (map fst (sortedLangData flatLangData)).
Proof.
  intros Hnd. split; [|now apply sortedLangData_keys].
  intros k. apply sortedLangData_get.
Qed.

Lemma language_module_is_the_sorted_table_witness :
  map fst (sortedLangData [("m.z", "Z"); ("10", "ten"); ("m.a", "A")])
  = ["10"; "m.a"; "m.z"]
  /\ JsObj.get "m.a" (sortedLangData [("m.z", "Z"); ("10", "ten"); ("m.a", "A")])
     = Some "A".
Proof.
  destruct (language_module_is_the_sorted_table
              [("m.z", "Z"); ("10", "ten"); ("m.a", "A")]) as (Hg & Hk & _).
  - repeat constructor; simpl; intuition discriminate.
  - split; [exact Hk|]. exact (Hg "m.a").
Defined.

Lemma keyObject_fold_keys l : forall o : JsObj.obj string,
  NoDup l ->
  (forall k, In k l -> JsObj.get k o = None) ->
  map fst (fold_left (fun o key => JsObj.set key key o) l o) = map fst o ++ l.
Proof.
  induction l as [|a l IH]; intros o Hnd Ho.
  - simpl. now rewrite app_nil_r.
  - cbn [fold_left]. inversion Hnd as [|? ? Hnotin Hnd']; subst.
    rewrite IH.
    + rewrite (set_absent a a o) by (apply Ho; now left).
      rewrite map_app, <- app_assoc. reflexivity.
    + exact Hnd'.
    + intros k Hk. rewrite get_set_other.
      * apply Ho. now right.
      * intros ->. contradiction.
Qed.

Lemma nodup_set_add k s : NoDup s -> NoDup (set_add k s).
Proof.
  intros H. unfold set_add.
  destruct (existsb (String.eqb k) s) eqn:E; [exact H|].
  apply NoDup_app; [exact H|repeat constructor; intros []|].
  intros x Hx [->|[]].
  assert (Ht : existsb (String.eqb x) s = true).
  { apply existsb_exists. exists x. split; [exact Hx|apply String.eqb_refl]. }
  congruence.
Qed.

Lemma allKeys_nodup_rows file base cols rows : forall i st,
  NoDup (allKeys st) ->
  NoDup (allKeys (process_rows file base cols i rows st)).
Proof.
  induction rows as [|r rows IH]; intros i st H; [exact H|].
  cbn [process_rows]. apply IH. rewrite allKeys_process_row.
  destruct (row_key r); [now apply nodup_set_add|exact H].
Qed.

(** The key set holds no key twice. *)
Lemma allKeys_nodup files : NoDup (allKeys (aggregate files)).
Proof.
  unfold aggregate.
  assert (H : NoDup (allKeys initial_state)) by constructor.
  revert H. generalize initial_state.
  induction files as [|f files IH]; intros st H; [exact H|].
  cbn [fold_left]. apply IH. unfold process_file.
  destruct (content f) as [|p]; [exact H|].
  assert (H1 : NoDup (allKeys
                        match errors p with
                        | [] => st
                        | _ :: _ =>
                            warn (ParseWarnings (csvFile f)
                                  :: map ParseWarning (errors p)) st
                        end)) by now destruct (errors p).
  destruct (fields p) as [fs|]; [|exact H1].
  apply allKeys_nodup_rows.
  now destruct (negb (truthy (baseKey (relativePath f))) && _).
Qed.

(** X6.  The registry object of a run (lines 217-221) holds the members of
    the key set and nothing else, each mapped to itself, and its properties
    are created in sorted order. *)
Theorem registry_is_the_sorted_key_set (csvFiles : list csv_file) :
  (forall k v,
      In (k, v) (keyObject (allKeys (aggregate csvFiles)))
      <-> v = k /\ In k (allKeys (aggregate csvFiles)))
  /\ map fst (keyObject (allKeys (aggregate csvFiles)))
     = JsString.sort (allKeys (aggregate csvFiles))
  /\ Sorted (fun a b => JsString.leb a b = true)
       (map fst (keyObject (allKeys (aggregate csvFiles)))).
Proof.
  assert (E : map fst (keyObject (allKeys (aggregate csvFiles)))
              = JsString.sort (allKeys (aggregate csvFiles))).
  { unfold keyObject. rewrite keyObject_fold_keys; [reflexivity| |reflexivity].
    eapply Permutation_NoDup; [symmetry; apply sort_perm|apply allKeys_nodup]. }
  split; [|split; [exact E|rewrite E; apply sort_sorted]].
  intros k v. split.
  - apply keyObject_in.
  - intros [-> Hk]. apply get_in. now apply keyObject_get.
Qed.

(** ** The aggregator *)

(** X7.  In a run whose headers and keys leave [Object.prototype] alone,
    the languages of the run, those whose files are handed to
    [fs.writeFile], are the fields of the headers of the parsed files whose
    lower case is not [key], and no other. *)
Theorem languages_are_the_header_columns (csvFiles : list csv_file)
    (lang : string) :
  ordinary csvFiles = true ->
  (In lang (languages_of (translationsByLang (aggregate csvFiles)))
   <-> exists f p fs,
       In f csvFiles /\ content f = Parsed p /\ fields p = Some fs
       /\ In lang fs /\ JsString.toLowerCase lang <> "key").
Proof.
  intros Ho. split.
  - intros H.
    destruct (language_is_a_column _ _ H) as (f & p & fs & Hf & Hc & Hfs & Hl).
    exists f, p, fs. unfold languageColumns in Hl. apply filter_In in Hl.
    destruct Hl as [Hin Hb]. repeat split; auto.
    intros E. rewrite E in Hb. discriminate.
  - intros (f & p & fs & Hf & Hc & Hfs & Hin & Hne).
    apply (language_of_header _ f p fs); auto.
    + unfold languageColumns. apply filter_In. split; [exact Hin|].
      apply String.eqb_neq in Hne. now rewrite Hne.
    + exact (ordinary_header csvFiles f p fs lang Ho Hf Hc Hfs Hin).
Qed.

Lemma languages_are_the_header_columns_witness :
  In "fr"
     (languages_of
        (translationsByLang
           (aggregate [parsed_file "common.csv" ["KEY"; "fr"] []])))
  /\ ~ In "KEY"
        (languages_of
           (translationsByLang
              (aggregate [parsed_file "common.csv" ["KEY"; "fr"] []]))).
Proof.
  split.
  - apply (proj2 (languages_are_the_header_columns
                    [parsed_file "common.csv" ["KEY"; "fr"] []]
                    "fr" eq_refl)).
    exists (parsed_file "common.csv" ["KEY"; "fr"] []),
      {| errors := []; fields := Some ["KEY"; "fr"]; data := [] |},
      ["KEY"; "fr"].
    repeat split; try reflexivity; try discriminate.
    + now left.
    + right. now left.
  - intros H.
    apply (proj1 (languages_are_the_header_columns
                    [parsed_file "common.csv" ["KEY"; "fr"] []]
                    "KEY" eq_refl)) in H.
    destruct H as (f & p & fs & _ & _ & _ & _ & Hn). now apply Hn.
Defined.

Lemma set_add_inv k x s : In x (set_add k s) -> x = k \/ In x s.
Proof.
  unfold set_add. destruct (existsb (String.eqb k) s); [now right|].
  intros H. apply in_app_or in H. destruct H as [H|[H|[]]]; auto.
Qed.

Lemma allKeys_process_rows_inv file base cols rows : forall i st k,
  In k (allKeys (process_rows file base cols i rows st)) ->
  In k (allKeys st)
  \/ exists r key, In r rows /\ row_key r = Some key /\ k = fullKey base key.
Proof.
  induction rows as [|r rows IH]; intros i st k H; [now left|].
  cbn [process_rows] in H.
  destruct (IH _ _ _ H) as [H'|(r' & key & Hr & Hk & E)].
  - rewrite allKeys_process_row in H'.
    destruct (row_key r) as [key|] eqn:Hk; [|now left].
    destruct (set_add_inv _ _ _ H') as [->|H'']; [|now left].
    right. exists r, key. repeat split; auto. now left.
  - right. exists r', key. repeat split; auto. now right.
Qed.

Lemma allKeys_process_file_inv st f k :
  In k (allKeys (process_file st f)) ->
  In k (allKeys st)
  \/ exists p fs r key,
      content f = Parsed p /\ fields p = Some fs /\ In r (data p)
      /\ row_key r = Some key /\ k = fullKey (baseKey (relativePath f)) key.
Proof.
  unfold process_file. destruct (content f) as [|p]; [now left|].
  assert (H1 : allKeys
                 match errors p with
                 | [] => st
                 | _ :: _ =>
                     warn (ParseWarnings (csvFile f)
                           :: map ParseWarning (errors p)) st
                 end = allKeys st) by now destruct (errors p).
  destruct (fields p) as [fs|] eqn:Hfs.
  - intros H. apply allKeys_process_rows_inv in H.
    destruct H as [H|(r & key & Hr & Hk & E)].
    + left. rewrite <- H1.
      now destruct (negb (truthy (baseKey (relativePath f))) && _).
    + right. exists p, fs, r, key. repeat split; auto.
  - cbn [warn allKeys]. rewrite H1. now left.
Qed.

(** X8.  The key set of a run holds the fully qualified keys of the
    surviving rows of the parsed files, and nothing else. *)
Theorem key_set_is_the_keys_of_the_rows (csvFiles : list csv_file)
    (k : string) :
  In k (allKeys (aggregate csvFiles))
  <-> exists f p fs r key,
      In f csvFiles /\ content f = Parsed p /\ fields p = Some fs
      /\ In r (data p) /\ row_key r = Some key
      /\ k = fullKey (baseKey (relativePath f)) key.
Proof.
  split.
  - unfold aggregate.
    assert (Hgen : forall files st,
               In k (allKeys (fold_left process_file files st)) ->
               In k (allKeys st)
               \/ exists f p fs r key,
                   In f files /\ content f = Parsed p /\ fields p = Some fs
                   /\ In r (data p) /\ row_key r = Some key
                   /\ k = fullKey (baseKey (relativePath f)) key).
    { induction files as [|f files IH]; intros st Hst; [now left|].
      cbn [fold_left] in Hst.
      destruct (IH _ Hst) as [H'|(f' & p & fs & r & key & Hf & H')].
      - destruct (allKeys_process_file_inv _ _ _ H')
          as [H''|(p & fs & r & key & H'')]; [now left|].
        right. exists f, p, fs, r, key. split; [now left|exact H''].
      - right. exists f', p, fs, r, key. split; [now right|exact H']. }
    intros H. destruct (Hgen _ _ H) as [[]|H']. exact H'.
  - intros (f & p & fs & r & key & Hf & Hc & Hfs & Hr & Hk & ->).
    eapply allKeys_aggregate_adds; eauto.
Qed.

Lemma last_cons_default {A : Type} (x d : A) (l : list A) :
  last (x :: l) d = last l x.
Proof.
  revert x d. induction l as [|y l IH]; intros x d; [reflexivity|].
  change (last (x :: y :: l) d) with (last (y :: l) d).
  now rewrite (IH y d), (IH y x).
Qed.

Lemma last_app_default {A : Type} (l1 l2 : list A) (d : A) :
  last (l1 ++ l2) d = last l2 (last l1 d).
Proof.
  revert d. induction l1 as [|x l1 IH]; intros d; [reflexivity|].
  rewrite <- app_comm_cons, !last_cons_default. apply IH.
Qed.

Lemma fst_redefine_fold_last lang k file ds : forall acc,
  fst (fold_left (redefine lang k file) ds acc)
  = last (map (fun d => Some (snd d)) ds) (fst acc).
Proof.
  induction ds as [|d ds IH]; intros acc; [reflexivity|].
  cbn [fold_left map]. rewrite IH, last_cons_default. reflexivity.
Qed.

Lemma fst_replay_fold_last lang k files : forall acc,
  fst (fold_left (replay lang k) files acc)
  = last (map (fun d => Some (snd d)) (definitions files lang k)) (fst acc).
Proof.
  unfold definitions.
  induction files as [|f files IH]; intros acc; [reflexivity|].
  cbn [fold_left flat_map]. rewrite IH, map_app, last_app_default.
  unfold replay. now rewrite fst_redefine_fold_last.
Qed.

Lemma redefine_fold_changes lang k file ds : forall cur dl,
  (forall old, cur = Some old -> truthy old = true) ->
  Forall (fun d : nat * string => truthy (snd d) = true) ds ->
  List.length (snd (fold_left (redefine lang k file) ds (cur, dl)))
  = List.length dl + changes_from cur (map snd ds).
Proof.
  induction ds as [|[n v] ds IH]; intros cur dl Hcur Hall.
  - simpl. lia.
  - inversion Hall as [|? ? Hv Hall']; subst. cbn [snd] in Hv.
    cbn [fold_left map changes_from snd]. unfold redefine at 2.
    cbn [fst snd]. rewrite IH.
    + rewrite length_app. destruct cur as [old|]; [|simpl; lia].
      rewrite (Hcur old eq_refl).
      destruct (String.eqb old v); simpl; lia.
    + intros old E. injection E as <-. exact Hv.
    + exact Hall'.
Qed.

Lemma defines_all_truthy f lang k :
  Forall (fun d : nat * string => truthy (snd d) = true) (defines f lang k).
Proof.
  apply Forall_forall. intros [n v] H. now apply (defines_truthy f lang k n).
Qed.

Lemma fst_redefine_fold_truthy lang k file ds : forall acc,
  (forall old, fst acc = Some old -> truthy old = true) ->
  Forall (fun d : nat * string => truthy (snd d) = true) ds ->
  forall old, fst (fold_left (redefine lang k file) ds acc) = Some old ->
              truthy old = true.
Proof.
  induction ds as [|d ds IH]; intros acc Hacc Hall; [exact Hacc|].
  inversion Hall as [|? ? Hv Hall']; subst.
  cbn [fold_left]. apply IH; [|exact Hall'].
  intros old E. cbn in E. injection E as <-. exact Hv.
Qed.

Lemma changes_from_app l1 : forall cur l2,
  changes_from cur (l1 ++ l2)
  = changes_from cur l1 + changes_from (last (map Some l1) cur) l2.
Proof.
  induction l1 as [|v l1 IH]; intros cur l2; [reflexivity|].
  cbn [app map changes_from]. rewrite IH, last_cons_default. lia.
Qed.

Lemma replay_fold_changes lang k files : forall cur dl,
  (forall old, cur = Some old -> truthy old = true) ->
  List.length (snd (fold_left (replay lang k) files (cur, dl)))
  = List.length dl + changes_from cur (map snd (definitions files lang k)).
Proof.
  unfold definitions.
  induction files as [|f files IH]; intros cur dl Hcur.
  - simpl. lia.
  - cbn [fold_left flat_map]. unfold replay at 2.
    pose proof (redefine_fold_changes lang k (csvFile f) (defines f lang k)
                  cur dl Hcur (defines_all_truthy f lang k)) as Hlen.
    pose proof (fst_redefine_fold_last lang k (csvFile f) (defines f lang k)
                  (cur, dl)) as Hfst.
    pose proof (fst_redefine_fold_truthy lang k (csvFile f) (defines f lang k)
                  (cur, dl) Hcur (defines_all_truthy f lang k)) as Htr.
    destruct (fold_left (redefine lang k (csvFile f)) (defines f lang k)
                (cur, dl)) as [cur' dl'].
    cbn [fst snd] in *. rewrite (IH cur' dl' Htr).
    rewrite Hlen, map_app, changes_from_app, map_map, Hfst. lia.
Qed.

(** X9.  Last writer wins, whatever the number of files and rows.  In a run
    whose headers and keys leave [Object.prototype] alone, at the end the
    table holds under (lang, k) the last value that any discovered file
    defines for the pair, and nothing when no file defines one; and the run
    logs one duplicate-key warning about the pair for each definition whose
    value differs from that of the definition before it. *)
Theorem last_definition_wins (writable : string -> bool) (fmt : format)
    (csvFiles : list csv_file) (lang k : string) :
  ordinary csvFiles = true ->
  translation (aggregate csvFiles) lang k
  = last (map (fun d => Some (snd d)) (definitions csvFiles lang k)) None
  /\ List.length
       (duplicates lang k (snd (convertCsvToTs writable fmt csvFiles)))
     = changes_from None (map snd (definitions csvFiles lang k)).
Proof.
  intros _.
  pose proof (view_aggregate lang k csvFiles initial_state) as Hv.
  fold (aggregate csvFiles) in Hv. split.
  - apply (f_equal fst) in Hv. unfold view at 1 in Hv. cbn [fst] in Hv.
    rewrite Hv. apply fst_replay_fold_last.
  - destruct csvFiles as [|f files]; [reflexivity|].
    rewrite duplicates_run by discriminate.
    apply (f_equal snd) in Hv. unfold view at 1 in Hv. cbn [snd] in Hv.
    rewrite Hv. unfold view, initial_state, translation.
    cbn [translationsByLang log duplicates filter JsObj.get JsObj.empty].
    rewrite replay_fold_changes by discriminate. reflexivity.
Qed.

Lemma last_definition_wins_witness :
  translation
    (aggregate
       [parsed_file "a.csv" ["key"; "en"]
          [str_row [("key", "k"); ("en", "one")];
           str_row [("key", "k"); ("en", "two")]];
        parsed_file "a.CSV" ["key"; "en"]
          [str_row [("key", "k"); ("en", "two")];
           str_row [("key", "k"); ("en", "three")]]])
    "en" "a.k"
  = Some "three"
  /\ List.length
       (duplicates "en" "a.k"
          (snd (convertCsvToTs all_writable i18next
                  [parsed_file "a.csv" ["key"; "en"]
                     [str_row [("key", "k"); ("en", "one")];
                      str_row [("key", "k"); ("en", "two")]];
                   parsed_file "a.CSV" ["key"; "en"]
                     [str_row [("key", "k"); ("en", "two")];
                      str_row [("key", "k"); ("en", "three")]]])))
     = 2.
Proof.
  exact (last_definition_wins all_writable i18next
           [parsed_file "a.csv" ["key"; "en"]
              [str_row [("key", "k"); ("en", "one")];
               str_row [("key", "k"); ("en", "two")]];
            parsed_file "a.CSV" ["key"; "en"]
              [str_row [("key", "k"); ("en", "two")];
               str_row [("key", "k"); ("en", "three")]]]
           "en" "a.k" eq_refl).
Defined.

Lemma skips_write_cells file n fk r cols : forall st,
  filter is_skip (log (fold_left (write_cell file n fk r) cols st))
  = filter is_skip (log st).
Proof.
  induction cols as [|c cols IH]; intros st; [reflexivity|].
  cbn [fold_left]. rewrite IH. unfold write_cell.
  destruct (JsObj.get c r) as [[|value]|]; try reflexivity.
  destruct (String.eqb value EmptyString); [reflexivity|].
  cbn [log]. rewrite filter_app.
  destruct (JsObj.get fk _) as [old|]; [|now rewrite app_nil_r].
  destruct (truthy old); [|now rewrite app_nil_r].
  destruct (String.eqb old value); now rewrite app_nil_r.
Qed.

Lemma skips_process_rows file base cols rows : forall i st,
  filter is_skip (log (process_rows file base cols i rows st))
  = filter is_skip (log st) ++ rows_skipped file i rows.
Proof.
  induction rows as [|r rows IH]; intros i st.
  - simpl. now rewrite app_nil_r.
  - cbn [process_rows rows_skipped]. rewrite IH. unfold process_row.
    destruct (row_key r) as [key|].
    + cbn [log app]. now rewrite skips_write_cells.
    + cbn [warn log]. rewrite filter_app, <- app_assoc. reflexivity.
Qed.

Lemma skips_process_file st f :
  filter is_skip (log (process_file st f))
  = filter is_skip (log st) ++ file_skipped f.
Proof.
  unfold process_file, file_skipped.
  destruct (content f) as [|p].
  - cbn [warn log]. rewrite filter_app. reflexivity.
  - assert (H1 : filter is_skip
                   (log match errors p with
                        | [] => st
                        | _ :: _ =>
                            warn (ParseWarnings (csvFile f)
                                  :: map ParseWarning (errors p)) st
                        end)
                 = filter is_skip (log st)).
    { destruct (errors p) as [|e es]; [reflexivity|].
      cbn [warn log]. rewrite filter_app. cbn [filter is_skip].
      rewrite <- (app_nil_r (filter is_skip (log st))) at 2. f_equal.
      induction (e :: es) as [|e' es' IHe]; [reflexivity|exact IHe]. }
    destruct (fields p) as [fs|].
    + rewrite skips_process_rows. f_equal. rewrite <- H1.
      match goal with
      | |- filter _ (log (if ?b then _ else _)) = _ => destruct b
      end; cbn [warn log]; [|reflexivity].
      rewrite filter_app. apply app_nil_r.
    + cbn [warn log]. rewrite filter_app, H1. reflexivity.
Qed.

Lemma skips_aggregate files : forall st,
  filter is_skip (log (fold_left process_file files st))
  = filter is_skip (log st) ++ flat_map file_skipped files.
Proof.
  induction files as [|f files IH]; intros st.
  - simpl. now rewrite app_nil_r.
  - cbn [fold_left flat_map]. rewrite IH, skips_process_file.
    now rewrite app_assoc.
Qed.

(** X10.  Every row without a usable key ([undefined], not a string, empty
    or blank) is reported once, with its index plus two as row number and
    the path of its file, in the order of the files and rows; no other row
    is reported as skipped. *)
Theorem skipped_rows_are_reported (writable : string -> bool) (fmt : format)
    (csvFiles : list csv_file) :
  filter is_skip (snd (convertCsvToTs writable fmt csvFiles))
  = flat_map file_skipped csvFiles.
Proof.
  destruct csvFiles as [|f files]; [reflexivity|].
  rewrite filter_run by (reflexivity || discriminate).
  pose proof (skips_aggregate (f :: files) initial_state) as Hagg.
  exact Hagg.
Qed.

Lemma same_data_write_cells file n fk r cols : forall st1 st2,
  same_data st1 st2 ->
  same_data (fold_left (write_cell file n fk r) cols st1)
            (fold_left (write_cell file n fk r) cols st2).
Proof.
  induction cols as [|c cols IH]; intros st1 st2 H; [exact H|].
  cbn [fold_left]. apply IH. destruct H as [Ht Ha]. unfold write_cell.
  destruct (JsObj.get c r) as [[|value]|]; try (now split).
  destruct (String.eqb value EmptyString); [now split|].
  split; cbn [translationsByLang allKeys]; [now rewrite Ht|exact Ha].
Qed.

Lemma same_data_process_rows file base cols rows : forall i st1 st2,
  same_data st1 st2 ->
  same_data (process_rows file base cols i rows st1)
            (process_rows file base cols i rows st2).
Proof.
  induction rows as [|r rows IH]; intros i st1 st2 H; [exact H|].
  cbn [process_rows]. apply IH. unfold process_row.
  destruct (row_key r) as [key|]; [|exact H].
  destruct (same_data_write_cells file (i + 2) (fullKey base key) r cols
              st1 st2 H) as [Ht Ha].
  split; cbn [translationsByLang allKeys]; [exact Ht|now rewrite Ha].
Qed.

Lemma same_data_warn ds st : same_data (warn ds st) st.
Proof. now split. Qed.

Lemma same_data_trans st1 st2 st3 :
  same_data st1 st2 -> same_data st2 st3 -> same_data st1 st3.
Proof. intros [H1 H2] [H3 H4]. split; congruence. Qed.

Lemma same_data_sym st1 st2 : same_data st1 st2 -> same_data st2 st1.
Proof. intros [H1 H2]. now split. Qed.

Lemma same_data_process_file st1 st2 f :
  same_data st1 st2 -> same_data (process_file st1 f) (process_file st2 f).
Proof.
  intros H. unfold process_file.
  destruct (content f) as [|p].
  - eapply same_data_trans; [apply same_data_warn|].
    eapply same_data_trans; [exact H|]. apply same_data_sym, same_data_warn.
  - assert (H1 : forall st,
               same_data
                 match errors p with
                 | [] => st
                 | _ :: _ =>
                     warn (ParseWarnings (csvFile f)
                           :: map ParseWarning (errors p)) st
                 end st).
    { intros st. destruct (errors p); now split. }
    assert (H2 : same_data
                   match errors p with
                   | [] => st1
                   | _ :: _ =>
                       warn (ParseWarnings (csvFile f)
                             :: map ParseWarning (errors p)) st1
                   end
                   match errors p with
                   | [] => st2
                   | _ :: _ =>
                       warn (ParseWarnings (csvFile f)
                             :: map ParseWarning (errors p)) st2
                   end).
    { eapply same_data_trans; [apply H1|].
      eapply same_data_trans; [exact H|]. apply same_data_sym, H1. }
    destruct (fields p) as [fs|].
    + apply same_data_process_rows. destruct H2 as [Ht Ha].
      destruct (negb (truthy (baseKey (relativePath f))) && _);
        split; cbn [warn translationsByLang allKeys]; congruence.
    + eapply same_data_trans; [apply same_data_warn|].
      eapply same_data_trans; [exact H2|]. apply same_data_sym, same_data_warn.
Qed.

Lemma same_data_aggregate files : forall st1 st2,
  same_data st1 st2 ->
  same_data (fold_left process_file files st1) (fold_left process_file files st2).
Proof.
  induction files as [|f files IH]; intros st1 st2 H; [exact H|].
  cbn [fold_left]. now apply IH, same_data_process_file.
Qed.

Lemma same_data_unusable st f : unusable f -> same_data (process_file st f) st.
Proof.
  intros [H|(p & Hc & Hf)]; unfold process_file; rewrite ?H, ?Hc, ?Hf.
  - apply same_data_warn.
  - eapply same_data_trans; [apply same_data_warn|].
    destruct (errors p); now split.
Qed.

(** The files written are read off the table and the key set. *)
Lemma run_outputs_of writable fmt files :
  fst (convertCsvToTs writable fmt files)
  = outputs_of writable fmt (aggregate files).
Proof. destruct files as [|f files]; [reflexivity|apply run_outputs]. Qed.

Lemma outputs_of_same_data writable fmt st1 st2 :
  same_data st1 st2 -> outputs_of writable fmt st1 = outputs_of writable fmt st2.
Proof.
  intros [Ht Ha]. unfold outputs_of, attempts, registry_file, language_file.
  now rewrite Ht, Ha.
Qed.

(** X11.  A discovered file that cannot be read or parsed, or whose header
    fields cannot be determined, is skipped: the run writes the files it
    writes without it. *)
Theorem unusable_file_changes_no_output (writable : string -> bool)
    (fmt : format) (pre post : list csv_file) (f : csv_file) :
  unusable f ->
  fst (convertCsvToTs writable fmt (pre ++ f :: post))
  = fst (convertCsvToTs writable fmt (pre ++ post)).
Proof.
  intros Hf. rewrite !run_outputs_of. apply outputs_of_same_data.
  unfold aggregate. rewrite !fold_left_app. cbn [fold_left].
  apply same_data_aggregate, same_data_unusable, Hf.
Qed.

Lemma unusable_file_changes_no_output_witness :
  fst (convertCsvToTs all_writable typescript
         ([parsed_file "a.csv" ["key"; "en"]
             [str_row [("key", "k"); ("en", "v")]]]
          ++ {| csvFile := "/in/b.csv"; relativePath := "b.csv";
                content := Throws |}
          :: [{| csvFile := "/in/c.csv"; relativePath := "c.csv";
                 content := Parsed {| errors := []; fields := None;
                                      data := [] |} |}]))
  = [("key.ts", TsModule [("a.k", "a.k")]);
     ("en.ts", TsModule [("a.k", "v")])].
Proof.
  rewrite (unusable_file_changes_no_output all_writable typescript
             [parsed_file "a.csv" ["key"; "en"]
                [str_row [("key", "k"); ("en", "v")]]]
             [{| csvFile := "/in/c.csv"; relativePath := "c.csv";
                 content := Parsed {| errors := []; fields := None;
                                      data := [] |} |}]
             {| csvFile := "/in/b.csv"; relativePath := "b.csv";
                content := Throws |}).
  - reflexivity.
  - now left.
Defined.

(** ** Discovery *)

Lemma str_app_assoc (a b c : string) :
  ((a ++ b) ++ c)%string = (a ++ (b ++ c))%string.
Proof. induction a as [|x a IH]; simpl; [reflexivity|now rewrite IH]. Qed.

Lemma str_length_app (a b : string) :
  String.length (a ++ b) = String.length a + String.length b.
Proof. induction a as [|x a IH]; simpl; [reflexivity|now rewrite IH]. Qed.

Lemma length_substring_le (p : string) : forall d m,
  String.length (substring d m p) + d <= String.length p
  \/ substring d m p = EmptyString.
Proof.
  induction p as [|a p IH]; intros d m.
  - right. now destruct d, m.
  - destruct d as [|d].
    + destruct m as [|m]; [now right|]. left. simpl.
      destruct (IH 0 m) as [H|H]; [lia|rewrite H; simpl; lia].
    + simpl. destruct (IH d m) as [H|H]; [left; lia|now right].
Qed.

Lemma length_toLowerCase_le : forall n s,
  String.length s <= n ->
  String.length (JsString.toLowerCase s) <= String.length s.
Proof.
  induction n as [|n IH]; intros s Hn.
  - destruct s; [simpl; lia|simpl in Hn; lia].
  - destruct s as [|a s]; [simpl; lia|].
    destruct s as [|b s]; [simpl; lia|].
    destruct s as [|c s].
    + simpl. lia.
    + simpl in Hn.
      change (JsString.toLowerCase (String a (String b (String c s))))
        with (if ((N_of_ascii a =? 226) && (N_of_ascii b =? 132)
                  && (N_of_ascii c =? 170))%N
              then String "k" (JsString.toLowerCase s)
              else String (JsString.ascii_lower a)
                     (JsString.toLowerCase (String b (String c s)))).
      destruct ((N_of_ascii a =? 226) && (N_of_ascii b =? 132)
                && (N_of_ascii c =? 170))%N.
      * pose proof (IH s ltac:(lia)). simpl. lia.
      * pose proof (IH (String b (String c s)) ltac:(simpl; lia)) as H.
        simpl String.length in *. lia.
Qed.

(** Whatever stands before the last dot was met at a smaller index. *)
Lemma extname_loop_dot rs : forall st,
  (forall d, startDot st = Some d -> List.length rs <= d) ->
  (preDotState st <> NothingBefore ->
   exists d, startDot st = Some d /\ 1 <= d) ->
  preDotState (extname_loop rs st) <> NothingBefore ->
  exists d, startDot (extname_loop rs st) = Some d /\ 1 <= d.
Proof.
  induction rs as [|c rs IH]; intros st Hd Hp; [exact Hp|].
  cbn [extname_loop]. cbn [List.length] in Hd.
  destruct (Ascii.eqb c "/").
  - destruct (matchedSlash st).
    + apply IH; [|exact Hp]. intros d E. specialize (Hd d E). lia.
    + exact Hp.
  - set (st1 := match endPart st with
                 | None => _
                 | Some _ => st
                 end).
    assert (Hs1 : startDot st1 = startDot st)
      by (unfold st1; now destruct (endPart st)).
    assert (Hp1 : preDotState st1 = preDotState st)
      by (unfold st1; now destruct (endPart st)).
    clearbody st1. rewrite ?Hs1, ?Hp1.
    destruct (Ascii.eqb c "."); destruct (startDot st) as [d0|] eqn:E0;
      apply IH; cbn [startDot preDotState].
    + intros d E. injection E as <-. specialize (Hd d0 eq_refl). lia.
    + intros _. exists d0. split; [reflexivity|].
      specialize (Hd d0 eq_refl). lia.
    + intros d E. injection E as <-. lia.
    + intros H. rewrite ?Hp1 in H. destruct (Hp H) as (d & E & _).
      discriminate.
    + intros d E. injection E as <-. specialize (Hd d0 eq_refl). lia.
    + intros _. exists d0. split; [reflexivity|].
      specialize (Hd d0 eq_refl). lia.
    + intros d E. rewrite ?Hs1, ?E0 in E. discriminate.
    + intros H. rewrite ?Hp1 in H. destruct (Hp H) as (d & E & _).
      discriminate.
Qed.

(** A name with the extension [.csv], in any case, has a character before
    the dot. *)
Lemma extname_csv_length (p : string) :
  JsString.toLowerCase (extname p) = ".csv" -> 5 <= String.length p.
Proof.
  unfold extname.
  set (st0 := {| startDot := None; startPart := 0; endPart := None;
                 matchedSlash := true; preDotState := NothingBefore |}).
  pose proof (extname_loop_dot (rev (list_ascii_of_string p)) st0) as Hdot.
  set (st := extname_loop (rev (list_ascii_of_string p)) st0) in *.
  assert (Hsub : forall d e,
             startDot st = Some d -> preDotState st <> NothingBefore ->
             JsString.toLowerCase (substring d (e - d) p) = ".csv" ->
             5 <= String.length p).
  { intros d e Hd Hp H.
    destruct Hdot as (d' & Hd' & Hge); [discriminate|intros H0; now elim H0|exact Hp|].
    rewrite Hd in Hd'. injection Hd' as <-.
    pose proof (length_toLowerCase_le _ _ (le_n (String.length (substring d (e - d) p))))
      as Hlen.
    rewrite H in Hlen. simpl in Hlen.
    destruct (length_substring_le p d (e - d)) as [Hs|Hs]; [lia|].
    rewrite Hs in Hlen. simpl in Hlen. lia. }
  destruct (startDot st) as [d|] eqn:Ed; [|discriminate].
  destruct (endPart st) as [e|]; [|discriminate].
  destruct (preDotState st) eqn:Ep; [discriminate| |].
  - destruct (Nat.eqb d (e - 1) && Nat.eqb d (S (startPart st)));
      [discriminate|].
    apply (Hsub d e eq_refl). discriminate.
  - apply (Hsub d e eq_refl). discriminate.
Qed.

Lemma path_join_prefix dir name :
  path_join dir name = (dir_prefix dir ++ name)%string.
Proof.
  unfold path_join, dir_prefix. destruct (String.eqb dir "/"); [reflexivity|].
  now rewrite str_app_assoc.
Qed.

Lemma dir_prefix_join dir name :
  exists x, dir_prefix (path_join dir name) = (dir_prefix dir ++ x)%string.
Proof.
  unfold dir_prefix at 1. destruct (String.eqb (path_join dir name) "/") eqn:E.
  - apply String.eqb_eq in E. exists name. now rewrite <- path_join_prefix.
  - exists (name ++ "/")%string.
    now rewrite path_join_prefix, str_app_assoc.
Qed.

(** Every path found starts with the directory searched, and what follows
    has five characters or more. *)
Lemma find_in_entry_below : forall (d : dirent) (dir p : string),
  In p (fst (find_in_entry dir d)) ->
  exists rel, p = (dir_prefix dir ++ rel)%string /\ 5 <= String.length rel.
Proof.
  fix IH 1. intros [name|name [ds|]|name] dir p H.
  - cbn [find_in_entry] in H.
    destruct (String.eqb (JsString.toLowerCase (extname name)) ".csv") eqn:E;
      [|destruct H].
    destruct H as [<-|[]]. exists name. split; [apply path_join_prefix|].
    apply extname_csv_length. now apply String.eqb_eq.
  - cbn [find_in_entry] in H.
    destruct (dir_prefix_join dir name) as [x Hx].
    induction ds as [|d' ds IHds]; [destruct H|].
    cbn [fst] in H. apply in_app_or in H. destruct H as [H|H].
    + destruct (IH d' _ _ H) as (rel & -> & Hlen).
      exists (x ++ rel)%string. split.
      * now rewrite Hx, str_app_assoc.
      * rewrite str_length_app. lia.
    + now apply IHds.
  - destruct H.
  - destruct H.
Qed.

Lemma findCsvFiles_below dir listing p :
  In p (fst (findCsvFiles dir listing)) ->
  exists rel, p = (dir_prefix dir ++ rel)%string /\ 5 <= String.length rel.
Proof.
  destruct listing as [ds|]; [|intros []]. cbn [findCsvFiles].
  induction ds as [|d ds IH]; [intros []|].
  cbn [fold_right fst]. intros H. apply in_app_or in H.
  destruct H as [H|H]; [now apply (find_in_entry_below d)|now apply IH].
Qed.

Lemma strip_prefix_app pre rest :
  strip_prefix pre (pre ++ rest) = Some rest.
Proof.
  induction pre as [|a pre IH]; [reflexivity|].
  simpl. now rewrite Ascii.eqb_refl.
Qed.

Lemma length_replace_all c d s :
  String.length (JsString.replace_all c d s) = String.length s.
Proof. induction s as [|a s IH]; simpl; [reflexivity|now rewrite IH]. Qed.

Lemma length_strip_csv s :
  String.length s <= String.length (JsString.strip_csv s) + 4.
Proof.
  induction s as [|a s IH]; [simpl; lia|].
  cbn [JsString.strip_csv].
  destruct (JsString.is_csv_ext (String a s)) eqn:E.
  - unfold JsString.is_csv_ext in E.
    destruct s as [|b [|c [|d [|e s]]]]; try discriminate. simpl. lia.
  - simpl String.length. lia.
Qed.

(** A relative path of five characters or more has a base key. *)
Lemma baseKey_truthy rel : 5 <= String.length rel -> truthy (baseKey rel) = true.
Proof.
  intros H. rewrite baseKey_is_base_namespace. unfold base_namespace, truthy.
  pose proof (length_strip_csv (JsString.replace_all "\" "/" rel)) as Hs.
  rewrite length_replace_all in Hs.
  destruct (JsString.replace_all "/" "."
              (JsString.strip_csv (JsString.replace_all "\" "/" rel)))
    as [|a s] eqn:E; [|reflexivity].
  apply (f_equal String.length) in E. rewrite length_replace_all in E.
  simpl in E. lia.
Qed.

Lemma no_prefix_process_rows file base cols rows : forall i st,
  filter is_no_prefix (log (process_rows file base cols i rows st))
  = filter is_no_prefix (log st).
Proof.
  induction rows as [|r rows IH]; intros i st; [reflexivity|].
  cbn [process_rows]. rewrite IH. unfold process_row.
  destruct (row_key r) as [key|].
  - cbn [log]. generalize st. clear.
    induction cols as [|c cols IHc]; intros st; [reflexivity|].
    cbn [fold_left]. rewrite IHc. unfold write_cell.
    destruct (JsObj.get c r) as [[|value]|]; try reflexivity.
    destruct (String.eqb value EmptyString); [reflexivity|].
    cbn [log]. rewrite filter_app.
    destruct (JsObj.get _ _) as [old|]; [|now rewrite app_nil_r].
    destruct (truthy old); [|now rewrite app_nil_r].
    destruct (String.eqb old value); now rewrite app_nil_r.
  - cbn [warn log]. rewrite filter_app. apply app_nil_r.
Qed.

Lemma no_prefix_aggregate files : forall st,
  (forall f, In f files -> truthy (baseKey (relativePath f)) = true) ->
  filter is_no_prefix (log (fold_left process_file files st))
  = filter is_no_prefix (log st).
Proof.
  induction files as [|f files IH]; intros st H; [reflexivity|].
  cbn [fold_left]. rewrite IH by (intros f' Hf'; apply H; now right).
  unfold process_file. destruct (content f) as [|p].
  - cbn [warn log]. rewrite filter_app. apply app_nil_r.
  - assert (H1 : filter is_no_prefix
                   (log match errors p with
                        | [] => st
                        | _ :: _ =>
                            warn (ParseWarnings (csvFile f)
                                  :: map ParseWarning (errors p)) st
                        end)
                 = filter is_no_prefix (log st)).
    { destruct (errors p) as [|e es]; [reflexivity|].
      cbn [warn log]. rewrite filter_app. cbn [filter is_no_prefix].
      rewrite <- (app_nil_r (filter is_no_prefix (log st))) at 2. f_equal.
      induction (e :: es) as [|e' es' IHe]; [reflexivity|exact IHe]. }
    destruct (fields p) as [fs|].
    + rewrite no_prefix_process_rows, (H f) by now left.
      cbn [negb andb log]. exact H1.
    + cbn [warn log]. rewrite filter_app, H1. apply app_nil_r.
Qed.

Lemma no_prefix_emitters writable fmt files :
  filter is_no_prefix (snd (convertCsvToTs writable fmt files))
  = filter is_no_prefix (log (aggregate files)).
Proof.
  destruct files as [|f files]; [reflexivity|].
  now apply filter_run.
Qed.

(** X12.  Every file that [findCsvFiles] finds lies below the directory
    searched, and the base key of its path relative to that directory is
    not empty; so a run over the files found never gives the warning of
    lines 115-117, that a file has no path prefix for its keys. *)
Theorem found_files_have_a_base_key (inputDir : string)
    (listing : option (list dirent)) :
  (forall p,
      In p (fst (findCsvFiles inputDir listing)) ->
      exists rel,
        p = (dir_prefix inputDir ++ rel)%string
        /\ path_relative inputDir p = rel
        /\ truthy (baseKey rel) = true)
  /\ forall writable fmt read file,
      ~ In (NoFilePrefix file)
          (snd (convertCsvToTs writable fmt
                  (discovered inputDir listing read))).
Proof.
  assert (H : forall p,
             In p (fst (findCsvFiles inputDir listing)) ->
             exists rel,
               p = (dir_prefix inputDir ++ rel)%string
               /\ path_relative inputDir p = rel
               /\ truthy (baseKey rel) = true).
  { intros p Hp. destruct (findCsvFiles_below _ _ _ Hp) as (rel & -> & Hlen).
    exists rel. split; [reflexivity|]. split.
    - unfold path_relative. now rewrite strip_prefix_app.
    - now apply baseKey_truthy. }
  split; [exact H|].
  intros writable fmt read file Hin.
  assert (Hf : filter is_no_prefix
                 (snd (convertCsvToTs writable fmt
                         (discovered inputDir listing read)))
               = []).
  { rewrite no_prefix_emitters. unfold aggregate.
    rewrite no_prefix_aggregate; [reflexivity|].
    intros f Hfin. unfold discovered in Hfin. apply in_map_iff in Hfin.
    destruct Hfin as (p & <- & Hp). cbn [relativePath].
    destruct (H p Hp) as (rel & _ & -> & Ht). exact Ht. }
  assert (Hin' : In (NoFilePrefix file)
                   (filter is_no_prefix
                      (snd (convertCsvToTs writable fmt
                              (discovered inputDir listing read))))).
  { apply filter_In. now split. }
  rewrite Hf in Hin'. destruct Hin'.
Qed.

Lemma found_files_have_a_base_key_witness :
  exists rel,
    "/in/sub/b.CSV" = (dir_prefix "/in" ++ rel)%string
    /\ path_relative "/in" "/in/sub/b.CSV" = rel
    /\ truthy (baseKey rel) = true.
Proof.
  apply (proj1 (found_files_have_a_base_key "/in"
                  (Some [DFile "a.csv";
                         DDirectory "sub"
                           (Some [DFile "b.CSV"; DFile ".csv";
                                  DDirectory "bad" None]);
                         DOther "l.csv"]))).
  vm_compute. right. left. reflexivity.
Defined.

(** ** The two modes side by side *)

(** X13.  In a run that leaves [Object.prototype] alone, for every language
    the JSON document of the i18next mode holds no entry that the module of
    the TypeScript mode does not hold; and when [nestObject] logs nothing
    for the language, the two hold the same entries. *)
Theorem i18next_entries_are_typescript_entries (csvFiles : list csv_file)
    (lang k v : string) :
  ordinary csvFiles = true ->
  (In (k, v)
      (body_entries
         (language_body i18next (translationsByLang (aggregate csvFiles)) lang))
   -> In (k, v)
        (body_entries
           (language_body typescript (translationsByLang (aggregate csvFiles))
              lang)))
  /\ (snd (nestObject (lang_table lang (translationsByLang (aggregate csvFiles))))
      = [] ->
      In (k, v)
         (body_entries
            (language_body typescript (translationsByLang (aggregate csvFiles))
               lang))
      -> In (k, v)
           (body_entries
              (language_body i18next (translationsByLang (aggregate csvFiles))
                 lang))).
Proof.
  intros Ho.
  pose proof (table_nodup csvFiles lang) as Hnd. split.
  - intros H. apply (language_body_entries i18next) in H; [|exact Hnd].
    cbn [language_body body_entries]. apply get_in.
    now rewrite sortedLangData_get.
  - intros Hs H. cbn [language_body body_entries] in *.
    apply sortedLangData_in in H. apply get_in in H.
    eapply Permutation_in; [|exact H].
    symmetry. apply flatten_nest_silent; [|exact Hnd|exact Hs].
    intros k'. now apply ordinary_table_keys.
Qed.

Lemma i18next_entries_are_typescript_entries_witness :
  In ("a.k", "v")
     (body_entries
        (language_body typescript
           (translationsByLang
              (aggregate
                 [parsed_file "a.csv" ["key"; "en"]
                    [str_row [("key", "k"); ("en", "v")];
                     str_row [("key", "k.x"); ("en", "w")]]]))
           "en")).
Proof.
  apply (proj1 (i18next_entries_are_typescript_entries
                  [parsed_file "a.csv" ["key"; "en"]
                     [str_row [("key", "k"); ("en", "v")];
                      str_row [("key", "k.x"); ("en", "w")]]]
                  "en" "a.k" "v" eq_refl)).
  vm_compute. now left.
Defined.

(** ** The base key *)

Lemma replace_all_chars c d s a :
  In a (list_ascii_of_string (JsString.replace_all c d s)) ->
  a = d \/ (a <> c /\ In a (list_ascii_of_string s)).
Proof.
  induction s as [|b s IH]; simpl; [intros []|].
  intros [H|H].
  - destruct (Ascii.eqb b c) eqn:E; [now left|].
    right. apply Ascii.eqb_neq in E. subst a. split; [exact E|now left].
  - destruct (IH H) as [H'|[H1 H2]]; [now left|right].
    split; [exact H1|now right].
Qed.

Lemma strip_csv_chars s a :
  In a (list_ascii_of_string (JsString.strip_csv s)) ->
  In a (list_ascii_of_string s).
Proof.
  induction s as [|b s IH]; [intros []|].
  cbn [JsString.strip_csv].
  destruct (JsString.is_csv_ext (String b s)); [intros []|].
  simpl. intros [H|H]; [now left|right; now apply IH].
Qed.

Lemma replace_all_twice c d s :
  c <> d ->
  JsString.replace_all c d (JsString.replace_all c d s)
  = JsString.replace_all c d s.
Proof.
  intros Hne. induction s as [|b s IH]; simpl; [reflexivity|].
  rewrite IH. f_equal.
  destruct (Ascii.eqb b c) eqn:E.
  - destruct (Ascii.eqb d c) eqn:E'; [|reflexivity].
    apply Ascii.eqb_eq in E'. now subst.
  - now rewrite E.
Qed.

(** X14.  The base key of a relative path holds neither a slash nor a
    backslash, and is the same whether the path is written with slashes or
    with backslashes. *)
Theorem base_key_has_no_separator (relative : string) :
  (forall a, In a (list_ascii_of_string (baseKey relative)) ->
             a <> "/"%char /\ a <> "\"%char)
  /\ baseKey (JsString.replace_all "\" "/" relative) = baseKey relative.
Proof.
  split.
  - intros a H. rewrite baseKey_is_base_namespace in H.
    unfold base_namespace in H.
    destruct (replace_all_chars _ _ _ _ H) as [->|[Hs H']].
    + split; discriminate.
    + split; [exact Hs|].
      apply strip_csv_chars in H'.
      destruct (replace_all_chars _ _ _ _ H') as [->|[Hb _]];
        [now elim Hs|exact Hb].
  - unfold baseKey. now rewrite replace_all_twice by discriminate.
Qed.

(** ** Watch mode *)

Lemma watch_flag_snoc argv events e :
  watch_flag argv (events ++ [e])
  = fst (on_watch_event argv (watch_flag argv events) e).
Proof. unfold watch_flag. now rewrite fold_left_app. Qed.

(** While the flag is set and no conversion ends, the flag stays set. *)
Lemma watch_flag_stays argv l : forall b,
  b = true ->
  (forall e, In e l -> ~ is_end_of_child e) ->
  fold_left (fun b e => fst (on_watch_event argv b e)) l b = true.
Proof.
  induction l as [|e l IH]; intros b Hb H; [exact Hb|].
  cbn [fold_left]. apply IH.
  - subst b. destruct e as [t n| |]; [reflexivity| |].
    + exfalso. apply (H ChildClosed); [now left|now left].
    + exfalso. apply (H ChildFailed); [now left|now right].
  - intros e' He'. apply H. now right.
Qed.

Lemma end_of_child_dec (l : list watch_event) :
  (exists e, In e l /\ is_end_of_child e)
  \/ (forall e, In e l -> ~ is_end_of_child e).
Proof.
  induction l as [|e l IH]; [right; intros e []|].
  destruct e as [t n| |].
  - destruct IH as [(e & He & Hend)|IH].
    + left. exists e. split; [now right|exact Hend].
    + right. intros e [<-|He]; [intros [H|H]; discriminate|now apply IH].
  - left. exists ChildClosed. split; [now left|now left].
  - left. exists ChildFailed. split; [now left|now right].
Qed.

(** X15.  The watcher spawns a conversion only for a change of a file whose
    name ends in [.csv], never hands it a watch flag, and never spawns a
    second one before a [close] or [error] event of a conversion came after
    the first. *)
Theorem watcher_runs_one_conversion_at_a_time (argv : list string) :
  (forall b e args,
      snd (on_watch_event argv b e) = Some args ->
      b = false
      /\ (exists t name,
             e = FileChanged t (Some name)
             /\ endsWith (JsString.toLowerCase name) ".csv" = true)
      /\ ~ In "--watch" args /\ ~ In "-w" args)
  /\ forall l1 e1 l2 e2,
      spawns argv l1 e1 ->
      spawns argv (l1 ++ e1 :: l2) e2 ->
      exists e, In e l2 /\ is_end_of_child e.
Proof.
  split.
  - intros b e args H. destruct e as [t [name|]| |]; cbn in H;
      destruct b; try discriminate.
    destruct (truthy name && endsWith (JsString.toLowerCase name) ".csv")
      eqn:E; [|discriminate].
    injection H as <-. apply andb_true_iff in E. destruct E as [_ E].
    split; [reflexivity|]. split; [now exists t, name|].
    unfold child_args. split; intros Hin; apply filter_In in Hin;
      destruct Hin as [_ Hin]; discriminate.
  - intros l1 e1 l2 e2 H1 H2.
    destruct (end_of_child_dec l2) as [H|H]; [exact H|].
    exfalso. apply H2. unfold spawns in H1.
    assert (Hflag : watch_flag argv (l1 ++ e1 :: l2) = true).
    { unfold watch_flag. rewrite fold_left_app. cbn [fold_left].
      apply watch_flag_stays; [|exact H].
      fold (watch_flag argv l1).
      destruct e1 as [t [name|]| |]; cbn in H1 |- *;
        destruct (watch_flag argv l1); try now elim H1.
      destruct (truthy name && endsWith (JsString.toLowerCase name) ".csv");
        [reflexivity|now elim H1]. }
    rewrite Hflag. now destruct e2 as [t [name|]| |].
Qed.

Lemma watcher_runs_one_conversion_at_a_time_witness :
  exists e,
    In e [FileChanged "change" (Some "b.csv"); ChildClosed]
    /\ is_end_of_child e.
Proof.
  apply (proj2 (watcher_runs_one_conversion_at_a_time
                  ["node"; "index.js"; "-i"; "in"; "-o"; "out"; "-w"])
           [] (FileChanged "change" (Some "a.CSV"))
           [FileChanged "change" (Some "b.csv"); ChildClosed]
           (FileChanged "rename" (Some "c.csv"))).
  - vm_compute. discriminate.
  - vm_compute. discriminate.
Defined.

(** ** Parse errors *)

Lemma same_data_without_errors st1 st2 f :
  same_data st1 st2 ->
  same_data (process_file st1 f) (process_file st2 (without_errors f)).
Proof.
  intros H. unfold process_file, without_errors.
  cbn [content csvFile relativePath].
  destruct (content f) as [|p].
  - eapply same_data_trans; [apply same_data_warn|].
    eapply same_data_trans; [exact H|]. apply same_data_sym, same_data_warn.
  - cbn [errors fields data].
    assert (H1 : same_data
                   match errors p with
                   | [] => st1
                   | _ :: _ =>
                       warn (ParseWarnings (csvFile f)
                             :: map ParseWarning (errors p)) st1
                   end st2).
    { destruct (errors p); [exact H|].
      eapply same_data_trans; [apply same_data_warn|exact H]. }
    destruct (fields p) as [fs|].
    + apply same_data_process_rows. destruct H1 as [Ht Ha].
      destruct (negb (truthy (baseKey (relativePath f))) && _);
        split; cbn [warn translationsByLang allKeys]; congruence.
    + eapply same_data_trans; [apply same_data_warn|].
      eapply same_data_trans; [exact H1|]. apply same_data_sym, same_data_warn.
Qed.

(** X16.  The errors that PapaParse reports for rows are warnings only:
    the run writes the same files as if no error had been reported. *)
Theorem parse_errors_change_no_output (writable : string -> bool)
    (fmt : format) (csvFiles : list csv_file) :
  fst (convertCsvToTs writable fmt csvFiles)
  = fst (convertCsvToTs writable fmt (map without_errors csvFiles)).
Proof.
  rewrite !run_outputs_of. apply outputs_of_same_data. unfold aggregate.
  assert (H : same_data initial_state initial_state) by now split.
  revert H. generalize initial_state at 1 3. generalize initial_state.
  induction csvFiles as [|f files IH]; intros st2 st1 H; [exact H|].
  cbn [map fold_left]. apply IH. now apply same_data_without_errors.
Qed.
